(** * Validator dashboard: transaction indexing core

    A shallow embedding of the indexing core of the dashboard server
    (services/parser.ts, services/syncer.ts, services/fetcher.ts and
    utils/lock.ts) together with the properties of it that the design
    document states.

    The JavaScript data the code handles comes from JSON responses, so the
    embedding works on JSON-shaped values with JavaScript's dynamic
    semantics written out: property access on [null]/[undefined] raises a
    [TypeError], [a || b] picks by truthiness, template literals convert to
    strings, and so on.  Exceptions are modelled by the [Result] monad. *)

From Stdlib Require Import ZArith String Ascii List Lia.
From stdpp Require Import base option list strings gmap pretty.

Open Scope string_scope.
Open Scope Z_scope.

(* ================================================================== *)
(** * JavaScript values and built-ins *)
(* ================================================================== *)

Module Js.

Set Warnings "-register-all".

(** Values as [JSON.parse] produces them, plus [undefined].  Numbers are the
    integers (the ledger's JSON carries quantities as decimal strings;
    fractional literals are outside the model).  An object is its list of
    own properties in insertion order; lookup takes the first entry. *)
Inductive JsVal : Type :=
| JUndef
| JNull
| JBool (b : bool)
| JNum (n : Z)
| JStr (s : string)
| JArr (items : list JsVal)
| JObj (fields : list (string * JsVal)).

(** Exceptions.  [HttpError st] is an axios error whose
    [error.response?.status] is [st] ([None]: no response was received);
    [TypeError] and [OtherError] are not axios errors. *)
Inductive JsError : Type :=
| TypeError
| HttpError (status : option Z)
| OtherError.

Inductive Result (A : Type) : Type :=
| Ok (a : A)
| Throw (e : JsError).
Arguments Ok {A} a.
Arguments Throw {A} e.

#[global] Instance result_ret : MRet Result := fun _ a => Ok a.
#[global] Instance result_bind : MBind Result := fun _ _ f m =>
  match m with
  | Ok a => f a
  | Throw e => Throw e
  end.

#[global] Instance result_fmap : FMap Result := fun _ _ f m =>
  match m with
  | Ok a => Ok (f a)
  | Throw e => Throw e
  end.

Definition isOk {A} (r : Result A) : bool :=
  match r with Ok _ => true | Throw _ => false end.

(** [for (const x of xs) body]: thread the state through the items, stopping
    at the first exception. *)
Fixpoint forEachM {A S : Type} (body : A → S → Result S) (xs : list A) (s : S)
  : Result S :=
  match xs with
  | [] => Ok s
  | x :: xs' => s' ← body x s; forEachM body xs' s'
  end.

Fixpoint mapM_ {A B : Type} (f : A → Result B) (xs : list A) : Result (list B) :=
  match xs with
  | [] => Ok []
  | x :: xs' => y ← f x; ys ← mapM_ f xs'; Ok (y :: ys)
  end.

(** ** Characters and strings *)

Definition isDigit (c : ascii) : bool :=
  let n := N_of_ascii c in ((48 <=? n) && (n <=? 57))%N.

Definition isUpper (c : ascii) : bool :=
  let n := N_of_ascii c in ((65 <=? n) && (n <=? 90))%N.

Definition isLower (c : ascii) : bool :=
  let n := N_of_ascii c in ((97 <=? n) && (n <=? 122))%N.

(** The character class [[a-zA-Z]]. *)
Definition isLetter (c : ascii) : bool := isUpper c || isLower c.

Definition lowerChar (c : ascii) : ascii :=
  if isUpper c then ascii_of_N (N_of_ascii c + 32) else c.

(** [s.toLowerCase()] (on ASCII). *)
Fixpoint toLowerCase (s : string) : string :=
  match s with
  | EmptyString => EmptyString
  | String c s' => String (lowerChar c) (toLowerCase s')
  end.

(** [s.startsWith(p)]. *)
Definition startsWith (p s : string) : bool := String.prefix p s.

(** [s.includes(sub)]. *)
Fixpoint includes (sub s : string) : bool :=
  String.prefix sub s ||
  match s with
  | EmptyString => false
  | String _ s' => includes sub s'
  end.

Fixpoint dropChars (n : nat) (s : string) : string :=
  match n, s with
  | O, _ => s
  | S _, EmptyString => EmptyString
  | S n', String _ s' => dropChars n' s'
  end.

(** [s.replace(pat, rep)] with a string pattern: the first occurrence only. *)
Fixpoint replaceFirst (pat rep s : string) : string :=
  if String.prefix pat s then rep +:+ dropChars (String.length pat) s
  else match s with
       | EmptyString => EmptyString
       | String c s' => String c (replaceFirst pat rep s')
       end.

(** [s.split(sep)] for a one-character separator; [cur] is the segment being
    read.  The result is never empty: [split "." ""] is [[""]]. *)
Fixpoint splitGo (sep : ascii) (cur : string) (s : string) : list string :=
  match s with
  | EmptyString => [cur]
  | String c s' =>
      if Ascii.eqb c sep then cur :: splitGo sep EmptyString s'
      else splitGo sep (cur +:+ String c EmptyString) s'
  end.

Definition split (sep : ascii) (s : string) : list string :=
  splitGo sep EmptyString s.

(** [s.split(".").pop()]. *)
Definition lastSegment (s : string) : string :=
  List.last (split "." s) EmptyString.

(** [xs.join(sep)]. *)
Definition join (sep : string) (xs : list string) : string :=
  String.concat sep xs.

(** [[...new Set(xs)]]: the distinct items in order of first occurrence. *)
Fixpoint uniqueGo (seen : list string) (xs : list string) : list string :=
  match xs with
  | [] => []
  | x :: xs' =>
      if bool_decide (x ∈ seen) then uniqueGo seen xs'
      else x :: uniqueGo (x :: seen) xs'
  end.

Definition unique (xs : list string) : list string := uniqueGo [] xs.

(** Longest prefix of [s] whose characters satisfy [p]. *)
Fixpoint takeWhileS (p : ascii → bool) (s : string) : string :=
  match s with
  | EmptyString => EmptyString
  | String c s' => if p c then String c (takeWhileS p s') else EmptyString
  end.

Fixpoint dropWhileS (p : ascii → bool) (s : string) : string :=
  match s with
  | EmptyString => EmptyString
  | String c s' => if p c then dropWhileS p s' else s
  end.

Fixpoint allS (p : ascii → bool) (s : string) : bool :=
  match s with
  | EmptyString => true
  | String c s' => p c && allS p s'
  end.

Definition nonEmpty (s : string) : bool :=
  match s with EmptyString => false | String _ _ => true end.

(** [s.match(/(\d+)([a-zA-Z]+)/)]: the leftmost match, as the two capture
    groups.  A match starts at the first digit of the first maximal run of
    digits that is directly followed by a letter ([\d+] is greedy and giving
    back digits never helps, as the next character is then a digit); the
    second group is the maximal run of letters after it.  [digits] is the
    run of digits read so far. *)
Fixpoint matchCoinGo (digits : string) (s : string) : option (string * string) :=
  match s with
  | EmptyString => None
  | String c s' =>
      if isDigit c then matchCoinGo (digits +:+ String c EmptyString) s'
      else if isLetter c && nonEmpty digits
           then Some (digits, takeWhileS isLetter s)
           else matchCoinGo EmptyString s'
  end.

Definition matchCoin (s : string) : option (string * string) :=
  matchCoinGo EmptyString s.

(** [s.match(/^(\d+)([a-zA-Z]+)$/)]: the whole string is digits then letters. *)
Definition matchCoinExact (s : string) : option (string * string) :=
  let ds := takeWhileS isDigit s in
  let rest := dropWhileS isDigit s in
  if nonEmpty ds && nonEmpty rest && allS isLetter rest
  then Some (ds, rest) else None.

Definition digitValue (c : ascii) : Z := Z.of_N (N_of_ascii c) - 48.

(** [BigInt(ds)] for a string of decimal digits. *)
Fixpoint bigIntGo (acc : Z) (ds : string) : Z :=
  match ds with
  | EmptyString => acc
  | String c ds' => bigIntGo (10 * acc + digitValue c) ds'
  end.

Definition BigInt (ds : string) : Z := bigIntGo 0 ds.

(** [n.toString()] of a BigInt, and of an integer Number. *)
Definition bigIntToString (n : Z) : string := pretty n.

(** ** Dynamic operations on values *)

(** Truthiness, as [if (v)], [!v], [a || b] and [a && b] test it. *)
Definition truthy (v : JsVal) : bool :=
  match v with
  | JUndef | JNull => false
  | JBool b => b
  | JNum n => negb (n =? 0)
  | JStr s => nonEmpty s
  | JArr _ | JObj _ => true
  end.

Definition isNullish (v : JsVal) : bool :=
  match v with JUndef | JNull => true | _ => false end.

Fixpoint assoc (k : string) (fs : list (string * JsVal)) : JsVal :=
  match fs with
  | [] => JUndef
  | (k', v) :: fs' => if String.eqb k k' then v else assoc k fs'
  end.

(** [v.k] for a data property [k].  None of the property names the code
    reads is a built-in member of strings, numbers or arrays, so on those
    the access yields [undefined]. *)
Definition getProp (k : string) (v : JsVal) : Result JsVal :=
  match v with
  | JUndef | JNull => Throw TypeError
  | JObj fs => Ok (assoc k fs)
  | _ => Ok JUndef
  end.

(** [v?.k]. *)
Definition getOpt (k : string) (v : JsVal) : JsVal :=
  match v with
  | JObj fs => assoc k fs
  | _ => JUndef
  end.

Definition charAt (i : nat) (s : string) : JsVal :=
  match String.get i s with
  | Some c => JStr (String c EmptyString)
  | None => JUndef
  end.

(** [v[i]] and [v?.[i]] on a value that is not nullish. *)
Definition index (i : nat) (v : JsVal) : JsVal :=
  match v with
  | JArr xs => nth i xs JUndef
  | JStr s => charAt i s
  | JObj fs => assoc (pretty i) fs
  | _ => JUndef
  end.

(** [v[i]]. *)
Definition getIndex (i : nat) (v : JsVal) : Result JsVal :=
  if isNullish v then Throw TypeError else Ok (index i v).

(** [v.length]. *)
Definition jsLength (v : JsVal) : JsVal :=
  match v with
  | JArr xs => JNum (Z.of_nat (length xs))
  | JStr s => JNum (Z.of_nat (String.length s))
  | JObj fs => assoc "length" fs
  | _ => JUndef
  end.

Definition isArray (v : JsVal) : bool :=
  match v with JArr _ => true | _ => false end.

(** [a || b] where evaluating [b] may raise. *)
Definition orElse (a : JsVal) (b : Result JsVal) : Result JsVal :=
  if truthy a then Ok a else b.

(** [v1 || v2 || ... || vn]: the first truthy operand, else the last one. *)
Fixpoint orChain (vs : list JsVal) : JsVal :=
  match vs with
  | [] => JUndef
  | [v] => v
  | v :: vs' => if truthy v then v else orChain vs'
  end.

(** [v.k1 || v.k2 || ... || v.kn].  Every access raises exactly when [v] is
    nullish, so reading all properties first is the same as the lazy
    evaluation. *)
Definition orProps (ks : list string) (v : JsVal) : Result JsVal :=
  vs ← mapM_ (fun k => getProp k v) ks; Ok (orChain vs).

(** String conversion, as a template literal [`${v}`] performs it, on the
    values that are [plain] (below).  Outside of them JavaScript differs:
    an object with an own property [toString], which parsed JSON never
    makes callable, raises a [TypeError], and a number that is not a safe
    integer is not printed digit by digit. *)
Fixpoint toStr (v : JsVal) : string :=
  match v with
  | JUndef => "undefined"
  | JNull => "null"
  | JBool true => "true"
  | JBool false => "false"
  | JNum n => pretty n
  | JStr s => s
  | JArr xs =>
      join "," (map (fun x => if isNullish x then EmptyString else toStr x) xs)
  | JObj _ => "[object Object]"
  end.

(** The parts of the JavaScript runtime that are library code rather than
    code of this repository, and whose full behaviour the properties below
    do not depend on. *)
Class Runtime : Type := {
  (** [JSON.parse(Buffer.from(d, 'base64').toString('utf-8'))];
      [None] when either step raises. *)
  decodePacket : JsVal → option JsVal;
  (** [Number(s)] on a string; [None] when the result is [NaN].  Strings
      that denote fractions are outside the model, as fractional literals
      are. *)
  stringToNumber : string → option Z;
  (** [new Date(v).getTime()]; [None] for an invalid date. *)
  dateOf : JsVal → option Z
}.

(** [Number(v)]; [None] stands for [NaN] (or a non-integer).  As for
    [toStr], this is the conversion of the [plain] values: on an object
    with an own property [toString], or an array that holds one,
    JavaScript raises a [TypeError]. *)
Definition toNumber `{Runtime} (v : JsVal) : option Z :=
  match v with
  | JUndef => None
  | JNull => Some 0
  | JBool b => Some (if b then 1 else 0)
  | JNum n => Some n
  | JStr s => stringToNumber s
  | JArr _ => stringToNumber (toStr v)
  | JObj _ => None
  end.

(** [v > 1], as [messages.length > 1] compares. *)
Definition gtOne `{Runtime} (v : JsVal) : bool :=
  match toNumber v with
  | Some n => 1 <? n
  | None => false
  end.

(** The values on which [toStr] and [toNumber] are the conversions of
    JavaScript: no object, at any depth, has an own property [toString],
    and every number is a safe integer ([Number.isSafeInteger]). *)
Fixpoint plain (v : JsVal) : bool :=
  match v with
  | JNum n => Z.abs n <=? 9007199254740991
  | JArr xs => forallb plain xs
  | JObj fs =>
      forallb (fun kv => match kv with
                         | (k, x) => negb (String.eqb k "toString") && plain x
                         end) fs
  | _ => true
  end.

(** [v === s] against a string. *)
Definition strictEqStr (v : JsVal) (s : string) : bool :=
  match v with
  | JStr s' => String.eqb s' s
  | _ => false
  end.

(** Calling a string method ([split], [match], [toLowerCase], ...) on [v]:
    on anything but a string the member is [undefined] and the call raises. *)
Definition asString (v : JsVal) : Result string :=
  match v with
  | JStr s => Ok s
  | _ => Throw TypeError
  end.

(** [v.includes(s)]: both strings and arrays have the method. *)
Definition jsIncludes (s : string) (v : JsVal) : Result bool :=
  match v with
  | JStr s' => Ok (includes s s')
  | JArr xs => Ok (existsb (fun x => strictEqStr x s) xs)
  | _ => Throw TypeError
  end.

Fixpoint charsOf (s : string) : list JsVal :=
  match s with
  | EmptyString => []
  | String c s' => JStr (String c EmptyString) :: charsOf s'
  end.

(** The items [for (const x of v)] visits; anything but an array or a
    string is not iterable. *)
Definition iterate (v : JsVal) : Result (list JsVal) :=
  match v with
  | JArr xs => Ok xs
  | JStr s => Ok (charsOf s)
  | _ => Throw TypeError
  end.

(** [xs.find(p)] on an array. *)
Fixpoint findM (p : JsVal → Result bool) (xs : list JsVal) : Result JsVal :=
  match xs with
  | [] => Ok JUndef
  | x :: xs' => b ← p x; if b : bool then Ok x else findM p xs'
  end.

(** [v?.find(p)]. *)
Definition optFind (p : JsVal → Result bool) (v : JsVal) : Result JsVal :=
  match v with
  | JUndef | JNull => Ok JUndef
  | JArr xs => findM p xs
  | _ => Throw TypeError
  end.

(** A loop body either goes on with a new state or returns from the
    enclosing function. *)
Inductive Flow (S R : Type) : Type :=
| Continue (s : S)
| Return (r : R).
Arguments Continue {S R} s.
Arguments Return {S R} r.

(** [for (const x of xs) body] where the body may [return]. *)
Fixpoint forEachFlow {A S R : Type} (body : A → S → Result (Flow S R))
    (xs : list A) (s : S) : Result (Flow S R) :=
  match xs with
  | [] => Ok (Continue s)
  | x :: xs' =>
      f ← body x s;
      match f with
      | Continue s' => forEachFlow body xs' s'
      | Return r => Ok (Return r)
      end
  end.

End Js.

(* ================================================================== *)
(** * services/parser.ts: the message interpreter *)
(* ================================================================== *)

Module TxParser.
Import Js.

(** The [ParsedTx] record.  The fields the type declares as
    [string | null] hold whatever value the parser assigns at run time.
    [timestamp] (the wall clock at the time of the call, never taken from
    the transaction) is left out. *)
Record ParsedTx : Type := {
  type : string;
  amount : JsVal;
  sender : JsVal;
  recipient : JsVal;
  delegator : JsVal;
  validator : JsVal;
  dstValidator : JsVal;
  height : Z;
  hash : string
}.

Definition setType (t : string) (r : ParsedTx) : ParsedTx :=
  {| type := t; amount := amount r; sender := sender r;
     recipient := recipient r; delegator := delegator r;
     validator := validator r; dstValidator := dstValidator r;
     height := height r; hash := hash r |}.

Definition setAmount (v : JsVal) (r : ParsedTx) : ParsedTx :=
  {| type := type r; amount := v; sender := sender r;
     recipient := recipient r; delegator := delegator r;
     validator := validator r; dstValidator := dstValidator r;
     height := height r; hash := hash r |}.

Definition setSender (v : JsVal) (r : ParsedTx) : ParsedTx :=
  {| type := type r; amount := amount r; sender := v;
     recipient := recipient r; delegator := delegator r;
     validator := validator r; dstValidator := dstValidator r;
     height := height r; hash := hash r |}.

Definition setRecipient (v : JsVal) (r : ParsedTx) : ParsedTx :=
  {| type := type r; amount := amount r; sender := sender r;
     recipient := v; delegator := delegator r;
     validator := validator r; dstValidator := dstValidator r;
     height := height r; hash := hash r |}.

Definition setDelegator (v : JsVal) (r : ParsedTx) : ParsedTx :=
  {| type := type r; amount := amount r; sender := sender r;
     recipient := recipient r; delegator := v;
     validator := validator r; dstValidator := dstValidator r;
     height := height r; hash := hash r |}.

Definition setValidator (v : JsVal) (r : ParsedTx) : ParsedTx :=
  {| type := type r; amount := amount r; sender := sender r;
     recipient := recipient r; delegator := delegator r;
     validator := v; dstValidator := dstValidator r;
     height := height r; hash := hash r |}.

Definition setDstValidator (v : JsVal) (r : ParsedTx) : ParsedTx :=
  {| type := type r; amount := amount r; sender := sender r;
     recipient := recipient r; delegator := delegator r;
     validator := validator r; dstValidator := v;
     height := height r; hash := hash r |}.

(** The initial [result] of [parse] and of [parseBatchTx]. *)
Definition emptyResult (t : string) : ParsedTx :=
  {| type := t; amount := JNull; sender := JNull; recipient := JNull;
     delegator := JNull; validator := JNull; dstValidator := JNull;
     height := 0; hash := EmptyString |}.

(** The module account that collects fees, as the resolver spells it. *)
Definition FEE_COLLECTOR : string := "17xpfvakm2amg962yls6f84z3kell8c5l".

(** [`${c.amount}${c.denom}`] for a value [c] that is not nullish. *)
Definition coinStr (c : JsVal) : JsVal :=
  JStr (toStr (getOpt "amount" c) +:+ toStr (getOpt "denom" c)).

(** [a.key === k], the callback of [attributes.find]. *)
Definition keyIs (k : string) (a : JsVal) : Result bool :=
  v ← getProp "key" a; Ok (strictEqStr v k).

(** [event.attributes?.find(a => a.key === k)]. *)
Definition findAttr (k : string) (event : JsVal) : Result JsVal :=
  attrs ← getProp "attributes" event; optFind (keyIs k) attrs.

(** [event.type === t]. *)
Definition eventTypeIs (t : string) (event : JsVal) : Result bool :=
  v ← getProp "type" event; Ok (strictEqStr v t).

(** ** parseVoteOption *)

Definition opts : list string :=
  ["EMPTY"; "YES"; "ABSTAIN"; "NO"; "NO_WITH_VETO"].

Definition parseVoteOption `{Runtime} (option : JsVal) : string :=
  match option with
  | JStr s =>
      let cleaned := replaceFirst "VOTE_OPTION_" EmptyString s in
      if bool_decide (cleaned ∈ opts) then cleaned else s
  | _ =>
      match toNumber option with
      | Some i =>
          if (0 <=? i) && (i <? 5) then nth (Z.to_nat i) opts EmptyString
          else "UNKNOWN"
      | None => "UNKNOWN"
      end
  end.

(** ** extractRecipientFromEvents *)

(** One candidate of the scan: the attribute [attrKey] of an event of type
    [evType], unless it names the fee collector. *)
Definition recipientCandidate (evType attrKey : string) (event : JsVal)
  : Result (Flow unit JsVal) :=
  isT ← eventTypeIs evType event;
  if isT : bool then
    attr ← findAttr attrKey event;
    let value := getOpt "value" attr in
    if truthy value then
      fee ← jsIncludes FEE_COLLECTOR value;
      if fee : bool then Ok (Continue ()) else Ok (Return value)
    else Ok (Continue ())
  else Ok (Continue ()).

Definition recipientFromEvent (event : JsVal) (_ : unit)
  : Result (Flow unit JsVal) :=
  f ← recipientCandidate "transfer" "recipient" event;
  match f with
  | Return v => Ok (Return v)
  | Continue _ => recipientCandidate "coin_received" "receiver" event
  end.

Definition extractRecipientFromEvents (events : JsVal) : Result JsVal :=
  match events with
  | JArr evs =>
      f ← forEachFlow recipientFromEvent evs ();
      match f with
      | Return v => Ok v
      | Continue _ => Ok JNull
      end
  | _ => Ok JNull
  end.

(** ** extractRecipientFromLogs *)

(** [a.key === "recipient" || a.key === "withdraw_address"]. *)
Definition keyIsRecipient (a : JsVal) : Result bool :=
  v ← getProp "key" a;
  Ok (strictEqStr v "recipient" || strictEqStr v "withdraw_address").

Definition logCandidate (isT : bool) (find : JsVal → Result JsVal)
    (event : JsVal) : Result (Flow unit JsVal) :=
  if isT then
    attr ← find event;
    let value := getOpt "value" attr in
    if truthy value then Ok (Return value) else Ok (Continue ())
  else Ok (Continue ()).

Definition recipientFromLogEvent (event : JsVal) (_ : unit)
  : Result (Flow unit JsVal) :=
  ty ← getProp "type" event;
  f ← logCandidate (strictEqStr ty "transfer") (findAttr "recipient") event;
  match f with
  | Return v => Ok (Return v)
  | Continue _ =>
      f ← logCandidate (strictEqStr ty "coin_received")
            (findAttr "receiver") event;
      match f with
      | Return v => Ok (Return v)
      | Continue _ =>
          logCandidate
            (strictEqStr ty "withdraw_rewards"
             || strictEqStr ty "withdraw_commission")
            (fun e => attrs ← getProp "attributes" e;
                      optFind keyIsRecipient attrs)
            event
      end
  end.

(** [const events = log.events || []] and the loop over them. *)
Definition eventsOfLog (log : JsVal) : Result (list JsVal) :=
  evs ← getProp "events" log;
  if truthy evs then iterate evs else Ok [].

Definition recipientFromLog (log : JsVal) (_ : unit)
  : Result (Flow unit JsVal) :=
  evs ← eventsOfLog log;
  forEachFlow recipientFromLogEvent evs ().

Definition extractRecipientFromLogs (logs : JsVal) : Result JsVal :=
  match logs with
  | JArr ls =>
      f ← forEachFlow recipientFromLog ls ();
      match f with
      | Return v => Ok v
      | Continue _ => Ok JNull
      end
  | _ => Ok JNull
  end.

(** ** extractAmountFromLogs *)

(** The accumulators of the scan: [totalAmount], [denom] and [found]. *)
Record LogTotals : Type := {
  totalAmount : Z;
  denom : string;
  found : bool
}.

(** One coin string of a comma-separated amount. *)
Definition addCoin (st : LogTotals) (coinText : string) : LogTotals :=
  match matchCoin coinText with
  | Some (quantity, d) =>
      {| totalAmount := totalAmount st + BigInt quantity;
         denom := if nonEmpty (denom st) then denom st else d;
         found := true |}
  | None => st
  end.

Definition amountFromLogEvent (event : JsVal) (st : LogTotals)
  : Result (Flow LogTotals JsVal) :=
  ty ← getProp "type" event;
  st' ← (if strictEqStr ty "withdraw_rewards"
            || strictEqStr ty "withdraw_commission"
         then
           attr ← findAttr "amount" event;
           let value := getOpt "value" attr in
           if truthy attr && truthy value then
             text ← asString value;
             Ok (fold_left addCoin (split "," text) st)
           else Ok st
         else Ok st);
  if strictEqStr ty "transfer" || strictEqStr ty "coin_received" then
    attr ← findAttr "amount" event;
    let value := getOpt "value" attr in
    if truthy attr && truthy value then Ok (Return value)
    else Ok (Continue st')
  else Ok (Continue st').

Definition amountFromLog (log : JsVal) (st : LogTotals)
  : Result (Flow LogTotals JsVal) :=
  evs ← eventsOfLog log;
  forEachFlow amountFromLogEvent evs st.

Definition extractAmountFromLogs (logs : JsVal) : Result JsVal :=
  match logs with
  | JArr ls =>
      f ← forEachFlow amountFromLog ls
            {| totalAmount := 0; denom := EmptyString; found := false |};
      match f with
      | Return v => Ok v
      | Continue st =>
          if found st && (0 <? totalAmount st)
          then Ok (JStr (bigIntToString (totalAmount st) +:+ denom st))
          else Ok JNull
      end
  | _ => Ok JNull
  end.

(** ** enhanceWithdrawData *)

(** The accumulators of the loop over the events, and the [result] it
    updates on the way. *)
Record WithdrawTotals : Type := {
  totalRewardAmount : Z;
  totalCommissionAmount : Z;
  wdenom : string;
  wresult : ParsedTx
}.

Definition setWResult (r : ParsedTx) (st : WithdrawTotals) : WithdrawTotals :=
  {| totalRewardAmount := totalRewardAmount st;
     totalCommissionAmount := totalCommissionAmount st;
     wdenom := wdenom st; wresult := r |}.

(** The first coin of an event's [amount] attribute, if there is one. *)
Definition eventCoin (event : JsVal) : Result (option (string * string)) :=
  attr ← findAttr "amount" event;
  let value := getOpt "value" attr in
  if truthy value then text ← asString value; Ok (matchCoin text)
  else Ok None.

Definition addReward (c : option (string * string)) (st : WithdrawTotals)
  : WithdrawTotals :=
  match c with
  | Some (quantity, d) =>
      {| totalRewardAmount := totalRewardAmount st + BigInt quantity;
         totalCommissionAmount := totalCommissionAmount st;
         wdenom := if nonEmpty (wdenom st) then wdenom st else d;
         wresult := wresult st |}
  | None => st
  end.

Definition addCommission (c : option (string * string)) (st : WithdrawTotals)
  : WithdrawTotals :=
  match c with
  | Some (quantity, d) =>
      {| totalRewardAmount := totalRewardAmount st;
         totalCommissionAmount := totalCommissionAmount st + BigInt quantity;
         wdenom := if nonEmpty (wdenom st) then wdenom st else d;
         wresult := wresult st |}
  | None => st
  end.

(** [if (!current) { const a = find(key); if (a?.value) field = a.value }]. *)
Definition fillFromAttr (current : JsVal) (key : string) (event : JsVal)
  : Result JsVal :=
  if truthy current then Ok current
  else
    attr ← findAttr key event;
    let value := getOpt "value" attr in
    Ok (if truthy value then value else current).

Definition withdrawEvent (event : JsVal) (st : WithdrawTotals)
  : Result WithdrawTotals :=
  ty ← getProp "type" event;
  st1 ← (if strictEqStr ty "withdraw_rewards" then
           c ← eventCoin event;
           let st' := addReward c st in
           v ← fillFromAttr (validator (wresult st')) "validator" event;
           let r1 := setValidator v (wresult st') in
           d ← fillFromAttr (delegator r1) "delegator" event;
           Ok (setWResult (setDelegator d r1) st')
         else Ok st);
  if strictEqStr ty "withdraw_commission" then
    c ← eventCoin event;
    Ok (addCommission c st1)
  else Ok st1.

Definition enhanceWithdrawData (txResponse : JsVal) (result : ParsedTx)
  : Result ParsedTx :=
  evs ← getProp "events" txResponse;
  let events := if truthy evs then evs else JArr [] in
  items ← iterate events;
  st ← forEachM withdrawEvent items
         {| totalRewardAmount := 0; totalCommissionAmount := 0;
            wdenom := EmptyString; wresult := result |};
  let grandTotal := totalRewardAmount st + totalCommissionAmount st in
  let result :=
    if 0 <? grandTotal then
      if (0 <? totalRewardAmount st) && (0 <? totalCommissionAmount st) then
        setAmount
          (JStr (bigIntToString grandTotal +:+ wdenom st +:+ " (R:"
                 +:+ bigIntToString (totalRewardAmount st) +:+ "+C:"
                 +:+ bigIntToString (totalCommissionAmount st) +:+ ")"))
          (wresult st)
      else
        setAmount (JStr (bigIntToString grandTotal +:+ wdenom st)) (wresult st)
    else wresult st in
  if truthy (recipient result) then Ok result
  else
    r ← extractRecipientFromEvents events;
    Ok (setRecipient r result).

(** ** extractByPattern *)

(** 1. Amount patterns: [msg.amount] (array of coins or one coin), then
    [msg.token], then [msg.value]; a later pattern overwrites an earlier. *)
Definition amountPatterns (msg : JsVal) (result : ParsedTx) : Result ParsedTx :=
  a ← getProp "amount" msg;
  let result :=
    if truthy a then
      if isArray a then
        setAmount (if truthy (index 0 a) then coinStr (index 0 a) else JNull)
          result
      else if truthy (getOpt "amount" a) && truthy (getOpt "denom" a)
           then setAmount (coinStr a) result
           else result
    else result in
  token ← getProp "token" msg;
  let result :=
    if truthy token && truthy (getOpt "amount" token)
       && truthy (getOpt "denom" token)
    then setAmount (coinStr token) result else result in
  value ← getProp "value" msg;
  Ok (if truthy value && truthy (getOpt "amount" value)
         && truthy (getOpt "denom" value)
      then setAmount (coinStr value) result else result).

(** [result.type.includes("RecvPacket") || msg["@type"]?.includes("RecvPacket")]. *)
Definition isRecvPacket (msg : JsVal) (result : ParsedTx) : Result bool :=
  if includes "RecvPacket" (type result) then Ok true
  else
    ty ← getProp "@type" msg;
    if isNullish ty then Ok false else jsIncludes "RecvPacket" ty.

(** The body of the [try] block on a decoded packet.  Reading a property of
    a [null] packet raises before anything is assigned, and the [catch]
    swallows it: [None]. *)
Definition applyPacket (decoded : JsVal) (result : ParsedTx) : option ParsedTx :=
  if isNullish decoded then None
  else
    let result :=
      if truthy (getOpt "receiver" decoded)
      then setRecipient (getOpt "receiver" decoded) result else result in
    let result :=
      if truthy (getOpt "sender" decoded)
      then setSender (getOpt "sender" decoded) result else result in
    let result :=
      if truthy (getOpt "amount" decoded) && truthy (getOpt "denom" decoded)
      then setAmount (coinStr decoded) result else result in
    Some (setType "IBC Receive" result).

(** The packet branch: [Some r] when the function returns from inside the
    [try] block with [r]. *)
Definition recvPacket `{Runtime} (msg : JsVal) (result : ParsedTx)
  : Result (option ParsedTx) :=
  isRecv ← isRecvPacket msg result;
  if isRecv : bool then
    packet ← getProp "packet" msg;
    if truthy packet && truthy (getOpt "data" packet) then
      match decodePacket (getOpt "data" packet) with
      | Some decoded => Ok (applyPacket decoded result)
      | None => Ok None
      end
    else Ok None
  else Ok None.

(** Handle MultiSend. *)
Definition multiSend (msg : JsVal) (result : ParsedTx) : Result ParsedTx :=
  inputs ← getProp "inputs" msg;
  outputs ← getProp "outputs" msg;
  if truthy inputs && truthy outputs then
    let input := index 0 inputs in
    let result := setSender (getOpt "address" input) result in
    let result := setRecipient (getOpt "address" (index 0 outputs)) result in
    let coins := getOpt "coins" input in
    let amt := if isNullish coins then JUndef else index 0 coins in
    Ok (if truthy amt then setAmount (coinStr amt) result else result)
  else Ok result.

(** 5. Governance. *)
Definition governance `{Runtime} (msg : JsVal) (result : ParsedTx)
  : Result ParsedTx :=
  pid ← getProp "proposal_id" msg;
  if truthy pid then
    option ← getProp "option" msg;
    if truthy option then
      Ok (setAmount
            (JStr ("Prop #" +:+ toStr pid +:+ ": "
                   +:+ parseVoteOption option))
            result)
    else Ok result
  else Ok result.

(** The callback that picks the inner message of an authorized execution. *)
Definition isMeaningful (m : JsVal) : Result bool :=
  ty ← getProp "@type" m;
  text ← asString (if truthy ty then ty else JStr EmptyString);
  let t := toLowerCase text in
  Ok (includes "delegate" t || includes "send" t || includes "transfer" t).

(** The amount of the inner message.  The array case reads the first coin
    without testing that there is one. *)
Definition innerAmount (m : JsVal) (result : ParsedTx) : Result ParsedTx :=
  let a := getOpt "amount" m in
  if truthy a then
    if isArray a then
      coinAmount ← getProp "amount" (index 0 a);
      coinDenom ← getProp "denom" (index 0 a);
      Ok (setAmount (JStr (toStr coinAmount +:+ toStr coinDenom)) result)
    else if truthy (getOpt "amount" a) && truthy (getOpt "denom" a)
         then Ok (setAmount (coinStr a) result)
         else Ok result
  else
    let value := getOpt "value" m in
    if truthy value && truthy (getOpt "amount" value)
    then Ok (setAmount (coinStr value) result)
    else Ok result.

(** [if (m.k) field = m.k]. *)
Definition overrideWith (k : string) (m : JsVal) (set : JsVal → ParsedTx → ParsedTx)
    (result : ParsedTx) : ParsedTx :=
  if truthy (getOpt k m) then set (getOpt k m) result else result.

(** 7. Authz exec (nested messages). *)
Definition authzExec (msg : JsVal) (result : ParsedTx) : Result ParsedTx :=
  if includes "Exec" (type result) then
    msgs ← getProp "msgs" msg;
    match msgs with
    | JArr inner =>
        picked ← findM isMeaningful inner;
        let meaningfulMsg := if truthy picked then picked else index 0 msgs in
        if truthy meaningfulMsg then
          let rawInnerType := getOpt "@type" meaningfulMsg in
          text ← asString (if truthy rawInnerType then rawInnerType
                           else JStr EmptyString);
          let cleaned := replaceFirst "Msg" EmptyString (lastSegment text) in
          let innerTypeClean := if nonEmpty cleaned then cleaned else "InnerTx" in
          let result := setType ("Exec/" +:+ innerTypeClean) result in
          result ← innerAmount meaningfulMsg result;
          let result := overrideWith "delegator_address" meaningfulMsg
                          setDelegator result in
          let result := overrideWith "validator_address" meaningfulMsg
                          setValidator result in
          let result := overrideWith "from_address" meaningfulMsg
                          setSender result in
          Ok (overrideWith "to_address" meaningfulMsg setRecipient result)
        else Ok result
    | _ => Ok result
    end
  else Ok result.

Definition senderKeys : list string :=
  ["from_address"; "sender"; "signer"; "voter"; "granter"; "depositor";
   "proposer"; "delegator_address"; "executor"].

Definition recipientKeys : list string :=
  ["to_address"; "receiver"; "recipient"; "grantee"].

Definition delegatorKeys : list string :=
  ["delegator_address"; "delegator"; "voter"; "grantee"; "depositor"; "sender"].

Definition validatorKeys : list string :=
  ["validator_address"; "validator_src_address"; "validator_addr";
   "source_validator"].

Definition dstValidatorKeys : list string :=
  ["validator_dst_address"; "destination_validator"].

Definition extractByPattern `{Runtime} (msg : JsVal) (result : ParsedTx)
  : Result ParsedTx :=
  result ← amountPatterns msg result;
  packet ← recvPacket msg result;
  match packet with
  | Some result => Ok result
  | None =>
      s ← orProps senderKeys msg;
      let result := setSender s result in
      r ← orProps recipientKeys msg;
      let result := setRecipient r result in
      result ← multiSend msg result;
      d ← orProps delegatorKeys msg;
      let result := setDelegator d result in
      v ← orProps validatorKeys msg;
      let result := setValidator v result in
      dv ← orProps dstValidatorKeys msg;
      let result := setDstValidator dv result in
      result ← governance msg result;
      let result :=
        if includes "Unjail" (type result) then setAmount (JStr "Unjail") result
        else result in
      authzExec msg result
  end.

(** ** The fallbacks shared by [parse] and [parseBatchTx] *)

(** [if (!result.amount) result.amount = extractAmountFromLogs(logs)], then
    [if (!result.recipient) result.recipient =
       extractRecipientFromEvents(events) || extractRecipientFromLogs(logs)]. *)
Definition logFallbacks (txResponse : JsVal) (result : ParsedTx)
  : Result ParsedTx :=
  result ← (if truthy (amount result) then Ok result
            else
              logs ← getProp "logs" txResponse;
              a ← extractAmountFromLogs logs;
              Ok (setAmount a result));
  if truthy (recipient result) then Ok result
  else
    events ← getProp "events" txResponse;
    fromEvents ← extractRecipientFromEvents events;
    r ← orElse fromEvents
          (logs ← getProp "logs" txResponse; extractRecipientFromLogs logs);
    Ok (setRecipient r result).

(** ** parseBatchTx *)

(** [(m["@type"] || "").split(".").pop()]. *)
Definition shortType (m : JsVal) : Result string :=
  ty ← getProp "@type" m;
  text ← asString (if truthy ty then ty else JStr EmptyString);
  Ok (lastSegment text).

Definition parseBatchTx `{Runtime} (txResponse : JsVal) (messages : list JsVal)
  : Result ParsedTx :=
  let result := emptyResult "Batch" in
  types ← mapM_ shortType messages;
  let uniqueTypes := unique types in
  let count := pretty (length types) in
  let first := nth 0 messages JUndef in
  if existsb (includes "Withdraw") uniqueTypes then
    (* Case A: batch withdraw *)
    let hasReward := existsb (includes "WithdrawDelegatorReward") types in
    let hasCommission :=
      existsb (includes "WithdrawValidatorCommission") types in
    let result :=
      if hasReward && hasCommission
      then setType "BatchWithdraw(Reward+Commission)" result
      else if (1 <? length types)%nat
           then setType ("BatchWithdraw(" +:+ count +:+ ")") result
           else setType (let t := nth 0 types EmptyString in
                         if nonEmpty t then t else "Withdraw") result in
    d ← orProps ["delegator_address"; "delegator"] first;
    let result := setDelegator d result in
    va ← getProp "validator_address" first;
    v ← orElse va
          (m ← findM (fun m => x ← getProp "validator_address" m; Ok (truthy x))
                 messages;
           Ok (getOpt "validator_address" m));
    let result := setValidator v result in
    let result := setSender (delegator result) result in
    enhanceWithdrawData txResponse result
  else if forallb (includes "UpdateClient") uniqueTypes then
    (* Case B: batch IBC update *)
    let result := setType ("BatchUpdateClient(" +:+ count +:+ ")") result in
    signer ← getProp "signer" first;
    let result := setSender signer result in
    Ok (setAmount (JStr "IBC Update") result)
  else
    (* Case C: default batch *)
    let result :=
      setType (let t := nth 0 types EmptyString in
               if nonEmpty t then t else "BatchTx") result in
    result ← extractByPattern first result;
    logFallbacks txResponse result.

(** ** parse, the entry point *)

Definition parse `{Runtime} (txResponse : JsVal) : Result ParsedTx :=
  let result := emptyResult "Unknown" in
  if negb (truthy txResponse) || negb (truthy (getOpt "tx" txResponse))
  then Ok result
  else
    let body := getOpt "body" (getOpt "tx" txResponse) in
    let found := getOpt "messages" body in
    let messages := if truthy found then found else JArr [] in
    if gtOne (jsLength messages) then
      (* 1. batch transactions *)
      match messages with
      | JArr ms =>
          ibcRecvMsg ← findM (fun m => ty ← getProp "@type" m;
                                jsIncludes "RecvPacket"
                                  (if truthy ty then ty else JStr EmptyString))
                         ms;
          focused ←
            (if truthy ibcRecvMsg then
               r ← extractByPattern ibcRecvMsg (setType "IBC Receive" result);
               Ok (if truthy (amount r) && truthy (recipient r)
                   then Some r else None)
             else Ok None);
          match focused with
          | Some r => Ok r
          | None => parseBatchTx txResponse ms
          end
      | _ => Throw TypeError
      end
    else
      (* 2. single message *)
      let msg := index 0 messages in
      if negb (truthy msg) then Ok result
      else
        let rawType := getOpt "@type" msg in
        text ← asString (if truthy rawType then rawType else JStr EmptyString);
        let last := lastSegment text in
        let result := setType (if nonEmpty last then last else "Tx") result in
        result ← extractByPattern msg result;
        result ← (if includes "Withdraw" (type result)
                  then enhanceWithdrawData txResponse result
                  else Ok result);
        logFallbacks txResponse result.

(** ** The shape of events *)

(** The helper types [EventAttribute] and [Event] that parser.ts declares
    for the event list, and the JSON values they describe (the optional
    [index] flag of an attribute, which nothing reads, is left out). *)
Module Raw.






End Raw.

End TxParser.

(* ================================================================== *)
(** * utils/lock.ts: the in-process lock table *)
(* ================================================================== *)

Module LockManager.

(** A held lock.  The timer armed by [acquire] is represented by the
    moment at which it fires. *)
Record LockInfo : Type := {
  acquired : Z;
  expiresAt : Z;
  operation : string
}.

(** The time a timer armed with [setTimeout(f, ms)] really waits: Node
    sets a delay above 2^31-1 or below 1 to 1 ms. *)
Definition timerDelay (ms : Z) : Z :=
  if (1 <=? ms) && (ms <=? 2147483647) then ms else 1.

(** [acquire(key, timeoutMs, operation)] at time [now]. *)
Definition acquire (key : string) (timeoutMs : Z) (op : string) (now : Z)
    (locks : gmap string LockInfo) : bool * gmap string LockInfo :=
  match locks !! key with
  | Some _ => (false, locks)
  | None =>
      (true,
       <[key := {| acquired := now;
                   expiresAt := now + timerDelay timeoutMs;
                   operation := op |}]> locks)
  end.

(** [release(key)]: drops the entry (and its timer) when there is one. *)
Definition release (key : string) (locks : gmap string LockInfo)
  : gmap string LockInfo :=
  delete key locks.

Definition isLocked (key : string) (locks : gmap string LockInfo) : bool :=
  bool_decide (is_Some (locks !! key)).

(** The timers that are due at [now] fire: each force-releases its key. *)
Definition fireTimers (now : Z) (locks : gmap string LockInfo)
  : gmap string LockInfo :=
  filter (fun kv => now < expiresAt kv.2) locks.

(** [acquireWithRetry(key, operation, maxRetries, retryDelayMs)] from time
    [now], with no other task running in between: after each failed
    attempt but the last it waits on a timer armed with [retryDelayMs],
    and the timers that come due while it waits fire.  Returns the outcome, the lock table and the time
    at which it returns. *)
Fixpoint acquireWithRetry (key op : string) (maxRetries : nat)
    (retryDelayMs : Z) (now : Z) (locks : gmap string LockInfo)
  : bool * gmap string LockInfo * Z :=
  match maxRetries with
  | O => (false, locks, now)
  | S n =>
      match acquire key 300000 op now locks with
      | (true, locks') => (true, locks', now)
      | (false, _) =>
          match n with
          | O => (false, locks, now)
          | S _ =>
              let now' := now + timerDelay retryDelayMs in
              acquireWithRetry key op n retryDelayMs now'
                (fireTimers now' locks)
          end
      end
  end.

(** [getLockInfo(key)]. *)
Definition getLockInfo (key : string) (locks : gmap string LockInfo)
  : option LockInfo :=
  locks !! key.

(** The loop of [waitForRelease], entered at time [now] with no other task
    running in between: each turn that finds the key held and the deadline
    not passed waits 500 ms, during which the timers that come due fire.
    [polls] bounds the number of turns. *)
Fixpoint waitForReleaseGo (polls : nat) (key : string)
    (maxWaitMs startTime now : Z) (locks : gmap string LockInfo)
  : bool * gmap string LockInfo * Z :=
  if isLocked key locks then
    if maxWaitMs <? now - startTime then (false, locks, now)
    else
      match polls with
      | O => (false, locks, now)
      | S polls' =>
          let now' := now + 500 in
          waitForReleaseGo polls' key maxWaitMs startTime now'
            (fireTimers now' locks)
      end
  else (true, locks, now).

(** [waitForRelease(key, maxWaitMs)] called at time [now].  The deadline
    has passed after [maxWaitMs / 500 + 1] waits, so the loop never runs
    out of turns. *)
Definition waitForRelease (key : string) (maxWaitMs : Z) (now : Z)
    (locks : gmap string LockInfo) : bool * gmap string LockInfo * Z :=
  waitForReleaseGo (Z.to_nat (maxWaitMs / 500) + 2) key maxWaitMs now now
    locks.

End LockManager.

(* ================================================================== *)
(** * services/fetcher.ts: the indexer query client *)
(* ================================================================== *)

Module Fetcher.
Import Js.

(** A GET request: the endpoint and the query parameters in the order in
    which they were added to the [URLSearchParams] (a key may repeat).  The
    percent-encoding that turns it into a URL string is library code. *)
Record Request : Type := {
  endpoint : string;
  params : list (string * string);
  timeout : Z
}.

(** What [axios.get] does with a request: it resolves with the response
    body or rejects with an error. *)
Inductive HttpResult : Type :=
| Resolved (data : JsVal)
| Rejected (e : JsError).

(** The backend as the client sees it: the outcome of a request may depend
    on the requests made before it (newest first). *)
Definition Backend : Type := list Request → Request → HttpResult.

(** [isAxiosError(error)]. *)
Definition isAxiosError (e : JsError) : bool :=
  match e with HttpError _ => true | _ => false end.

(** [error.response?.status] of an axios error. *)
Definition statusOf (e : JsError) : option Z :=
  match e with HttpError st => st | _ => None end.

Definition endsWithSlash (s : string) : bool :=
  match rev (list_ascii_of_string s) with
  | c :: _ => Ascii.eqb c "/"
  | [] => false
  end.

Definition dropLast (s : string) : string :=
  string_of_list_ascii (removelast (list_ascii_of_string s)).

(** [normalizeRestUrl] of config.ts. *)
Definition normalizeRestUrl (url : string) : string :=
  if negb (startsWith "http://" url) && negb (startsWith "https://" url)
  then "https://" +:+ url
  else if endsWithSlash url then dropLast url else url.

(** [{ ...res, tx: v }]. *)
Fixpoint setField (k : string) (v : JsVal) (fs : list (string * JsVal))
  : list (string * JsVal) :=
  match fs with
  | [] => [(k, v)]
  | (k', v') :: fs' =>
      if String.eqb k k' then (k', v) :: fs' else (k', v') :: setField k v fs'
  end.

Fixpoint indexed (i : nat) (xs : list JsVal) : list (string * JsVal) :=
  match xs with
  | [] => []
  | x :: xs' => (pretty i, x) :: indexed (S i) xs'
  end.

(** The own enumerable properties that an object spread copies. *)
Definition spread (v : JsVal) : list (string * JsVal) :=
  match v with
  | JObj fs => fs
  | JArr xs => indexed 0 xs
  | JStr s => indexed 0 (charsOf s)
  | _ => []
  end.

(** The callback of [txResponses.map] in [mergeTxResponses]. *)
Definition mergeOne (txs : JsVal) (res : JsVal) (i : nat) : Result JsVal :=
  tx ← getProp "tx" res;
  if truthy tx then Ok res
  else
    let body := index i txs in
    Ok (JObj (setField "tx" (if truthy body then body else JNull) (spread res))).

Fixpoint mergeFrom (txs : JsVal) (i : nat) (rs : list JsVal)
  : Result (list JsVal) :=
  match rs with
  | [] => Ok []
  | r :: rs' =>
      m ← mergeOne txs r i; ms ← mergeFrom txs (S i) rs'; Ok (m :: ms)
  end.

(** Normalizes transaction responses where tx body and metadata are
    separated. *)
Definition mergeTxResponses (data : JsVal) : Result (list JsVal) :=
  tr ← getProp "tx_responses" data;
  let txResponses := if truthy tr then tr else JArr [] in
  let found := getOpt "txs" data in
  let txs := if truthy found then found else JArr [] in
  match txResponses with
  | JArr rs => mergeFrom txs 0 rs
  | _ => Throw TypeError
  end.

(** The value [fetchIndexerMode] resolves with. *)
Record Page : Type := {
  txs : list JsVal;
  total : option Z
}.

(** [{ txs: mergeTxResponses(data), total: Number(data.pagination?.total || 0) }]. *)
Definition pageOf `{Runtime} (data : JsVal) : Result Page :=
  merged ← mergeTxResponses data;
  let t := getOpt "total" (getOpt "pagination" data) in
  Ok {| txs := merged; total := toNumber (if truthy t then t else JNum 0) |}.

Definition LIMIT : string := "100".
Definition ORDER : string := "1".

(** Mode 1: the legacy query parameter. *)
Definition paramsLegacy (queryEvent : string) (minHeight page : Z)
  : list (string * string) :=
  [("query", queryEvent +:+ " AND tx.height>=" +:+ pretty minHeight);
   ("pagination.limit", LIMIT);
   ("pagination.page", pretty page);
   ("order_by", ORDER)].

(** Mode 2: the events parameter, repeated. *)
Definition paramsEvents (queryEvent : string) (minHeight page : Z)
  : list (string * string) :=
  [("events", queryEvent);
   ("events", "tx.height>=" +:+ pretty minHeight);
   ("pagination.limit", LIMIT);
   ("pagination.page", pretty page);
   ("order_by", ORDER)].

(** One [try { const { data } = await axios.get(url); return {...} }]:
    the request is recorded, and the outcome is the page or the exception
    that the [catch] receives. *)
Definition attempt `{Runtime} (backend : Backend) (req : Request)
    (history : list Request) : list Request * Result Page :=
  (req :: history,
   match backend history req with
   | Resolved data => pageOf data
   | Rejected e => Throw e
   end).

(** [fetchIndexerMode(restUrl, queryEvent, minHeight, page)], given the
    requests made so far; returns the requests made and the outcome. *)
Definition fetchIndexerMode `{Runtime} (backend : Backend)
    (restUrl queryEvent : string) (minHeight page : Z)
    (history : list Request) : list Request * Result Page :=
  let baseApi := normalizeRestUrl restUrl +:+ "/cosmos/tx/v1beta1/txs" in
  let legacy := {| endpoint := baseApi;
                   params := paramsLegacy queryEvent minHeight page;
                   timeout := 15000 |} in
  match attempt backend legacy history with
  | (history, Ok p) => (history, Ok p)
  | (history, Throw error) =>
      if isAxiosError error
         && bool_decide (default 0 (statusOf error) ∈ [400; 500; 501])
      then
        let events := {| endpoint := baseApi;
                         params := paramsEvents queryEvent minHeight page;
                         timeout := 15000 |} in
        match attempt backend events history with
        | (history, Ok p) => (history, Ok p)
        | (history, Throw _) => (history, Ok {| txs := []; total := Some 0 |})
        end
      else (history, Throw error)
  end.

End Fetcher.

(* ================================================================== *)
(** * services/syncer.ts: the crawl orchestrator *)
(* ================================================================== *)

Module Syncer.
Import Js.

(** ** Helpers on messages *)

Fixpoint depth (v : JsVal) : nat :=
  match v with
  | JArr xs => S (list_max (map depth xs))
  | JObj fs => S (list_max (map (fun kv => depth (snd kv)) fs))
  | _ => O
  end.

Definition MSG_EXEC : string := "/cosmos.authz.v1beta1.MsgExec".

(** The body of the loop of [extractAllMessages]: push the message, and
    the messages nested in it when it is a [MsgExec]; [recurse] is the
    recursive call. *)
Definition pushMessage (recurse : JsVal → Result (list JsVal))
    (msg : JsVal) (allMessages : list JsVal) : Result (list JsVal) :=
  ty ← getProp "@type" msg;
  if strictEqStr ty MSG_EXEC && isArray (getOpt "msgs" msg) then
    nestedMsgs ← recurse (getOpt "msgs" msg);
    Ok (allMessages ++ [msg] ++ nestedMsgs)%list
  else Ok (allMessages ++ [msg])%list.

(** [extractAllMessages], with the depth of the recursion bounded by
    [fuel].  The recursion descends into the value, so its nesting depth is
    fuel enough ([extractAllMessagesGo_fuel] below). *)
Fixpoint extractAllMessagesGo (fuel : nat) (messages : JsVal)
  : Result (list JsVal) :=
  items ← iterate messages;
  forEachM
    (pushMessage
       match fuel with
       | O => fun _ => Ok []
       | S fuel' => extractAllMessagesGo fuel'
       end)
    items [].

Definition extractAllMessages (messages : JsVal) : Result (list JsVal) :=
  extractAllMessagesGo (depth messages) messages.

(** The record [parseMessage] returns.  [amount] is a string built by a
    template literal, or [null]. *)
Record ParsedMsg : Type := {
  type : string;
  amount : option string;
  sender : JsVal;
  recipient : JsVal;
  delegator : JsVal;
  validator : JsVal;
  dstValidator : JsVal
}.

(** [`${c.amount}${c.denom}`]. *)
Definition coinText (c : JsVal) : string :=
  toStr (getOpt "amount" c) +:+ toStr (getOpt "denom" c).

(** Truthiness of a [string | null]. *)
Definition isSet (a : option string) : bool :=
  match a with Some s => nonEmpty s | None => false end.

(** [v || null]. *)
Definition orNull (v : JsVal) : JsVal := if truthy v then v else JNull.

(** The packet branch of [parseMessage]: the record it returns from inside
    the [try] block, or [None] when decoding raises and the [catch] lets
    the function go on. *)
Definition parsePacket `{Runtime} (data : JsVal) : option ParsedMsg :=
  match decodePacket data with
  | Some decoded =>
      if isNullish decoded then None
      else
        Some {| type := "IBCRecv";
                amount := if truthy (getOpt "amount" decoded)
                             && truthy (getOpt "denom" decoded)
                          then Some (coinText decoded) else None;
                sender := orNull (getOpt "sender" decoded);
                recipient := orNull (getOpt "receiver" decoded);
                delegator := JNull; validator := JNull;
                dstValidator := JNull |}
  | None => None
  end.

(** The three amount patterns of [parseMessage]; [token] and [value] are
    tried only while no amount has been found. *)
Definition messageAmount (msg : JsVal) : option string :=
  let a := getOpt "amount" msg in
  let amount :=
    if truthy a then
      if isArray a then
        let coin := index 0 a in
        if truthy coin then Some (coinText coin) else None
      else if truthy (getOpt "amount" a) && truthy (getOpt "denom" a)
           then Some (coinText a) else None
    else None in
  let token := getOpt "token" msg in
  let amount :=
    if negb (isSet amount) && truthy token && truthy (getOpt "amount" token)
       && truthy (getOpt "denom" token)
    then Some (coinText token) else amount in
  let value := getOpt "value" msg in
  if negb (isSet amount) && truthy value && truthy (getOpt "amount" value)
     && truthy (getOpt "denom" value)
  then Some (coinText value) else amount.

(** [msg.k1 || ... || msg.kn || null] on a message that is not nullish. *)
Definition firstOf (ks : list string) (msg : JsVal) : JsVal :=
  orChain (map (fun k => getOpt k msg) ks ++ [JNull])%list.

Definition parseMessage `{Runtime} (msg : JsVal) : Result ParsedMsg :=
  ty ← getProp "@type" msg;
  text ← asString (if truthy ty then ty else JStr EmptyString);
  let last := lastSegment text in
  let type := if nonEmpty last then last else "Unknown" in
  let packet := getOpt "packet" msg in
  let decoded :=
    if includes "RecvPacket" type && truthy packet
       && truthy (getOpt "data" packet)
    then parsePacket (getOpt "data" packet) else None in
  match decoded with
  | Some parsed => Ok parsed
  | None =>
      Ok {| type := type;
            amount := messageAmount msg;
            sender := firstOf ["from_address"; "sender"; "signer";
                               "delegator_address"; "granter"; "depositor";
                               "voter"; "proposer"; "executor"] msg;
            recipient := firstOf ["to_address"; "recipient"; "receiver";
                                  "grantee"] msg;
            delegator := firstOf ["delegator_address"; "delegator"; "voter";
                                  "depositor"; "sender"] msg;
            validator := firstOf ["validator_address"; "validator_src_address";
                                  "source_validator"; "validator_addr"] msg;
            dstValidator := firstOf ["validator_dst_address";
                                     "destination_validator"] msg |}
  end.

(** [denomMap[denom] += amount], keeping the order in which the
    denominations were first seen (denominations that name a member of
    [Object.prototype] are outside the model). *)
Fixpoint addToDenom (d : string) (q : Z) (m : list (string * Z))
  : list (string * Z) :=
  match m with
  | [] => [(d, q)]
  | (d', total) :: m' =>
      if String.eqb d d' then (d', total + q) :: m'
      else (d', total) :: addToDenom d q m'
  end.

Definition addAmount (m : list (string * Z)) (amountStr : string)
  : list (string * Z) :=
  match matchCoinExact amountStr with
  | Some (q, d) => addToDenom d (BigInt q) m
  | None => m
  end.

(** [aggregateAmounts]: the amounts that are not [null], summed per
    denomination. *)
Definition aggregateAmounts (amounts : list (option string)) : option string :=
  let validAmounts := omap id amounts in
  match validAmounts with
  | [] => None
  | _ =>
      let denomMap := fold_left addAmount validAmounts [] in
      let results :=
        map (fun e => bigIntToString (snd e) +:+ fst e) denomMap in
      match results with
      | [] => None
      | [r] => Some r
      | _ => Some (join ", " results)
      end
  end.

(** ** The store, and the world the crawl runs in *)

(** A row of the [Wallet] table with its chain's REST endpoint joined in
    (the columns the crawl reads or writes).  The table is keyed by the
    primary key [id], which the row itself does not repeat. *)
Record Wallet : Type := {
  label : string;
  address : string;
  valAddress : option string;
  withdrawalAddress : option string;
  isSyncing : bool;
  lastSyncHeartbeat : option Z;
  webhookUrl : option string;
  notifyWalletTx : bool;
  notifyValidatorTx : bool;
  chainRest : string
}.

Definition setSyncing (b : bool) (w : Wallet) : Wallet :=
  {| label := label w; address := address w;
     valAddress := valAddress w; withdrawalAddress := withdrawalAddress w;
     isSyncing := b; lastSyncHeartbeat := lastSyncHeartbeat w;
     webhookUrl := webhookUrl w; notifyWalletTx := notifyWalletTx w;
     notifyValidatorTx := notifyValidatorTx w; chainRest := chainRest w |}.

Definition setHeartbeat (t : Z) (w : Wallet) : Wallet :=
  {| label := label w; address := address w;
     valAddress := valAddress w; withdrawalAddress := withdrawalAddress w;
     isSyncing := isSyncing w; lastSyncHeartbeat := Some t;
     webhookUrl := webhookUrl w; notifyWalletTx := notifyWalletTx w;
     notifyValidatorTx := notifyValidatorTx w; chainRest := chainRest w |}.

(** Truthiness of a nullable text column. *)
Definition hasText (o : option string) : bool :=
  match o with Some s => nonEmpty s | None => false end.

(** [v === col] against a nullable text column that is truthy. *)
Definition eqText (v : JsVal) (o : option string) : bool :=
  match o with Some s => strictEqStr v s | None => false end.

Inductive Direction : Type := IN | OUT | SELF.

(** A row of [WalletTransaction]; [(hash, walletId)] is its unique key.
    The price column, a float, is left out. *)
Record WalletTx : Type := {
  wtHash : string;
  wtHeight : Z;
  wtTimestamp : Z;
  wtType : string;
  wtAmount : option string;
  wtSender : option string;
  wtRecipient : option string;
  wtDirection : Direction;
  wtRawTx : JsVal;
  wtWalletId : Z
}.

Inductive Category : Type := own | incoming.

(** A row of [ValidatorTransaction]; [(hash, walletId)] is its unique key. *)
Record ValidatorTx : Type := {
  vtHash : string;
  vtHeight : Z;
  vtTimestamp : Z;
  vtType : string;
  vtAmount : option string;
  vtDelegator : option string;
  vtValidator : option string;
  vtDstValidator : option string;
  vtCategory : Category;
  vtRawTx : JsVal;
  vtWalletId : Z
}.

(** A call of [sendDiscordNotification], which catches its own failures. *)
Record Notification : Type := {
  toWallet : Z;
  about : JsVal;
  txType : string;
  shownAmount : JsVal;
  channel : string
}.

(** Everything the crawl reads or changes: the three tables, the lock
    table, the clock, and the traces of what it did to the outside
    (requests, notifications and sleeps, newest first). *)
Record World : Type := {
  wallets : gmap Z Wallet;
  walletTransaction : gmap (string * Z) WalletTx;
  validatorTransaction : gmap (string * Z) ValidatorTx;
  locks : gmap string LockManager.LockInfo;
  clock : Z;
  requests : list Fetcher.Request;
  sent : list Notification;
  sleeps : list Z
}.

Definition setWallets (x : gmap Z Wallet) (w : World) : World :=
  {| wallets := x; walletTransaction := walletTransaction w;
     validatorTransaction := validatorTransaction w; locks := locks w;
     clock := clock w; requests := requests w; sent := sent w;
     sleeps := sleeps w |}.

Definition setWalletTransaction (x : gmap (string * Z) WalletTx) (w : World)
  : World :=
  {| wallets := wallets w; walletTransaction := x;
     validatorTransaction := validatorTransaction w; locks := locks w;
     clock := clock w; requests := requests w; sent := sent w;
     sleeps := sleeps w |}.

Definition setValidatorTransaction (x : gmap (string * Z) ValidatorTx)
    (w : World) : World :=
  {| wallets := wallets w; walletTransaction := walletTransaction w;
     validatorTransaction := x; locks := locks w;
     clock := clock w; requests := requests w; sent := sent w;
     sleeps := sleeps w |}.

Definition setLocks (x : gmap string LockManager.LockInfo) (w : World)
  : World :=
  {| wallets := wallets w; walletTransaction := walletTransaction w;
     validatorTransaction := validatorTransaction w; locks := x;
     clock := clock w; requests := requests w; sent := sent w;
     sleeps := sleeps w |}.

Definition setRequests (x : list Fetcher.Request) (w : World) : World :=
  {| wallets := wallets w; walletTransaction := walletTransaction w;
     validatorTransaction := validatorTransaction w; locks := locks w;
     clock := clock w; requests := x; sent := sent w;
     sleeps := sleeps w |}.

Definition addSent (n : Notification) (w : World) : World :=
  {| wallets := wallets w; walletTransaction := walletTransaction w;
     validatorTransaction := validatorTransaction w; locks := locks w;
     clock := clock w; requests := requests w; sent := n :: sent w;
     sleeps := sleeps w |}.

(** Time passes: the clock advances and the lock timers that come due fire. *)
Definition elapse (ms : Z) (w : World) : World :=
  {| wallets := wallets w; walletTransaction := walletTransaction w;
     validatorTransaction := validatorTransaction w;
     locks := LockManager.fireTimers (clock w + ms) (locks w);
     clock := clock w + ms; requests := requests w; sent := sent w;
     sleeps := ms :: sleeps w |}.

(** ** The monad of the crawl: state that survives exceptions *)

Definition M (A : Type) : Type := World → World * Result A.

#[global] Instance M_ret : MRet M := fun _ a w => (w, Ok a).
#[global] Instance M_bind : MBind M := fun _ _ f m w =>
  match m w with
  | (w', Ok a) => f a w'
  | (w', Throw e) => (w', Throw e)
  end.

Definition throw {A} (e : JsError) : M A := fun w => (w, Throw e).
Definition lift {A} (r : Result A) : M A := fun w => (w, r).
Definition gets {A} (f : World → A) : M A := fun w => (w, Ok (f w)).
Definition modify (f : World → World) : M unit := fun w => (f w, Ok ()).

(** [try { body } catch (e) { ... }] with the outcome handed on as a value. *)
Definition attempt {A} (body : M A) : M (Result A) := fun w =>
  match body w with
  | (w', r) => (w', Ok r)
  end.

(** [try { body } finally { cleanup }] for a cleanup that does not raise. *)
Definition finally {A} (body : M A) (cleanup : World → World) : M A := fun w =>
  match body w with
  | (w', r) => (cleanup w', r)
  end.

(** [prisma.$transaction(body)]: when the body raises, the writes it made to
    the two transaction tables are rolled back; what it did to the outside
    stays done. *)
Definition transaction {A} (body : M A) : M A := fun w =>
  match body w with
  | (w', Ok a) => (w', Ok a)
  | (w', Throw e) =>
      (setValidatorTransaction (validatorTransaction w)
         (setWalletTransaction (walletTransaction w) w'),
       Throw e)
  end.

(** [await sleep(ms)]. *)
Definition sleep (ms : Z) : M unit := modify (elapse ms).

(** ** One envelope of a page *)

(** Prisma validates what it is given: a text key must be a string, a
    nullable text column a string or nothing. *)
Definition textKey (v : JsVal) : Result string :=
  match v with
  | JStr s => Ok s
  | _ => Throw OtherError
  end.

Definition textColumn (v : JsVal) : Result (option string) :=
  match v with
  | JStr s => Ok (Some s)
  | JNull | JUndef => Ok None
  | _ => Throw OtherError
  end.

Definition required {A} (o : option A) : Result A :=
  match o with
  | Some a => Ok a
  | None => Throw OtherError
  end.

Definition isMyAction (wallet : Wallet) (parsed : ParsedMsg) : bool :=
  strictEqStr (sender parsed) (address wallet)
  || strictEqStr (delegator parsed) (address wallet).

Definition isMyReceipt (wallet : Wallet) (parsed : ParsedMsg) : bool :=
  strictEqStr (recipient parsed) (address wallet)
  || (hasText (withdrawalAddress wallet)
      && eqText (recipient parsed) (withdrawalAddress wallet)).

Definition isRelatedToValidator (wallet : Wallet) (parsed : ParsedMsg) : bool :=
  eqText (validator parsed) (valAddress wallet)
  || eqText (dstValidator parsed) (valAddress wallet).

(** The type of the aggregated record: the parser's type for one relevant
    message, a batch name for several. *)
Definition recordType (parserType : string) (msgs : list ParsedMsg) : string :=
  match msgs with
  | [_] => parserType
  | _ =>
      let count := "(batch:" +:+ pretty (length msgs) +:+ ")" in
      let uniqueTypes := unique (map type msgs) in
      if startsWith "Exec/" parserType then parserType +:+ count
      else match uniqueTypes with
           | [u] => u +:+ count
           | _ => join "+" (take 2 uniqueTypes) +:+ count
           end
  end.

(** The block guarded by [myWalletMessages.length > 0]; the result is the
    increment of [newTxCount]. *)
Definition saveWalletRecord `{Runtime} (walletId : Z) (wallet : Wallet) (t : JsVal)
    (h : option Z) (txParserResult : TxParser.ParsedTx)
    (myWalletMessages : list ParsedMsg) : M nat :=
  match myWalletMessages with
  | [] => mret O
  | firstMsg :: _ =>
      txhash ← lift (textKey (getOpt "txhash" t));
      existing ← gets (fun w => walletTransaction w !! (txhash, walletId));
      match existing with
      | Some _ => mret O
      | None =>
          let myAction := isMyAction wallet firstMsg in
          let myReceipt := isMyReceipt wallet firstMsg in
          let direction :=
            if myAction && negb myReceipt then OUT
            else if negb myAction && myReceipt then IN else SELF in
          let aggregatedAmount :=
            aggregateAmounts (map amount myWalletMessages) in
          let txType := recordType (TxParser.type txParserResult)
                          myWalletMessages in
          let shouldUseParserAmount :=
            includes "Withdraw" txType || includes "IBC" txType
            || includes "RecvPacket" txType in
          let finalAmount :=
            if shouldUseParserAmount && truthy (TxParser.amount txParserResult)
            then TxParser.amount txParserResult
            else JStr (if isSet aggregatedAmount
                       then default EmptyString aggregatedAmount else "0") in
          let finalRecipient :=
            if includes "Withdraw" txType
               && truthy (TxParser.recipient txParserResult)
            then TxParser.recipient txParserResult
            else if truthy (recipient firstMsg) then recipient firstMsg
                 else if myReceipt then JStr (address wallet) else JNull in
          let finalSender :=
            if truthy (sender firstMsg) then sender firstMsg
            else if myAction then JStr (address wallet) else JNull in
          height ← lift (required h);
          timestamp ← lift (required (dateOf (getOpt "timestamp" t)));
          amountText ← lift (textColumn finalAmount);
          senderText ← lift (textColumn finalSender);
          recipientText ← lift (textColumn finalRecipient);
          modify (fun w =>
            setWalletTransaction
              (<[(txhash, walletId) :=
                   {| wtHash := txhash; wtHeight := height;
                      wtTimestamp := timestamp; wtType := txType;
                      wtAmount := amountText; wtSender := senderText;
                      wtRecipient := recipientText; wtDirection := direction;
                      wtRawTx := t; wtWalletId := walletId |}]>
                 (walletTransaction w)) w);;
          (if notifyWalletTx wallet && hasText (webhookUrl wallet)
              && ((truthy finalAmount && negb (strictEqStr finalAmount "0"))
                  || includes "Send" txType || includes "Withdraw" txType)
           then modify (addSent {| toWallet := walletId; about := t;
                                   txType := txType;
                                   shownAmount := finalAmount;
                                   channel := "wallet" |})
           else mret ());;
          mret 1%nat
      end
  end.

(** The block guarded by [myValidatorMessages.length > 0]. *)
Definition saveValidatorRecord `{Runtime} (walletId : Z) (wallet : Wallet) (t : JsVal)
    (h : option Z) (txParserResult : TxParser.ParsedTx)
    (myValidatorMessages : list ParsedMsg) : M nat :=
  match myValidatorMessages with
  | [] => mret O
  | firstMsg :: _ =>
      txhash ← lift (textKey (getOpt "txhash" t));
      existsVal ← gets (fun w => validatorTransaction w !! (txhash, walletId));
      match existsVal with
      | Some _ => mret O
      | None =>
          let category :=
            if strictEqStr (delegator firstMsg) (address wallet)
            then own else incoming in
          let aggregatedAmount :=
            aggregateAmounts (map amount myValidatorMessages) in
          let txType := recordType (TxParser.type txParserResult)
                          myValidatorMessages in
          let amountText :=
            if isSet aggregatedAmount then aggregatedAmount else None in
          height ← lift (required h);
          timestamp ← lift (required (dateOf (getOpt "timestamp" t)));
          delegatorText ← lift (textColumn (orNull (delegator firstMsg)));
          validatorText ←
            lift (if truthy (validator firstMsg)
                  then textColumn (validator firstMsg)
                  else Ok (valAddress wallet));
          dstValidatorText ← lift (textColumn (orNull (dstValidator firstMsg)));
          modify (fun w =>
            setValidatorTransaction
              (<[(txhash, walletId) :=
                   {| vtHash := txhash; vtHeight := height;
                      vtTimestamp := timestamp; vtType := txType;
                      vtAmount := amountText; vtDelegator := delegatorText;
                      vtValidator := validatorText;
                      vtDstValidator := dstValidatorText;
                      vtCategory := category; vtRawTx := t;
                      vtWalletId := walletId |}]>
                 (validatorTransaction w)) w);;
          (if hasText (webhookUrl wallet)
              && match category with incoming => true | own => false end
              && notifyValidatorTx wallet
           then modify (addSent {| toWallet := walletId; about := t;
                                   txType := txType;
                                   shownAmount :=
                                     match aggregatedAmount with
                                     | Some a => JStr a
                                     | None => JNull
                                     end;
                                   channel := "validator-incoming" |})
           else mret ());;
          mret 1%nat
      end
  end.

(** [t.tx?.body?.messages || []]. *)
Definition messagesOf (t : JsVal) : JsVal :=
  let found := getOpt "messages" (getOpt "body" (getOpt "tx" t)) in
  if truthy found then found else JArr [].

(** The body of the loop over the envelopes of a page; the result is what
    it adds to [newTxCount]. *)
Definition processTx `{Runtime} (walletId : Z) (wallet : Wallet) (t : JsVal) : M nat :=
  txhash ← lift (getProp "txhash" t);
  if negb (truthy txhash) || negb (truthy (getOpt "height" t)) then mret O
  else
    let h := toNumber (getOpt "height" t) in
    allMessages ← lift (extractAllMessages (messagesOf t));
    txParserResult ← lift (TxParser.parse t);
    parsed ← lift (mapM_ parseMessage allMessages);
    savedWallet ←
      saveWalletRecord walletId wallet t h txParserResult
        (List.filter (fun m => isMyAction wallet m || isMyReceipt wallet m)
           parsed);
    savedValidator ←
      (if hasText (valAddress wallet) then
         saveValidatorRecord walletId wallet t h txParserResult
           (List.filter (isRelatedToValidator wallet) parsed)
       else mret O);
    mret (savedWallet + savedValidator)%nat.

(** [for (const t of txs) { ... }], counting the records saved. *)
Fixpoint processTxs `{Runtime} (walletId : Z) (wallet : Wallet) (txs : list JsVal) : M nat :=
  match txs with
  | [] => mret O
  | t :: txs' =>
      n ← processTx walletId wallet t;
      m ← processTxs walletId wallet txs';
      mret (n + m)%nat
  end.

(** [await prisma.$transaction(async tx => { for (const t of txs) ... })]. *)
Definition savePage `{Runtime} (walletId : Z) (wallet : Wallet) (txs : list JsVal) : M nat :=
  transaction (processTxs walletId wallet txs).

(** ** The page loop of one query filter *)

(** The variables of the [while (running)] loop. *)
Record LoopState : Type := {
  running : bool;
  iterHeight : Z;
  page : Z;
  consecutiveErrors : Z
}.

Definition stop (st : LoopState) : LoopState :=
  {| running := false; iterHeight := iterHeight st; page := page st;
     consecutiveErrors := consecutiveErrors st |}.

Definition setErrors (n : Z) (st : LoopState) : LoopState :=
  {| running := running st; iterHeight := iterHeight st; page := page st;
     consecutiveErrors := n |}.

(** [status && list.includes(status)] on [error.response?.status]. *)
Definition statusIn (error : JsError) (codes : list Z) : bool :=
  Fetcher.isAxiosError error
  && match Fetcher.statusOf error with
     | Some st => negb (st =? 0) && bool_decide (st ∈ codes)
     | None => false
     end.

(** The [catch] block of the loop. *)
Definition onError (error : JsError) (st : LoopState) : M LoopState :=
  let st := setErrors (consecutiveErrors st + 1) st in
  if statusIn error [502; 503; 504] then
    (* server down, wait longer *)
    sleep 10000;;
    mret (if 3 <=? consecutiveErrors st then stop st else st)
  else if statusIn error [429] then
    (* rate limit *)
    sleep 5000;;
    mret st
  else if statusIn error [400; 500; 501] then
    (* bad query or server error *)
    mret (stop st)
  else
    (* generic error handling *)
    if 5 <=? consecutiveErrors st then mret (stop st)
    else sleep 2000;; mret st.

(** [await fetchIndexerMode(wallet.chain.rest, queryEvent, iterHeight, page)]. *)
Definition fetchPage `{Runtime} (backend : Fetcher.Backend) (wallet : Wallet)
    (queryEvent : string) (st : LoopState) : M Fetcher.Page := fun w =>
  match Fetcher.fetchIndexerMode backend (chainRest wallet) queryEvent
          (iterHeight st) (page st) (requests w) with
  | (history, r) => (setRequests history w, r)
  end.

(** Pagination advance rule, applied after a page has been saved.  The
    height of the last envelope is converted with [Number], which on a
    height that is not [plain] raises instead; such heights are outside the
    model. *)
Definition advance `{Runtime} (txs : list JsVal) (st : LoopState) : LoopState :=
  let h := getOpt "height" (List.last txs JUndef) in
  let lastHeight := if truthy h then toNumber h else Some (iterHeight st) in
  let moved :=
    match lastHeight with
    | Some l => iterHeight st <? l
    | None => false
    end in
  {| running := if (length txs <? 100)%nat then false else running st;
     iterHeight := if moved then default 0 lastHeight else iterHeight st;
     page := if moved then 1 else page st + 1;
     consecutiveErrors := consecutiveErrors st |}.

(** One turn of the loop.  An exception of the [try] block comes either
    from the fetch, with the variables untouched, or from saving the page,
    after the error counter has been reset; after that only the conversion
    of the last envelope's height could raise, which it does not on a
    [plain] height (see [advance]). *)
Definition pageIteration `{Runtime} (backend : Fetcher.Backend)
    (walletId : Z) (wallet : Wallet) (queryEvent : string) (st : LoopState)
  : M LoopState :=
  fetched ← attempt (fetchPage backend wallet queryEvent st);
  match fetched with
  | Throw error => onError error st
  | Ok result =>
      let txs := Fetcher.txs result in
      (* reset error counter on success *)
      let st := setErrors 0 st in
      match txs with
      | [] => mret (stop st)
      | _ =>
          saved ← attempt (savePage walletId wallet txs);
          match saved with
          | Throw error => onError error st
          | Ok newTxCount => sleep 200;; mret (advance txs st)
          end
      end
  end.

(** [while (running) { ... }], cut off after [fuel] turns (the loop itself
    need not end: a backend that always answers 429 keeps it going). *)
Fixpoint pageLoop `{Runtime} (fuel : nat) (backend : Fetcher.Backend)
    (walletId : Z) (wallet : Wallet) (queryEvent : string) (st : LoopState)
  : M LoopState :=
  match fuel with
  | O => mret st
  | S fuel' =>
      if running st then
        st' ← pageIteration backend walletId wallet queryEvent st;
        pageLoop fuel' backend walletId wallet queryEvent st'
      else mret st
  end.

(** ** backfillWalletHistory *)

Definition lockKeyOf (walletId : Z) : string :=
  "sync:wallet:" +:+ pretty walletId.

Definition eventQueries (wallet : Wallet) : list string :=
  ["message.sender='" +:+ address wallet +:+ "'";
   "transfer.recipient='" +:+ address wallet +:+ "'"]
  ++ (match withdrawalAddress wallet with
      | Some wa =>
          if nonEmpty wa && negb (String.eqb wa (address wallet))
          then ["transfer.recipient='" +:+ wa +:+ "'"] else []
      | None => []
      end)
  ++ (match valAddress wallet with
      | Some va =>
          if nonEmpty va then
            ["delegate.validator='" +:+ va +:+ "'";
             "redelegate.destination_validator='" +:+ va +:+ "'";
             "unbond.validator='" +:+ va +:+ "'";
             "redelegate.source_validator='" +:+ va +:+ "'"]
          else []
      | None => []
      end).

(** [findFirst({ where: { walletId }, orderBy: { height: "desc" } })?.height]
    on either table. *)
Definition latestHeight {R} (heightOf : R → Z) (walletId : Z)
    (table : gmap (string * Z) R) : option Z :=
  map_fold
    (fun k row best =>
       if bool_decide (k.2 = walletId) then
         match best with
         | Some b => Some (Z.max b (heightOf row))
         | None => Some (heightOf row)
         end
       else best)
    None table.

(** The heartbeat written after each query: an update of a wallet that is
    gone raises, and the [catch] around it only logs. *)
Definition heartbeat (walletId : Z) : M unit :=
  modify (fun w =>
    setWallets (alter (setHeartbeat (clock w)) walletId (wallets w)) w).

(** [for (const queryEvent of eventQueries) { ... }]; [false] when the
    function returns from inside the loop because the wallet is gone. *)
Fixpoint crawlQueries `{Runtime} (fuel : nat) (backend : Fetcher.Backend)
    (walletId : Z) (wallet : Wallet) (startHeight : Z) (queries : list string)
  : M bool :=
  match queries with
  | [] => mret true
  | queryEvent :: rest =>
      stillExists ← gets (fun w => wallets w !! walletId);
      match stillExists with
      | None => mret false
      | Some _ =>
          pageLoop fuel backend walletId wallet queryEvent
            {| running := true; iterHeight := startHeight; page := 1;
               consecutiveErrors := 0 |};;
          heartbeat walletId;;
          crawlQueries fuel backend walletId wallet startHeight rest
      end
  end.

(** [updateMany({ where: { id, isSyncing: false },
                  data: { isSyncing: true, lastSyncHeartbeat: new Date() } })]:
    the number of rows changed. *)
Definition claimSyncing (walletId : Z) : M nat := fun w =>
  match wallets w !! walletId with
  | Some row =>
      if isSyncing row then (w, Ok O)
      else
        (setWallets
           (<[walletId := setHeartbeat (clock w) (setSyncing true row)]>
              (wallets w)) w,
         Ok 1%nat)
  | None => (w, Ok O)
  end.

(** The [try] block of [backfillWalletHistory]. *)
Definition crawl `{Runtime} (fuel : nat) (backend : Fetcher.Backend)
    (walletId : Z) : M unit :=
  found ← gets (fun w => wallets w !! walletId);
  match found with
  | None => mret ()
  | Some wallet =>
      updated ← claimSyncing walletId;
      match updated with
      | O => mret ()
      | S _ =>
          lastWallet ← gets (fun w =>
            latestHeight wtHeight (walletId) (walletTransaction w));
          lastValidator ← gets (fun w =>
            latestHeight vtHeight (walletId) (validatorTransaction w));
          let startHeight :=
            Z.max (default 0 lastWallet) (default 0 lastValidator) in
          crawlQueries fuel backend walletId wallet startHeight
            (eventQueries wallet);;
          mret ()
      end
  end.

(** The [finally] block: clear the flag and release the lock. *)
Definition cleanup (walletId : Z) (w : World) : World :=
  setLocks (LockManager.release (lockKeyOf walletId) (locks w))
    (setWallets (alter (setSyncing false) walletId (wallets w)) w).

Definition setClock (t : Z) (w : World) : World :=
  {| wallets := wallets w; walletTransaction := walletTransaction w;
     validatorTransaction := validatorTransaction w; locks := locks w;
     clock := t; requests := requests w; sent := sent w;
     sleeps := sleeps w |}.

(** [backfillWalletHistory(walletId)].  It never raises: the [catch] logs
    whatever escapes the [try] block.  [fuel] bounds each page loop. *)
Definition backfillWalletHistory `{Runtime} (fuel : nat)
    (backend : Fetcher.Backend) (walletId : Z) (w : World) : World :=
  let lockKey := lockKeyOf walletId in
  match LockManager.acquireWithRetry lockKey "backfillWalletHistory" 3 2000
          (clock w) (locks w) with
  | (false, locks', now) => setClock now (setLocks locks' w)
  | (true, locks', now) =>
      fst (finally (attempt (crawl fuel backend walletId)) (cleanup walletId)
             (setClock now (setLocks locks' w)))
  end.

(** ** syncAllWallets: stuck detection *)

Definition STUCK_THRESHOLD_MS : Z := 10 * 60 * 1000.

(** [now - lastSyncHeartbeat], or [None] for [Infinity]. *)
Definition heartbeatAge (now : Z) (w : Wallet) : option Z :=
  match lastSyncHeartbeat w with
  | Some hb => Some (now - hb)
  | None => None
  end.

(** [heartbeatAge > STUCK_THRESHOLD_MS]. *)
Definition isStale (now : Z) (w : Wallet) : bool :=
  match heartbeatAge now w with
  | Some age => STUCK_THRESHOLD_MS <? age
  | None => true
  end.

(** The body of the loop over the wallets found syncing, each with its id. *)
Definition resetIfStuck (now : Z) (world : World) (w : Z * Wallet) : World :=
  if isStale now w.2 then
    setLocks (LockManager.release (lockKeyOf w.1) (locks world))
      (setWallets (alter (setSyncing false) w.1 (wallets world)) world)
  else world.

(** The stuck-detection block at the start of a periodic pass:
    [findMany({ where: { isSyncing: true } })], then the loop. *)
Definition resetStuckWallets (world : World) : World :=
  let stuckWallets :=
    List.filter (fun w => isSyncing w.2) (map_to_list (wallets world)) in
  let now := clock world in
  fold_left (resetIfStuck now) stuckWallets world.

End Syncer.

(* ================================================================== *)
(** * Sample data *)
(* ================================================================== *)

Module Sample.
Import Js.

(** A runtime to evaluate examples with: a numeric string is a run of
    decimal digits (the empty string is 0), a date is given in epoch
    milliseconds, and no packet decodes. *)
Definition runtime : Runtime :=
  {| decodePacket := fun _ => None;
     stringToNumber := fun s =>
       if allS isDigit s then Some (BigInt s) else None;
     dateOf := fun v => match v with JNum n => Some n | _ => None end |}.

Definition attribute (k v : string) : JsVal :=
  JObj [("key", JStr k); ("value", JStr v)].

Definition event (ty : string) (attributes : list JsVal) : JsVal :=
  JObj [("type", JStr ty); ("attributes", JArr attributes)].

(** A transaction response as the indexer returns it. *)
Definition envelope (txhash : string) (height : string)
    (messages : list JsVal) (events logs : JsVal) : JsVal :=
  JObj [("txhash", JStr txhash); ("height", JStr height);
        ("timestamp", JNum 1700000000000);
        ("tx", JObj [("body", JObj [("messages", JArr messages)])]);
        ("events", events); ("logs", logs)].

Definition withdrawReward (delegator validator : string) : JsVal :=
  JObj [("@type", JStr "/cosmos.distribution.v1beta1.MsgWithdrawDelegatorReward");
        ("delegator_address", JStr delegator);
        ("validator_address", JStr validator)].


Definition vote (proposal option : JsVal) (voter : string) : JsVal :=
  JObj [("@type", JStr "/cosmos.gov.v1beta1.MsgVote");
        ("proposal_id", proposal); ("voter", JStr voter);
        ("option", option)].

Definition send (from to : string) (coins : JsVal) : JsVal :=
  JObj [("@type", JStr "/cosmos.bank.v1beta1.MsgSend");
        ("from_address", JStr from); ("to_address", JStr to);
        ("amount", coins)].

Definition exec (grantee : string) (msgs : list JsVal) : JsVal :=
  JObj [("@type", JStr "/cosmos.authz.v1beta1.MsgExec");
        ("grantee", JStr grantee); ("msgs", JArr msgs)].

(** The fee collector's account on the hub. *)
Definition feeCollector : string :=
  "cosmos17xpfvakm2amg962yls6f84z3kell8c5lserqta".

(** An authorized execution of a send whose coin array is empty. *)
Definition execOfEmptySend : JsVal :=
  envelope "A1" "100" [exec "cosmos1grantee" [send "cosmos1a" "cosmos1b" (JArr [])]]
    (JArr []) (JArr []).

(** The same send as a top-level message. *)
Definition emptySend : JsVal :=
  envelope "A2" "100" [send "cosmos1a" "cosmos1b" (JArr [])] (JArr []) (JArr []).

(** A vote whose only recipient candidate, found in the logs, is the fee
    collector (the fee payment). *)
Definition voteWithFeeTransfer : JsVal :=
  envelope "A3" "100" [vote (JStr "42") (JStr "VOTE_OPTION_YES") "cosmos1voter"]
    (JArr [])
    (JArr [JObj [("events",
                  JArr [event "transfer"
                          [attribute "recipient" feeCollector;
                           attribute "sender" "cosmos1voter";
                           attribute "amount" "500uatom"]])]]).

(** The same transfer, as an item of the flat event list. *)
Definition voteWithFeeEvent : JsVal :=
  envelope "A3" "100" [vote (JStr "42") (JStr "VOTE_OPTION_YES") "cosmos1voter"]
    (JArr [event "transfer"
             [attribute "recipient" feeCollector;
              attribute "sender" "cosmos1voter";
              attribute "amount" "500uatom"]])
    (JArr []).

(** Rewards paid out in two denominations, reported in the logs only. *)
Definition mixedDenomLogs : JsVal :=
  JArr [JObj [("events",
               JArr [event "withdraw_rewards"
                       [attribute "amount" "100uatom,50uosmo"]])]].

(** A reward event that lists two coins of one denomination. *)
Definition twoCoinReward : JsVal :=
  envelope "A4" "100" [withdrawReward "cosmos1d" "cosmosvaloper1v"]
    (JArr [event "withdraw_rewards" [attribute "amount" "100uatom,50uatom"]])
    (JArr []).

(** Two reward events in different denominations. *)
Definition twoDenomRewards : JsVal :=
  envelope "A5" "100" [withdrawReward "cosmos1d" "cosmosvaloper1v"]
    (JArr [event "withdraw_rewards" [attribute "amount" "100uatom"];
           event "withdraw_rewards" [attribute "amount" "50uosmo"]])
    (JArr []).



(** A send of 5uatom from the wallet of the examples. *)
Definition paidSend : JsVal :=
  envelope "B1" "120"
    [send "cosmos1a" "cosmos1b"
       (JArr [JObj [("denom", JStr "uatom"); ("amount", JStr "5")]])]
    (JArr []) (JArr []).
End Sample.

(* ================================================================== *)
(** * Notions the properties are stated with *)
(* ================================================================== *)

Module Statements.
Import Js Fetcher Syncer.

(** The request of the legacy dialect: one combined [query] expression. *)
Definition legacyRequest (restUrl queryEvent : string) (minHeight page : Z)
  : Request :=
  {| endpoint := normalizeRestUrl restUrl +:+ "/cosmos/tx/v1beta1/txs";
     params := paramsLegacy queryEvent minHeight page;
     timeout := 15000 |}.

(** The request of the events dialect: the filter and the height clause as
    two [events] parameters. *)
Definition eventsRequest (restUrl queryEvent : string) (minHeight page : Z)
  : Request :=
  {| endpoint := normalizeRestUrl restUrl +:+ "/cosmos/tx/v1beta1/txs";
     params := paramsEvents queryEvent minHeight page;
     timeout := 15000 |}.


(** The four classes of errors the page loop tells apart. *)
Inductive ErrorClass : Type := Unavailable | RateLimited | Incompatible | Generic.

Definition classOf (e : JsError) : ErrorClass :=
  match e with
  | HttpError (Some st) =>
      if bool_decide (st ∈ [502; 503; 504]) then Unavailable
      else if bool_decide (st = 429) then RateLimited
      else if bool_decide (st ∈ [400; 500; 501]) then Incompatible
      else Generic
  | _ => Generic
  end.

(** A backend that fails the first requests with the errors of [script],
    one per request, and then returns an empty result. *)
Definition scripted (script : list JsError) : Backend := fun history _ =>
  match nth_error script (length history) with
  | Some e => Rejected e
  | None => Resolved (JObj [])
  end.

Definition someWallet : Wallet :=
  {| label := "main"; address := "cosmos1a"; valAddress := None;
     withdrawalAddress := None; isSyncing := true;
     lastSyncHeartbeat := Some 0; webhookUrl := None;
     notifyWalletTx := false; notifyValidatorTx := false;
     chainRest := "https://rest.example" |}.

Definition emptyWorld : World :=
  {| wallets := ∅; walletTransaction := ∅; validatorTransaction := ∅;
     locks := ∅; clock := 0; requests := []; sent := []; sleeps := [] |}.

Definition freshLoop : LoopState :=
  {| running := true; iterHeight := 0; page := 1; consecutiveErrors := 0 |}.
(** Wallet 1 is being crawled: its flag is set and its heartbeat is six
    minutes old.  The crawl has outlived the five minutes its lock is held
    for, so the lock table no longer has its key. *)
Definition busyWorld : World :=
  {| wallets := {[ 1 := someWallet ]};
     walletTransaction := ∅; validatorTransaction := ∅;
     locks := ∅; clock := 360000; requests := []; sent := []; sleeps := [] |}.
(** Two wallets found syncing at a time of 20 minutes: the heartbeat of
    the first is 11 minutes old, that of the second 2 minutes.  The lock
    of the stuck crawl of the first has long been force-released; its key
    is held by a crawl that took it a minute ago.  The lock of the second
    was taken with its heartbeat. *)
Definition staleWallet : Wallet :=
  {| label := "stale"; address := "cosmos1s"; valAddress := None;
     withdrawalAddress := None; isSyncing := true;
     lastSyncHeartbeat := Some (9 * 60000); webhookUrl := None;
     notifyWalletTx := false; notifyValidatorTx := false;
     chainRest := "https://rest.example" |}.

Definition freshWallet : Wallet :=
  {| label := "fresh"; address := "cosmos1f"; valAddress := None;
     withdrawalAddress := None; isSyncing := true;
     lastSyncHeartbeat := Some (18 * 60000); webhookUrl := None;
     notifyWalletTx := false; notifyValidatorTx := false;
     chainRest := "https://rest.example" |}.

Definition heldLock (since : Z) : LockManager.LockInfo :=
  {| LockManager.acquired := since;
     LockManager.expiresAt := since + 300000;
     LockManager.operation := "backfillWalletHistory" |}.

Definition reaperWorld : World :=
  {| wallets := {[ 1 := staleWallet; 2 := freshWallet ]};
     walletTransaction := ∅; validatorTransaction := ∅;
     locks := {[ lockKeyOf 1 := heldLock (19 * 60000);
                 lockKeyOf 2 := heldLock (18 * 60000) ]};
     clock := 20 * 60000; requests := []; sent := []; sleeps := [] |}.

(** The ids of the entries of [l] that the stuck-detection loop resets. *)
Definition staleIds (now : Z) (l : list (Z * Wallet)) : list Z :=
  (List.filter (fun p => isStale now p.2) l).*1.

(** Every record of [w] is also in [w']: the two transaction tables only
    gained keys. *)
Definition grows (w w' : World) : Prop :=
  (∀ k, is_Some (walletTransaction w !! k) →
        is_Some (walletTransaction w' !! k))
  ∧ (∀ k, is_Some (validatorTransaction w !! k) →
          is_Some (validatorTransaction w' !! k)).

(** What [processTx] works out about an envelope before it looks at the
    store: [None] when the envelope is skipped, else the parser's result
    and the parsed messages. *)
Definition analysed `{Runtime} (t : JsVal)
  : Result (option (TxParser.ParsedTx * list ParsedMsg)) :=
  txhash ← getProp "txhash" t;
  if negb (truthy txhash) || negb (truthy (getOpt "height" t)) then Ok None
  else
    allMessages ← extractAllMessages (messagesOf t);
    txParserResult ← TxParser.parse t;
    parsed ← mapM_ parseMessage allMessages;
    Ok (Some (txParserResult, parsed)).








(** The records and the notifications of [w'] are those of [w]. *)
Definition sameStore (w w' : World) : Prop :=
  walletTransaction w' = walletTransaction w
  ∧ validatorTransaction w' = validatorTransaction w
  ∧ sent w' = sent w.

(** Processing [t] changes nothing, in [w] and in any world with more
    records: it is skipped, already indexed in every table it is relevant
    to, or not processable at all. *)
Definition inert `{Runtime} (walletId : Z) (wallet : Wallet) (w : World)
    (t : JsVal) : Prop :=
  ∀ w2, grows w w2 → ∃ r, processTx walletId wallet t w2 = (w2, r).

(** The backend can return [t] in some page. *)
Definition serves `{Runtime} (backend : Backend) (t : JsVal) : Prop :=
  ∃ history req data page,
    backend history req = Resolved data ∧ pageOf data = Ok page
    ∧ t ∈ txs page.

(** A step of the crawl that leaves the records and notifications of [w]
    as they are. *)
Definition keepsStore {A} (w : World) (m : M A) : Prop :=
  ∀ w2, sameStore w w2 → sameStore w (m w2).1.



(** A backend whose every page holds the one sample send. *)
Definition onePageBackend : Backend := fun _ _ =>
  Resolved (JObj [("tx_responses", JArr [Sample.paidSend]);
                  ("pagination", JObj [("total", JStr "1")])]).

Definition idleWallet : Wallet :=
  {| label := "main"; address := "cosmos1a"; valAddress := None;
     withdrawalAddress := None; isSyncing := false;
     lastSyncHeartbeat := None; webhookUrl := None;
     notifyWalletTx := false; notifyValidatorTx := false;
     chainRest := "https://rest.example" |}.

Definition idleWorld : World :=
  {| wallets := {[ 1 := idleWallet ]};
     walletTransaction := ∅; validatorTransaction := ∅;
     locks := ∅; clock := 0; requests := []; sent := []; sleeps := [] |}.


(** A backend that rejects every request with status 400. *)
Definition alwaysBadRequest : Backend :=
  fun _ _ => Rejected (HttpError (Some 400)).





Definition pageWith (t : JsVal) : JsVal :=
  JObj [("tx_responses", JArr [t]);
        ("pagination", JObj [("total", JStr "1")])].


(** A backend that rejects the first request it gets with status 400 and
    answers every later one with the page of the sample send. *)
Definition legacyRefused : Backend := fun history _ =>
  match history with
  | [] => Rejected (HttpError (Some 400))
  | _ => Resolved (pageWith Sample.paidSend)
  end.

End Statements.

(* ================================================================== *)
(** * utils/helpers.ts: retrying with backoff *)
(* ================================================================== *)

Module Helpers.
Import Js Syncer.

(** What a call of [retryWithBackoff] comes to: the value [fn] resolved
    with, or [throw lastError], where [lastError] is still [undefined]
    ([None]) when the loop body never ran. *)
Inductive Outcome (A : Type) : Type :=
| Returned (a : A)
| Raised (lastError : option JsError).
Arguments Returned {A} a.
Arguments Raised {A} lastError.

(** [for (let i = 0; i < maxRetries; i++) { try { return await fn() }
    catch (error) { ... } }] from turn [i] on, with [turns] turns left. *)
Fixpoint retryLoop {A} (fn : M A) (maxRetries : nat) (baseDelay : Z)
    (turns i : nat) (lastError : option JsError) (w : World)
  : World * Outcome A :=
  match turns with
  | O => (w, Raised lastError)
  | S turns' =>
      match fn w with
      | (w', Ok a) => (w', Returned a)
      | (w', Throw error) =>
          let w' :=
            if Z.of_nat i <? Z.of_nat maxRetries - 1
            then elapse (baseDelay * 2 ^ Z.of_nat i) w' else w' in
          retryLoop fn maxRetries baseDelay turns' (S i) (Some error) w'
      end
  end.

(** [retryWithBackoff(fn, maxRetries, baseDelay)]. *)
Definition retryWithBackoff {A} (fn : M A) (maxRetries : nat) (baseDelay : Z)
    (w : World) : World * Outcome A :=
  retryLoop fn maxRetries baseDelay maxRetries O None w.

End Helpers.

(* ================================================================== *)
(** * Notions the further properties are stated with *)
(* ================================================================== *)

Module Laws.
Import Js Fetcher Syncer Statements.

(** [fn] itself does not sleep. *)
Definition quiet {A} (fn : M A) : Prop :=
  ∀ w, sleeps (fn w).1 = sleeps w.


(** [msg] is an authorized execution that carries an array of messages. *)
Definition isExec (msg : JsVal) : bool :=
  strictEqStr (getOpt "@type" msg) MSG_EXEC && isArray (getOpt "msgs" msg).

(** [typeof v === 'string']. *)
Definition isText (v : JsVal) : bool :=
  match v with JStr _ => true | _ => false end.

(** The members of [Object.prototype] whose names are letters only.  A
    denomination of such a name finds an inherited member in the empty
    [denomMap]. *)
Definition inheritedNames : list string :=
  ["constructor"; "hasOwnProperty"; "isPrototypeOf"; "propertyIsEnumerable";
   "toLocaleString"; "toString"; "valueOf"].

(** A coin as its digits and its denomination, the denomination not one of
    [inheritedNames]. *)
Definition wellFormedCoin (c : string * string) : bool :=
  nonEmpty c.1 && allS isDigit c.1 && nonEmpty c.2 && allS isLetter c.2
  && negb (bool_decide (c.2 ∈ inheritedNames)).

Definition coinTextOf (c : string * string) : string := c.1 +:+ c.2.

(** The sum of the quantities of the coins of denomination [d]. *)
Definition totalOf (d : string) (coins : list (string * string)) : Z :=
  foldr (fun c acc => if String.eqb c.2 d then BigInt c.1 + acc else acc)
    0 coins.

(** The variables of a page loop that has stopped on its [n]th error. *)
Definition stoppedAfter (n : Z) (st : LoopState) : LoopState :=
  {| running := false; iterHeight := iterHeight st; page := page st;
     consecutiveErrors := n |}.

(** The variables of a page loop that is still running after [n] errors. *)
Definition runningAfter (n : Z) (st : LoopState) : LoopState :=
  {| running := true; iterHeight := iterHeight st; page := page st;
     consecutiveErrors := n |}.

(** The order of the pagination cursor: by height, then by page. *)
Definition cursorBefore (a b : LoopState) : Prop :=
  iterHeight a < iterHeight b
  ∨ (iterHeight a = iterHeight b ∧ page a < page b).

(** From [w] to [w'] the two transaction tables only gained records, each
    one a record of wallet [walletId] stored under its own hash. *)
Definition recordsAdded (walletId : Z) (w w' : World) : Prop :=
  (∀ k row, walletTransaction w !! k = Some row →
            walletTransaction w' !! k = Some row)
  ∧ (∀ k row, validatorTransaction w !! k = Some row →
              validatorTransaction w' !! k = Some row)
  ∧ (∀ k row, walletTransaction w' !! k = Some row →
              walletTransaction w !! k = None →
              k = (wtHash row, walletId) ∧ wtWalletId row = walletId)
  ∧ (∀ k row, validatorTransaction w' !! k = Some row →
              validatorTransaction w !! k = None →
              k = (vtHash row, walletId) ∧ vtWalletId row = walletId).

(** A step of the crawl of [walletId] that only adds such records. *)
Definition adds {A} (walletId : Z) (m : M A) : Prop :=
  ∀ w, recordsAdded walletId w (m w).1.

(** What a computation comes to: a value that satisfies [Q], or an
    exception that satisfies [E]. *)
Definition post {A} (Q : A → Prop) (E : JsError → Prop) (m : Result A)
  : Prop :=
  match m with
  | Ok a => Q a
  | Throw e => E e
  end.

Definition isTypeError (e : JsError) : Prop := e = TypeError.

(** No requirement on the value. *)
Definition anything {A} (_ : A) : Prop := True.

(** A parser result as [parse] hands it out: it has a type name, and its
    [height] and [hash] are still the initial ones. *)
Definition unfilled (r : TxParser.ParsedTx) : Prop :=
  TxParser.height r = 0 ∧ TxParser.hash r = EmptyString
  ∧ nonEmpty (TxParser.type r) = true.

(** [e] is not an axios error. *)
Definition notHttp (e : JsError) : Prop := isAxiosError e = false.

(** A step of the crawl that raises no axios error. *)
Definition raisesNoHttp {A} (m : M A) : Prop :=
  ∀ w e, (m w).2 = Throw e → notHttp e.

(** What saving records leaves alone. *)
Definition outside (w : World)
  : gmap Z Wallet * gmap string LockManager.LockInfo * Z
    * list Request * list Z :=
  (wallets w, locks w, clock w, requests w, sleeps w).

(** [s] has the shape the aggregation accepts: digits, then letters. *)
Definition isCoinText (a : option string) : bool :=
  match a with
  | Some s => match matchCoinExact s with Some _ => true | None => false end
  | None => false
  end.

(** The number of records in the two transaction tables. *)
Definition recordCount (w : World) : nat :=
  size (walletTransaction w) + size (validatorTransaction w).

(** From [w] to [w'] a step that reports [n] saved [n] records, and sent
    at most that many notifications, none at all to a wallet without a
    webhook. *)
Definition accounted (wallet : Wallet) (w w' : World) (n : nat) : Prop :=
  recordCount w' = (recordCount w + n)%nat
  ∧ ∃ new, sent w' = (new ++ sent w)%list
           ∧ (length new ≤ n)%nat
           ∧ (hasText (webhookUrl wallet) = false → new = []).

(** A step whose count is right whenever it returns. *)
Definition counts (wallet : Wallet) (m : M nat) : Prop :=
  ∀ w, match (m w).2 with
       | Ok n => accounted wallet w (m w).1 n
       | Throw _ =>
           ∃ new, sent (m w).1 = (new ++ sent w)%list
                  ∧ (hasText (webhookUrl wallet) = false → new = [])
       end.

(** A lock table in which the key of wallet 1 is held until [until]. *)
Definition heldUntil (until : Z) : gmap string LockManager.LockInfo :=
  {[ lockKeyOf 1 := {| LockManager.acquired := 0;
                       LockManager.expiresAt := until;
                       LockManager.operation := "backfillWalletHistory" |} ]}.

(** [idleWorld] while another crawl of wallet 1 holds the lock. *)
Definition lockedWorld : World := setLocks (heldUntil 300000) idleWorld.


(** A backend that rejects every request with status 429. *)
Definition alwaysRateLimited : Backend :=
  fun _ _ => Rejected (HttpError (Some 429)).





(** What a turn of the page loop does once the fetch has returned the page
    [p], leaving the world [w1]: the counter is reset; an empty page ends
    the filter; a page that is saved moves the cursor on after a pause of
    200 ms; a page that fails to save is the first error of a new run, and
    not an HTTP error, so the loop sleeps 2 s and asks again. *)
Definition afterFetch `{Runtime} (walletId : Z) (wallet : Wallet)
    (st : LoopState) (p : Page) (w1 : World)
    (run : World * Result LoopState) : Prop :=
  match txs p with
  | [] => run = (w1, Ok (stop (setErrors 0 st)))
  | _ :: _ =>
      match savePage walletId wallet (txs p) w1 with
      | (w2, Ok _) =>
          run = (elapse 200 w2, Ok (advance (txs p) (setErrors 0 st)))
      | (w2, Throw error) =>
          isAxiosError error = false
          ∧ run = (elapse 2000 w2, Ok (setErrors 1 st))
      end
  end.

(** What a turn does with an error [error] that its fetch raised, leaving
    the world [w1]: the one counter goes up by one, whatever the class of
    the error, and is then compared with the threshold of the class.  A
    fetch raises no error of the class [Incompatible]: it answers such a
    failure with its second request. *)
Definition afterFetchError (error : JsError) (st : LoopState) (w1 : World)
    (run : World * Result LoopState) : Prop :=
  let n := consecutiveErrors st + 1 in
  match classOf error with
  | Unavailable =>
      run = (elapse 10000 w1,
             Ok {| running := if 3 <=? n then false else running st;
                   iterHeight := iterHeight st; page := page st;
                   consecutiveErrors := n |})
  | RateLimited => run = (elapse 5000 w1, Ok (setErrors n st))
  | Incompatible => False
  | Generic =>
      run = if 5 <=? n then (w1, Ok (stop (setErrors n st)))
            else (elapse 2000 w1, Ok (setErrors n st))
  end.


End Laws.

(* ================================================================== *)
(** * Reasoning about [Result] *)
(* ================================================================== *)

Module ResultFacts.
Import Js.

Lemma bind_Ok {A B} (m : Result A) (f : A → Result B) (b : B) :
  (m ≫= f) = Ok b → ∃ a, m = Ok a ∧ f a = Ok b.
Proof. destruct m as [a|e]; simpl; [eauto | discriminate]. Qed.

Lemma bind_Ok_l {A B} (m : Result A) (f : A → Result B) (a : A) :
  m = Ok a → (m ≫= f) = f a.
Proof. by intros ->. Qed.

Lemma bind_Throw_l {A B} (m : Result A) (f : A → Result B) (e : JsError) :
  m = Throw e → (m ≫= f) = Throw e.
Proof. by intros ->. Qed.

(** Split a hypothesis [(x ← m; k) = Ok b] into the two steps. *)
Ltac bind_inv H :=
  let a := fresh "a" in
  let Ha := fresh "Hstep" in
  apply bind_Ok in H; destruct H as (a & Ha & H).

Lemma forEachFlow_Return {A S R} (body : A → S → Result (Flow S R))
    (P : R → Prop) :
  (∀ x s r, body x s = Ok (Return r) → P r) →
  ∀ xs s r, forEachFlow body xs s = Ok (Return r) → P r.
Proof.
  intros Hbody xs. induction xs as [|x xs IH]; intros s r H; simpl in H.
  - discriminate.
  - bind_inv H. destruct a as [s'|r'].
    + eauto.
    + inversion H; subst. eauto.
Qed.

End ResultFacts.

(* ================================================================== *)
(** * Properties of the message interpreter *)
(* ================================================================== *)

Module ParserProps.
Import Js TxParser ResultFacts Statements.

(** A value the events resolver returns is never the fee collector's. *)
Lemma recipientCandidate_not_fee evType attrKey ev v :
  recipientCandidate evType attrKey ev = Ok (Return v) →
  truthy v = true ∧ jsIncludes FEE_COLLECTOR v = Ok false.
Proof.
  unfold recipientCandidate. intros H.
  bind_inv H. destruct a; [|discriminate].
  bind_inv H.
  destruct (truthy (getOpt "value" a)) eqn:Ht; [|discriminate].
  bind_inv H. destruct a0; [discriminate|].
  inversion H; subst. auto.
Qed.

Lemma recipientFromEvent_not_fee ev u v :
  recipientFromEvent ev u = Ok (Return v) →
  truthy v = true ∧ jsIncludes FEE_COLLECTOR v = Ok false.
Proof.
  unfold recipientFromEvent. intros H. bind_inv H.
  destruct a as [[]|r].
  - eauto using recipientCandidate_not_fee.
  - inversion H; subst. eauto using recipientCandidate_not_fee.
Qed.

Lemma extractRecipientFromEvents_not_fee events v :
  extractRecipientFromEvents events = Ok v →
  v = JNull ∨ (truthy v = true ∧ jsIncludes FEE_COLLECTOR v = Ok false).
Proof.
  unfold extractRecipientFromEvents. intros H.
  destruct events as [| | | | |evs|]; try (injection H as <-; by left).
  bind_inv H. destruct a as [[]|r]; injection H as <-; [by left|].
  right.
  apply (forEachFlow_Return recipientFromEvent
           (fun v => truthy v = true ∧ jsIncludes FEE_COLLECTOR v = Ok false)
           recipientFromEvent_not_fee _ _ _ Hstep).
Qed.

(** The accessors of a sample envelope. *)
Lemma envelope_truthy h ht ms ev lg : truthy (Sample.envelope h ht ms ev lg) = true.
Proof. reflexivity. Qed.

Lemma envelope_messages h ht ms ev lg :
  getOpt "messages" (getOpt "body" (getOpt "tx" (Sample.envelope h ht ms ev lg))) = JArr ms.
Proof. reflexivity. Qed.

Lemma envelope_tx_truthy h ht ms ev lg : truthy (getOpt "tx" (Sample.envelope h ht ms ev lg)) = true.
Proof. reflexivity. Qed.

Lemma envelope_events h ht ms ev lg : getProp "events" (Sample.envelope h ht ms ev lg) = Ok ev.
Proof. reflexivity. Qed.
Lemma envelope_logs h ht ms ev lg : getProp "logs" (Sample.envelope h ht ms ev lg) = Ok lg.
Proof. reflexivity. Qed.

Lemma parse_single `{Runtime} h ht msg events logs ty :
  truthy msg = true → getOpt "@type" msg = JStr ty → nonEmpty ty = true →
  let env := Sample.envelope h ht [msg] events logs in
  parse env =
    (r ← extractByPattern msg
           (emptyResult (if nonEmpty (lastSegment ty) then lastSegment ty else "Tx"));
     r ← (if includes "Withdraw" (type r) then enhanceWithdrawData env r else Ok r);
     logFallbacks env r).
Proof.
  intros Hm Hty Hne env. subst env. unfold parse. cbv zeta.
  rewrite envelope_truthy, envelope_tx_truthy, !envelope_messages.
  cbn [truthy negb orb].
  change (gtOne (jsLength (JArr [msg]))) with false. cbv iota.
  change (index 0 (JArr [msg])) with msg. rewrite Hm, Hty. cbn [negb truthy]. rewrite Hne.
  cbn [asString mbind result_bind]. reflexivity.
Qed.

Lemma vote_body `{Runtime} pid opt voter :
  truthy pid = true →
  ∃ r, extractByPattern (Sample.vote pid opt voter) (emptyResult "MsgVote")
       = Ok r
       ∧ type r = "MsgVote" ∧ recipient r = JUndef
       ∧ amount r =
           if truthy opt
           then JStr ("Prop #" +:+ toStr pid +:+ ": " +:+ parseVoteOption opt)
           else JNull.
Proof.
  intros Hpid. unfold extractByPattern, Sample.vote.
  cbn -[parseVoteOption toStr]. rewrite Hpid.
  destruct (truthy opt); cbn -[parseVoteOption toStr]; eauto.
Qed.

(** C3.  The interpreter is meant to be total, and the top-level amount
    patterns are: an empty coin array leaves the amount unresolved.  The
    branch for authorized executions reads the first coin of the inner
    message without that test, so on an inner message whose [amount] is an
    empty array [parse] raises a [TypeError]. *)
Theorem parse_raises_on_empty_inner_amount :
  ∀ rt : Runtime,
    parse Sample.execOfEmptySend = Throw TypeError
    ∧ (amount <$> parse Sample.emptySend) = Ok JNull.
Proof. intros rt. split; reflexivity. Qed.

(** C4.  The amount derived from the event log is meant to be the sum of
    the quantities of one denomination over every coin listed.  On the
    logs, [extractAmountFromLogs] visits every coin but adds quantities of
    different denominations into one total, labelled with the first
    denomination; on the events, [enhanceWithdrawData] reads only the first
    coin of an amount attribute, and it too adds across denominations.  The
    sibling [aggregateAmounts] of the orchestrator keeps one total per
    denomination. *)
Theorem withdraw_amount_mixes_denominations_and_skips_coins :
  ∀ rt : Runtime,
    extractAmountFromLogs Sample.mixedDenomLogs = Ok (JStr "150uatom")
    ∧ (amount <$> parse Sample.twoCoinReward) = Ok (JStr "100uatom")
    ∧ (amount <$> parse Sample.twoDenomRewards) = Ok (JStr "150uatom")
    ∧ Syncer.aggregateAmounts [Some "100uatom"; Some "50uosmo"]
      = Some "100uatom, 50uosmo".
Proof. intros rt. repeat split; reflexivity. Qed.

(** C6.  The fee collector must never be reported as the recipient.  The
    events resolver skips it and goes on scanning
    ([extractRecipientFromEvents_not_fee]); the logs resolver, which [parse]
    falls back to when the events give nothing, has no such test and
    returns it. *)
Theorem logs_resolver_returns_fee_collector :
  ∀ rt : Runtime,
    (recipient <$> parse Sample.voteWithFeeTransfer)
    = Ok (JStr Sample.feeCollector)
    ∧ jsIncludes FEE_COLLECTOR (JStr Sample.feeCollector) = Ok true
    ∧ (recipient <$> parse Sample.voteWithFeeEvent) = Ok JNull.
Proof. intros rt. repeat split; reflexivity. Qed.

Lemma vote_amount `{Runtime} (txhash height voter : string)
    (pid opt events logs fromLogs fromEvents recipientInLogs : JsVal) :
  truthy pid = true →
  extractAmountFromLogs logs = Ok fromLogs →
  extractRecipientFromEvents events = Ok fromEvents →
  extractRecipientFromLogs logs = Ok recipientInLogs →
  (amount <$> parse (Sample.envelope txhash height
                       [Sample.vote pid opt voter] events logs))
  = Ok (if truthy opt
        then JStr ("Prop #" +:+ toStr pid +:+ ": " +:+ parseVoteOption opt)
        else fromLogs).
Proof.
  intros Hpid Ha Hre Hrl.
  rewrite (parse_single _ _ _ _ _ "/cosmos.gov.v1beta1.MsgVote") by done.
  change (lastSegment "/cosmos.gov.v1beta1.MsgVote") with "MsgVote".
  cbn [nonEmpty].
  destruct (vote_body pid opt voter Hpid) as (r & -> & Hty & Hrcp & Ham).
  destruct r as [ty am se rc de va dv hh hs]; simpl in Hty, Hrcp, Ham; subst.
  cbn [mbind result_bind type].
  change (includes "Withdraw" "MsgVote") with false. cbv iota.
  cbn [mbind result_bind]. unfold logFallbacks.
  rewrite envelope_logs, envelope_events.
  assert (Hfb : ∃ v, orElse fromEvents (extractRecipientFromLogs logs) = Ok v).
  { unfold orElse. destruct (truthy fromEvents); eauto. }
  destruct Hfb as (v & Hv).
  destruct (truthy opt).
  - change (truthy (amount ?r)) with true. cbv iota.
    cbn [truthy mbind result_bind recipient]. rewrite Hre.
    cbn [mbind result_bind]. rewrite Hv. reflexivity.
  - cbn [truthy mbind result_bind recipient setAmount amount]. rewrite Ha.
    cbn [truthy mbind result_bind recipient setAmount amount]. rewrite Hre.
    cbn [mbind result_bind]. rewrite Hv. reflexivity.
Qed.

(** C10.  A single vote message carrying a proposal id gets the amount
    ["Prop #<id>: <OPTION>"] only when its [option] is truthy.  With a
    falsy option, [0] or [""] among them, the amount stays unresolved
    after the message body has been read and is whatever the event log
    gives ([null] when it gives nothing), although [0] is the index of
    [EMPTY].  With a truthy option the amount is the synthesized string,
    for a proposal id and an option that are [plain], the values that the
    template literal and [Number] convert without raising. *)
Theorem vote_amount_needs_truthy_option :
  ∀ (rt : Runtime) (txhash height voter : string)
    (pid opt events logs fromLogs fromEvents recipientInLogs : JsVal),
    truthy pid = true →
    extractAmountFromLogs logs = Ok fromLogs →
    extractRecipientFromEvents events = Ok fromEvents →
    extractRecipientFromLogs logs = Ok recipientInLogs →
    let found :=
      amount <$> parse (Sample.envelope txhash height
                          [Sample.vote pid opt voter] events logs) in
    (truthy opt = false → found = Ok fromLogs)
    ∧ (truthy opt = true → plain pid = true → plain opt = true →
       found = Ok (JStr ("Prop #" +:+ toStr pid +:+ ": "
                         +:+ parseVoteOption opt)))
    ∧ truthy (JNum 0) = false
    ∧ truthy (JStr "") = false
    ∧ parseVoteOption (JNum 0) = "EMPTY".
Proof.
  intros rt txhash height voter pid opt events logs fromLogs fromEvents
    recipientInLogs Hpid Ha Hre Hrl found. subst found.
  rewrite (vote_amount txhash height voter pid opt events logs fromLogs
             fromEvents recipientInLogs Hpid Ha Hre Hrl).
  split; [by intros ->|]. split; [by intros -> _ _|]. by repeat split.
Qed.

Lemma vote_amount_needs_truthy_option_witness :
  (amount <$> @parse Sample.runtime
                (Sample.envelope "V0" "7"
                   [Sample.vote (JStr "42") (JNum 0) "cosmos1voter"]
                   (JArr []) (JArr [])))
  = Ok JNull
  ∧ (amount <$> @parse Sample.runtime
                  (Sample.envelope "V1" "7"
                     [Sample.vote (JStr "42") (JNum 1) "cosmos1voter"]
                     (JArr []) (JArr [])))
    = Ok (JStr "Prop #42: YES").
Proof.
  split.
  - apply (vote_amount_needs_truthy_option Sample.runtime "V0" "7"
             "cosmos1voter" (JStr "42") (JNum 0) (JArr []) (JArr [])
             JNull JNull JNull); reflexivity.
  - apply (vote_amount_needs_truthy_option Sample.runtime "V1" "7"
             "cosmos1voter" (JStr "42") (JNum 1) (JArr []) (JArr [])
             JNull JNull JNull); reflexivity.
Defined.


















End ParserProps.

(* ================================================================== *)
(** * Properties of the indexer query client *)
(* ================================================================== *)

Module FetcherProps.
Import Js Fetcher Statements.


End FetcherProps.

(* ================================================================== *)
(** * Properties of the crawl orchestrator *)
(* ================================================================== *)

Module SyncerProps.
Import Js Fetcher Syncer Statements ResultFacts.

(** C7, as stated, fails twice.  Rate-limit responses do count: after two
    429 responses a single 502 response aborts the filter, because the one
    counter that the gateway threshold is compared with was incremented by
    the 429s too.  And a 400 response does not abort the filter without a
    retry: the request is made again in the events dialect, and the page
    that this returns is saved. *)
Lemma rate_limits_count_and_a_bad_request_is_retried :
  (let run := @pageLoop Sample.runtime 10
                (scripted [HttpError (Some 429); HttpError (Some 429);
                           HttpError (Some 502)])
                1 someWallet "message.sender='cosmos1a'" freshLoop emptyWorld in
   run.2 = Ok {| running := false; iterHeight := 0; page := 1;
                 consecutiveErrors := 3 |}
   ∧ length (requests run.1) = 3%nat
   ∧ sleeps run.1 = [10000; 5000; 5000])
  ∧ (let run := @pageLoop Sample.runtime 10 legacyRefused 1 idleWallet
                  "message.sender='cosmos1a'" freshLoop idleWorld in
     run.2 = Ok {| running := false; iterHeight := 120; page := 1;
                   consecutiveErrors := 0 |}
     ∧ requests run.1
       = [eventsRequest "https://rest.example" "message.sender='cosmos1a'" 0 1;
          legacyRequest "https://rest.example" "message.sender='cosmos1a'" 0 1]
     ∧ size (walletTransaction run.1) = 1%nat
     ∧ sleeps run.1 = [200]).
Proof. vm_compute. repeat split. Qed.

Lemma statusIn_classOf (e : JsError) :
  match classOf e with
  | Unavailable => statusIn e [502; 503; 504] = true
  | RateLimited =>
      statusIn e [502; 503; 504] = false ∧ statusIn e [429] = true
  | Incompatible =>
      statusIn e [502; 503; 504] = false ∧ statusIn e [429] = false
      ∧ statusIn e [400; 500; 501] = true
  | Generic =>
      statusIn e [502; 503; 504] = false ∧ statusIn e [429] = false
      ∧ statusIn e [400; 500; 501] = false
  end.
Proof.
  unfold classOf, statusIn.
  destruct e as [|[status|]|]; cbn [isAxiosError statusOf andb]; auto.
  destruct (Z.eqb_spec status 0) as [->|Hnz]; [by vm_compute|].
  cbn [negb andb].
  repeat case_bool_decide; set_unfold; try done; try lia; naive_solver lia.
Qed.

Lemma onError_spec (error : JsError) (st : LoopState) (w : World) :
  let n := consecutiveErrors st + 1 in
  ∃ st' w', onError error st w = (w', Ok st')
    ∧ consecutiveErrors st' = n
    ∧ iterHeight st' = iterHeight st ∧ page st' = page st
    ∧ match classOf error with
      | Unavailable =>
          sleeps w' = 10000 :: sleeps w
          ∧ running st' = (if 3 <=? n then false else running st)
      | RateLimited =>
          sleeps w' = 5000 :: sleeps w ∧ running st' = running st
      | Incompatible => w' = w ∧ running st' = false
      | Generic =>
          if 5 <=? n then w' = w ∧ running st' = false
          else sleeps w' = 2000 :: sleeps w ∧ running st' = running st
      end.
Proof.
  intros n. subst n. unfold onError.
  pose proof (statusIn_classOf error) as Hc.
  destruct (classOf error).
  - rewrite Hc. cbn.
    destruct (3 <=? consecutiveErrors st + 1); eauto 10.
  - destruct Hc as [-> ->]. cbn. eauto 10.
  - destruct Hc as (-> & -> & ->). cbn. eauto 10.
  - destruct Hc as (-> & -> & ->). cbn.
    destruct (5 <=? consecutiveErrors st + 1); cbn; eauto 10.
Qed.

Lemma lockKeyOf_inj : Inj (=) (=) lockKeyOf.
Proof.
  intros a b H. unfold lockKeyOf in H.
  apply (inj pretty). 
  change ("sync:wallet:" +:+ pretty a) with (String "s" (String "y" (String "n" (String "c" (String ":" (String "w" (String "a" (String "l" (String "l" (String "e" (String "t" (String ":" (pretty a))))))))))))) in H.
  change ("sync:wallet:" +:+ pretty b) with (String "s" (String "y" (String "n" (String "c" (String ":" (String "w" (String "a" (String "l" (String "l" (String "e" (String "t" (String ":" (pretty b))))))))))))) in H.
  congruence.
Qed.


Lemma if_bool_decide_other {A} (P Q : Prop) `{Decision P, Decision Q}
    (x y : A) :
  (P ↔ Q) → (if bool_decide P then x else y) = if bool_decide Q then x else y.
Proof. intros HPQ. by rewrite (bool_decide_ext P Q). Qed.

Lemma setSyncing_idemp b (o : option Wallet) :
  setSyncing b <$> (setSyncing b <$> o) = setSyncing b <$> o.
Proof. by destruct o. Qed.

Lemma resetIfStuck_fold now l w :
  let res := fold_left (resetIfStuck now) l w in
  (∀ i, wallets res !! i =
        if bool_decide (i ∈ staleIds now l)
        then setSyncing false <$> wallets w !! i else wallets w !! i)
  ∧ (∀ i, locks res !! lockKeyOf i =
          if bool_decide (i ∈ staleIds now l)
          then None else locks w !! lockKeyOf i).
Proof.
  revert w. induction l as [|[j r] l IH]; intros w; [by split|].
  cbn [fold_left]. destruct (IH (resetIfStuck now w (j, r))) as [IHw IHl].
  unfold staleIds in *. cbn [List.filter]. unfold resetIfStuck in *.
  cbn [fst snd] in *.
  destruct (isStale now r); cbn [fmap list_fmap fst] in *; [|by split].
  split; intros i.
  - rewrite IHw. cbn [wallets setLocks setWallets].
    destruct (decide (i = j)) as [->|Hne].
    + rewrite lookup_alter_eq, setSyncing_idemp.
      rewrite (bool_decide_eq_true_2 (j ∈ j :: _)) by apply list_elem_of_here.
      by case_bool_decide.
    + rewrite lookup_alter_ne by done.
      apply if_bool_decide_other. rewrite elem_of_cons.
      split; [by right | intros [?|?]; [done|assumption]].
  - rewrite IHl. cbn [locks setLocks setWallets]. unfold LockManager.release.
    destruct (decide (i = j)) as [->|Hne].
    + rewrite lookup_delete_eq.
      rewrite (bool_decide_eq_true_2 (j ∈ j :: _)) by apply list_elem_of_here.
      by case_bool_decide.
    + rewrite lookup_delete_ne by (intros ?%lockKeyOf_inj; done).
      apply if_bool_decide_other. rewrite elem_of_cons.
      split; [by right | intros [?|?]; [done|assumption]].
Qed.

Lemma staleIds_syncing now (m : gmap Z Wallet) i row :
  m !! i = Some row →
  i ∈ staleIds now (List.filter (fun w => isSyncing w.2) (map_to_list m))
  ↔ isSyncing row && isStale now row = true.
Proof.
  intros Hrow. unfold staleIds. rewrite list_elem_of_fmap. split.
  - intros ([j r] & -> & Hin). cbn [fst] in *.
    apply list_elem_of_In, filter_In in Hin as [Hin Hs].
    apply filter_In in Hin as [Hin Hsync].
    apply list_elem_of_In, elem_of_map_to_list in Hin.
    cbn [snd] in *. rewrite Hrow in Hin. injection Hin as ->.
    by rewrite Hsync, Hs.
  - intros [Hsync Hs]%andb_true_iff. exists (i, row). split; [done|].
    apply list_elem_of_In, filter_In. split; [|done].
    apply filter_In. split; [|done].
    by apply list_elem_of_In, elem_of_map_to_list.
Qed.

(** C9.  The stuck detection of a periodic pass takes a missing heartbeat
    as infinitely old and a heartbeat as stale when it is more than ten
    minutes old.  A wallet that is syncing with a stale heartbeat has its
    flag forced to [false] (nothing else of the row changes) and its lock
    key released; every other wallet, and its lock key, is left as it
    was. *)
Theorem reaper_resets_exactly_the_stale :
  ∀ (world : World) (walletId : Z) (row : Wallet),
    wallets world !! walletId = Some row →
    let after := resetStuckWallets world in
    let key := lockKeyOf walletId in
    (isStale (clock world) row = true
     ↔ match lastSyncHeartbeat row with
       | Some heartbeat => clock world - heartbeat > 10 * 60 * 1000
       | None => True
       end)
    ∧ (if isSyncing row && isStale (clock world) row
       then (∃ row', wallets after !! walletId = Some row'
                     ∧ isSyncing row' = false
                     ∧ row' = {| label := label row; address := address row;
                                 valAddress := valAddress row;
                                 withdrawalAddress := withdrawalAddress row;
                                 isSyncing := false;
                                 lastSyncHeartbeat := lastSyncHeartbeat row;
                                 webhookUrl := webhookUrl row;
                                 notifyWalletTx := notifyWalletTx row;
                                 notifyValidatorTx := notifyValidatorTx row;
                                 chainRest := chainRest row |})
            ∧ locks after !! key = None
            ∧ LockManager.isLocked key (locks after) = false
       else wallets after !! walletId = Some row
            ∧ locks after !! key = locks world !! key).
Proof.
  intros world walletId row Hrow after key. split.
  - unfold isStale, heartbeatAge, STUCK_THRESHOLD_MS.
    destruct (lastSyncHeartbeat row) as [hb|]; [|done].
    rewrite Z.ltb_lt. lia.
  - subst after key. unfold resetStuckWallets.
    destruct (resetIfStuck_fold (clock world)
                (List.filter (fun w => isSyncing w.2)
                   (map_to_list (wallets world))) world) as [Hw Hl].
    unfold LockManager.isLocked. rewrite Hw, Hl, Hrow.
    pose proof (staleIds_syncing (clock world) (wallets world) walletId row
                  Hrow) as Hiff.
    destruct (isSyncing row && isStale (clock world) row).
    + rewrite bool_decide_eq_true_2 by (by apply Hiff).
      split; [by eexists|]. split; [done|].
      apply bool_decide_eq_false. by intros [? ?].
    + rewrite bool_decide_eq_false_2; [done|].
      intros Hin. by apply Hiff in Hin.
Qed.

Lemma reaper_resets_exactly_the_stale_witness :
  (isSyncing <$> wallets (resetStuckWallets reaperWorld) !! 1 = Some false
   ∧ LockManager.isLocked (lockKeyOf 1) (locks reaperWorld) = true
   ∧ LockManager.isLocked (lockKeyOf 1)
       (locks (resetStuckWallets reaperWorld)) = false)
  ∧ (wallets (resetStuckWallets reaperWorld) !! 2 = Some freshWallet
     ∧ isSyncing freshWallet = true
     ∧ locks (resetStuckWallets reaperWorld) !! lockKeyOf 2
       = Some (heldLock (18 * 60000))).
Proof.
  split.
  - pose proof (reaper_resets_exactly_the_stale reaperWorld 1 staleWallet
                  eq_refl) as [_ H].
    change (isSyncing staleWallet && isStale (clock reaperWorld) staleWallet)
      with true in H. cbv iota zeta in H.
    destruct H as ((row' & Hrow & Hflag & _) & _ & Hfree).
    rewrite Hrow. cbn [fmap option_fmap option_map]. rewrite Hflag.
    split; [done|]. split; [by vm_compute|exact Hfree].
  - pose proof (reaper_resets_exactly_the_stale reaperWorld 2 freshWallet
                  eq_refl) as [_ H].
    change (isSyncing freshWallet && isStale (clock reaperWorld) freshWallet)
      with false in H. cbv iota zeta in H.
    destruct H as [Hrow Hlock].
    split; [exact Hrow|]. split; [done|exact Hlock].
Defined.



Lemma bindM_unfold {A B} (m : M A) (f : A → M B) (w : World) :
  (m ≫= f) w =
  match m w with
  | (w', Ok a) => f a w'
  | (w', Throw e) => (w', Throw e)
  end.
Proof. reflexivity. Qed.

Lemma bindM_lift {A B} (r : Result A) (f : A → M B) (w : World) :
  (lift r ≫= f) w =
  match r with
  | Ok a => f a w
  | Throw e => (w, Throw e)
  end.
Proof. by destruct r. Qed.

Lemma bindM_gets {A B} (g : World → A) (f : A → M B) (w : World) :
  (gets g ≫= f) w = f (g w) w.
Proof. reflexivity. Qed.

Lemma bindM_modify {B} (g : World → World) (f : unit → M B) (w : World) :
  (modify g ≫= f) w = f () (g w).
Proof. reflexivity. Qed.

Lemma bindM_mret {A B} (a : A) (f : A → M B) (w : World) :
  (mret a ≫= f) w = f a w.
Proof. reflexivity. Qed.

Lemma mretM {A} (a : A) (w : World) : (mret a : M A) w = (w, Ok a).
Proof. reflexivity. Qed.



Lemma processTx_analysed `{Runtime} walletId wallet t w :
  processTx walletId wallet t w =
  match analysed t with
  | Throw e => (w, Throw e)
  | Ok None => (w, Ok O)
  | Ok (Some (txParserResult, parsed)) =>
      (savedWallet ←
         saveWalletRecord walletId wallet t (toNumber (getOpt "height" t))
           txParserResult
           (List.filter (fun m => isMyAction wallet m || isMyReceipt wallet m)
              parsed);
       savedValidator ←
         (if hasText (valAddress wallet) then
            saveValidatorRecord walletId wallet t
              (toNumber (getOpt "height" t)) txParserResult
              (List.filter (isRelatedToValidator wallet) parsed)
          else mret O);
       mret (savedWallet + savedValidator)%nat) w
  end.
Proof.
  unfold processTx, analysed. rewrite bindM_lift.
  destruct (getProp "txhash" t) as [txhash|e]; [|done].
  cbn [mbind result_bind].
  destruct (negb (truthy txhash) || negb (truthy (getOpt "height" t)));
    [done|].
  rewrite bindM_lift.
  destruct (extractAllMessages (messagesOf t)) as [allMessages|e]; [|done].
  cbn [mbind result_bind]. rewrite bindM_lift.
  destruct (TxParser.parse t) as [txParserResult|e]; [|done].
  cbn [mbind result_bind]. rewrite bindM_lift.
  by destruct (mapM_ parseMessage allMessages) as [parsed|e].
Qed.





(** *** The depth of the nesting is fuel enough for [extractAllMessages] *)

Lemma forEachM_ext {A S} (f g : A → S → Result S) xs s :
  (∀ x, x ∈ xs → ∀ s, f x s = g x s) →
  forEachM f xs s = forEachM g xs s.
Proof.
  revert s. induction xs as [|x xs IH]; intros s Hfg; [done|].
  cbn [forEachM]. rewrite Hfg by apply list_elem_of_here.
  destruct (g x s) as [s'|e]; [|done]. cbn [mbind result_bind].
  apply IH. intros y Hy. apply Hfg. by apply list_elem_of_further.
Qed.

Lemma list_max_cons n l : list_max (n :: l) = Nat.max n (list_max l).
Proof. reflexivity. Qed.

Lemma depth_item x xs : x ∈ xs → (depth x < depth (JArr xs))%nat.
Proof.
  intros Hin. cbn [depth]. apply Nat.lt_succ_r.
  induction Hin as [x xs|x y xs Hin IH]; cbn [map]; rewrite list_max_cons.
  - apply Nat.le_max_l.
  - etrans; [exact IH|apply Nat.le_max_r].
Qed.

Lemma depth_nested msg :
  isArray (getOpt "msgs" msg) = true →
  (depth (getOpt "msgs" msg) < depth msg)%nat.
Proof.
  destruct msg as [| | | | | |fs]; try discriminate. cbn [getOpt]. intros Harr.
  cbn [depth]. apply Nat.lt_succ_r.
  induction fs as [|[k' v] fs IH]; [discriminate|].
  cbn [assoc map snd] in *. rewrite list_max_cons.
  destruct (String.eqb "msgs" k'); [apply Nat.le_max_l|].
  etrans; [exact (IH Harr)|apply Nat.le_max_r].
Qed.

Lemma pushMessage_ext rec1 rec2 msg acc :
  (isArray (getOpt "msgs" msg) = true →
   rec1 (getOpt "msgs" msg) = rec2 (getOpt "msgs" msg)) →
  pushMessage rec1 msg acc = pushMessage rec2 msg acc.
Proof.
  intros Hrec. unfold pushMessage.
  destruct (getProp "@type" msg) as [ty|e]; [|done]. cbn [mbind result_bind].
  destruct (strictEqStr ty MSG_EXEC); [|done].
  destruct (isArray (getOpt "msgs" msg)); [|done].
  cbn [andb]. by rewrite Hrec.
Qed.

Lemma iterate_items messages items x :
  iterate messages = Ok items → x ∈ items →
  isArray (getOpt "msgs" x) = true →
  (depth x < depth messages)%nat.
Proof.
  destruct messages as [| | | |s|xs|]; try discriminate; intros [= <-] Hin Harr.
  - exfalso. induction s as [|c s IH]; cbn [charsOf] in Hin.
    + by apply elem_of_nil in Hin.
    + apply elem_of_cons in Hin as [->|Hin]; [discriminate|auto].
  - by apply depth_item.
Qed.

(** Fuel beyond the nesting depth changes nothing. *)
Lemma extractAllMessagesGo_fuel n :
  ∀ fuel1 fuel2 messages,
    (depth messages ≤ n)%nat → (n ≤ fuel1)%nat → (n ≤ fuel2)%nat →
    extractAllMessagesGo fuel1 messages = extractAllMessagesGo fuel2 messages.
Proof.
  induction n as [|n IH]; intros fuel1 fuel2 messages Hd H1 H2.
  - destruct fuel1, fuel2; cbn [extractAllMessagesGo];
      destruct (iterate messages) as [items|e] eqn:Hit; try done;
      cbn [mbind result_bind]; apply forEachM_ext; intros x Hx s;
      apply pushMessage_ext; intros Harr;
      pose proof (iterate_items _ _ _ Hit Hx Harr); lia.
  - destruct fuel1 as [|fuel1], fuel2 as [|fuel2]; try lia.
    cbn [extractAllMessagesGo].
    destruct (iterate messages) as [items|e] eqn:Hit; [|done].
    cbn [mbind result_bind]. apply forEachM_ext. intros x Hx s.
    apply pushMessage_ext. intros Harr.
    pose proof (iterate_items _ _ _ Hit Hx Harr).
    pose proof (depth_nested x Harr).
    apply IH; lia.
Qed.

Lemma extractAllMessages_fuel fuel messages :
  (depth messages ≤ fuel)%nat →
  extractAllMessagesGo fuel messages = extractAllMessages messages.
Proof.
  intros Hd. unfold extractAllMessages.
  by apply (extractAllMessagesGo_fuel (depth messages)).
Qed.

(** *** A crawl over data that is already indexed *)

Lemma sameStore_refl w : sameStore w w.
Proof. by repeat split. Qed.

Lemma sameStore_grows w w' : sameStore w w' → grows w w'.
Proof. intros (Hw & Hv & _). split; intros k; by rewrite ?Hw, ?Hv. Qed.

Lemma keepsStore_bind {A B} w (m : M A) (f : A → M B) :
  keepsStore w m → (∀ a, keepsStore w (f a)) → keepsStore w (m ≫= f).
Proof.
  intros Hm Hf w2 Hs. rewrite bindM_unfold. specialize (Hm w2 Hs).
  destruct (m w2) as [w3 [a|e]]; [by apply Hf|done].
Qed.

Lemma keepsStore_mret {A} w (a : A) : keepsStore w (mret a).
Proof. by intros w2 Hs. Qed.

Lemma keepsStore_modify w (f : World → World) :
  (∀ w2, sameStore w2 (f w2)) → keepsStore w (modify f).
Proof.
  intros Hf w2 (H1 & H2 & H3). destruct (Hf w2) as (H4 & H5 & H6).
  unfold modify. cbn [fst]. repeat split; congruence.
Qed.


Lemma keepsStore_attempt {A} w (m : M A) : keepsStore w m → keepsStore w (attempt m).
Proof. intros Hm w2 Hs. specialize (Hm w2 Hs). unfold attempt. by destruct (m w2). Qed.

Lemma keepsStore_sleep w ms : keepsStore w (sleep ms).
Proof. apply keepsStore_modify. by intros w2. Qed.

Lemma keepsStore_onError w error st : keepsStore w (onError error st).
Proof.
  unfold onError.
  repeat match goal with
         | |- keepsStore _ (if ?b then _ else _) => destruct b
         | |- keepsStore _ (_ ≫= _) => apply keepsStore_bind; [|intros ?]
         | |- keepsStore _ (sleep _) => apply keepsStore_sleep
         | |- keepsStore _ (mret _) => apply keepsStore_mret
         end.
Qed.

Lemma attempt_serves `{Runtime} backend req history history' p t :
  Fetcher.attempt backend req history = (history', Ok p) →
  t ∈ txs p → serves backend t.
Proof.
  unfold Fetcher.attempt. intros [= <- Hp] Hin.
  destruct (backend history req) as [data|e] eqn:Hb; [|done].
  by exists history, req, data, p.
Qed.

Lemma fetchIndexerMode_serves `{Runtime} backend restUrl queryEvent minHeight
    page history history' p t :
  fetchIndexerMode backend restUrl queryEvent minHeight page history
  = (history', Ok p) →
  t ∈ txs p → serves backend t.
Proof.
  unfold fetchIndexerMode.
  destruct (Fetcher.attempt backend _ history) as [h1 [p1|e1]] eqn:H1.
  - intros [= <- <-]. by eapply attempt_serves.
  - destruct (_ && _); [|done].
    destruct (Fetcher.attempt backend _ h1) as [h2 [p2|e2]] eqn:H2.
    + intros [= <- <-]. by eapply attempt_serves.
    + intros [= <- <-] Hin. by apply elem_of_nil in Hin.
Qed.

Lemma restore_same w :
  setValidatorTransaction (validatorTransaction w)
    (setWalletTransaction (walletTransaction w) w) = w.
Proof. by destruct w. Qed.

Lemma processTxs_inert `{Runtime} walletId wallet w txs w2 :
  (∀ t, t ∈ txs → inert walletId wallet w t) → grows w w2 →
  ∃ r, processTxs walletId wallet txs w2 = (w2, r).
Proof.
  intros Hin Hg. induction txs as [|t txs IH]; cbn [processTxs]; [by eexists|].
  rewrite bindM_unfold.
  destruct (Hin t (list_elem_of_here _ _) w2 Hg) as ([n|e] & ->); [|by eexists].
  rewrite bindM_unfold.
  destruct IH as ([m|e] & ->); [|by eexists|by eexists].
  intros t' Ht'. apply Hin. by apply list_elem_of_further.
Qed.

Lemma savePage_inert `{Runtime} walletId wallet w txs :
  (∀ t, t ∈ txs → inert walletId wallet w t) →
  keepsStore w (savePage walletId wallet txs).
Proof.
  intros Hin w2 Hs. unfold savePage, transaction.
  destruct (processTxs_inert walletId wallet w txs w2 Hin
              (sameStore_grows _ _ Hs)) as ([n|e] & ->); [done|].
  by rewrite restore_same.
Qed.

Section Crawl.
Context `{Runtime} (backend : Backend) (walletId : Z) (wallet : Wallet)
  (w : World).
Hypothesis Hinert : ∀ t, serves backend t → inert walletId wallet w t.

Lemma keepsStore_pageIteration queryEvent st :
  keepsStore w (pageIteration backend walletId wallet queryEvent st).
Proof.
  intros w2 Hs. unfold pageIteration. rewrite bindM_unfold.
  unfold attempt at 1, fetchPage.
  destruct (fetchIndexerMode _ _ _ _ _ _) as [history [p|e]] eqn:Hfetch.
  - assert (Hs1 : sameStore w (setRequests history w2)) by done.
    destruct (txs p) as [|t txs'] eqn:Htxs; [done|].
    rewrite <- Htxs.
    apply keepsStore_bind; [| |done].
    + apply keepsStore_attempt, savePage_inert.
      intros t' Ht'. apply Hinert. by eapply fetchIndexerMode_serves.
    + intros [n|error]; [|apply keepsStore_onError].
      apply keepsStore_bind; [apply keepsStore_sleep|].
      intros []. apply keepsStore_mret.
  - by apply keepsStore_onError.
Qed.

Lemma keepsStore_pageLoop fuel queryEvent st :
  keepsStore w (pageLoop fuel backend walletId wallet queryEvent st).
Proof.
  revert st. induction fuel as [|fuel IH]; intros st; cbn [pageLoop].
  - apply keepsStore_mret.
  - destruct (running st); [|apply keepsStore_mret].
    apply keepsStore_bind; [apply keepsStore_pageIteration|done].
Qed.

End Crawl.










(** C8.  A crawl that finds the flag already set must leave the account
    alone.  When the lock is free (it is force-released after five minutes,
    however long the crawl that took it runs), the second crawl gets as far
    as the atomic update, which changes no row; it then returns from inside
    the [try] block, so the [finally] block runs and clears the flag of the
    crawl that owns it.  Nothing is requested from the backend and no
    record is written. *)
Theorem denied_crawl_clears_the_flag :
  ∀ (rt : Runtime) (fuel : nat) (backend : Backend) (walletId : Z)
    (w : World) (row : Wallet),
    wallets w !! walletId = Some row →
    isSyncing row = true →
    locks w !! lockKeyOf walletId = None →
    let after := backfillWalletHistory fuel backend walletId w in
    wallets after !! walletId = Some (setSyncing false row)
    ∧ isSyncing (setSyncing false row) = false
    ∧ requests after = requests w
    ∧ walletTransaction after = walletTransaction w
    ∧ validatorTransaction after = validatorTransaction w.
Proof.
  intros rt fuel backend walletId w row Hrow Hsync Hfree after. subst after.
  unfold backfillWalletHistory.
  cbn [LockManager.acquireWithRetry]. unfold LockManager.acquire.
  rewrite Hfree. unfold finally, attempt, crawl.
  rewrite bindM_gets. cbn [wallets setClock setLocks]. rewrite Hrow.
  rewrite bindM_unfold. unfold claimSyncing. cbn [wallets setClock setLocks].
  rewrite Hrow, Hsync, mretM. cbn [fst]. unfold cleanup.
  cbn [wallets requests walletTransaction validatorTransaction setLocks
         setWallets setClock].
  by rewrite lookup_alter_eq, Hrow.
Qed.

Lemma denied_crawl_clears_the_flag_witness :
  let after := @backfillWalletHistory Sample.runtime 5 alwaysBadRequest 1
                 busyWorld in
  wallets after !! 1 = Some (setSyncing false someWallet)
  ∧ isSyncing (setSyncing false someWallet) = false
  ∧ requests after = requests busyWorld
  ∧ walletTransaction after = walletTransaction busyWorld
  ∧ validatorTransaction after = validatorTransaction busyWorld.
Proof.
  apply (denied_crawl_clears_the_flag Sample.runtime 5 alwaysBadRequest 1
           busyWorld someWallet); reflexivity.
Defined.

End SyncerProps.

(* ================================================================== *)
(** * Facts about strings *)
(* ================================================================== *)

Module StringFacts.
Import Js Fetcher.

Lemma append_cons c (a b : string) : String c a +:+ b = String c (a +:+ b).
Proof. reflexivity. Qed.

Lemma append_nil (b : string) : EmptyString +:+ b = b.
Proof. reflexivity. Qed.

Lemma prefix_append (p s : string) : String.prefix p (p +:+ s) = true.
Proof.
  induction p as [|c p IH].
  - rewrite append_nil. by destruct s.
  - rewrite append_cons. cbn [String.prefix].
    destruct (Ascii.ascii_dec c c); [exact IH|done].
Qed.

Lemma list_ascii_of_string_append (a b : string) :
  list_ascii_of_string (a +:+ b)
  = (list_ascii_of_string a ++ list_ascii_of_string b)%list.
Proof.
  induction a as [|c a IH]; [done|].
  rewrite append_cons. cbn [list_ascii_of_string]. by rewrite IH.
Qed.

Lemma string_of_list_ascii_append (a b : list ascii) :
  string_of_list_ascii (a ++ b)
  = string_of_list_ascii a +:+ string_of_list_ascii b.
Proof.
  induction a as [|c a IH]; [done|].
  cbn [app string_of_list_ascii]. by rewrite append_cons, IH.
Qed.

Lemma endsWithSlash_nonempty s : endsWithSlash s = true → s ≠ EmptyString.
Proof. by intros H ->. Qed.

Lemma endsWithSlash_append a b :
  b ≠ EmptyString → endsWithSlash (a +:+ b) = endsWithSlash b.
Proof.
  intros Hb. unfold endsWithSlash.
  rewrite list_ascii_of_string_append, rev_app_distr.
  destruct b as [|c b]; [done|]. cbn [list_ascii_of_string rev].
  destruct (rev (list_ascii_of_string b)) as [|x xs]; reflexivity.
Qed.

Lemma dropLast_append a b :
  b ≠ EmptyString → dropLast (a +:+ b) = a +:+ dropLast b.
Proof.
  intros Hb. unfold dropLast.
  rewrite list_ascii_of_string_append, removelast_app.
  - by rewrite string_of_list_ascii_append, string_of_list_ascii_of_string.
  - destruct b; [done|]. discriminate.
Qed.

Lemma dropLast_length s :
  s ≠ EmptyString → String.length s = S (String.length (dropLast s)).
Proof.
  intros Hs. unfold dropLast.
  rewrite <- (string_of_list_ascii_of_string s) at 1.
  generalize (list_ascii_of_string s) (fun H : list_ascii_of_string s = [] =>
    Hs (eq_trans (eq_sym (string_of_list_ascii_of_string s)) (f_equal string_of_list_ascii H))).
  intros l Hl. induction l as [|c [|c' l] IH]; [done|done|].
  cbn [string_of_list_ascii String.length removelast] in *.
  f_equal. apply IH. discriminate.
Qed.

End StringFacts.

(* ================================================================== *)
(** * Properties of the lock table *)
(* ================================================================== *)

Module LockProps.
Import LockManager.

Lemma isLocked_true key (locks : gmap string LockInfo) :
  isLocked key locks = true ↔ is_Some (locks !! key).
Proof. unfold isLocked. by rewrite bool_decide_eq_true. Qed.

Lemma fireTimers_lookup now key (locks : gmap string LockInfo) :
  fireTimers now locks !! key
  = match locks !! key with
    | Some info => if bool_decide (now < expiresAt info) then Some info else None
    | None => None
    end.
Proof.
  unfold fireTimers. rewrite map_lookup_filter.
  destruct (locks !! key) as [info|] eqn:E; simpl; [|done].
  case_bool_decide; [by rewrite option_guard_True | by rewrite option_guard_False].
Qed.

Lemma fireTimers_fireTimers t1 t2 (locks : gmap string LockInfo) :
  t1 ≤ t2 → fireTimers t2 (fireTimers t1 locks) = fireTimers t2 locks.
Proof.
  intros Hle. apply map_eq. intros k. rewrite !fireTimers_lookup.
  destruct (locks !! k) as [info|]; [|done].
  repeat case_bool_decide; try done; lia.
Qed.

(** X1. When acquire returns true the key was free before; afterwards the
    key is locked, every further acquire of the same key returns false and
    leaves the lock table as it is, no other key is touched, and release
    gives back the table from before the acquire. *)
Theorem acquire_is_exclusive :
  ∀ (key op : string) (timeoutMs now : Z) (locks locks' : gmap string LockInfo),
    acquire key timeoutMs op now locks = (true, locks') →
    isLocked key locks = false
    ∧ isLocked key locks' = true
    ∧ (∀ op' timeoutMs' now',
         acquire key timeoutMs' op' now' locks' = (false, locks'))
    ∧ (∀ other, other ≠ key → locks' !! other = locks !! other)
    ∧ release key locks' = locks.
Proof.
  intros key op timeoutMs now locks locks' H. unfold acquire in H.
  destruct (locks !! key) as [info|] eqn:E; [discriminate|].
  injection H as <-. repeat split.
  - unfold isLocked. rewrite E. apply bool_decide_eq_false. by intros [? ?].
  - apply isLocked_true. rewrite lookup_insert_eq. eauto.
  - intros op' timeoutMs' now'. unfold acquire. by rewrite lookup_insert_eq.
  - intros other Hne. by rewrite lookup_insert_ne.
  - unfold release. by rewrite delete_insert_id.
Qed.

Lemma acquire_is_exclusive_witness :
  let locks' := (acquire "sync:wallet:1" 300000 "crawl" 0 ∅).2 in
  isLocked "sync:wallet:1" locks' = true
  ∧ acquire "sync:wallet:1" 300000 "again" 7 locks' = (false, locks')
  ∧ release "sync:wallet:1" locks' = ∅.
Proof.
  destruct (acquire_is_exclusive "sync:wallet:1" "crawl" 300000 0 ∅
              (acquire "sync:wallet:1" 300000 "crawl" 0 ∅).2 ltac:(by vm_compute))
    as (_ & Hheld & Hbusy & _ & Hback).
  split; [exact Hheld|]. split; [apply Hbusy|exact Hback].
Defined.

Lemma timerDelay_positive d : 1 ≤ timerDelay d.
Proof.
  unfold timerDelay. destruct (1 <=? d) eqn:H1; cbn [andb]; [|lia].
  destruct (d <=? 2147483647); lia.
Qed.

Lemma timerDelay_in_range d : 1 ≤ d ≤ 2147483647 → timerDelay d = d.
Proof.
  intros [H1 H2]. unfold timerDelay.
  apply Z.leb_le in H1, H2. by rewrite H1, H2.
Qed.

Lemma timerDelay_out_of_range d : d < 1 ∨ 2147483647 < d → timerDelay d = 1.
Proof.
  intros H. unfold timerDelay.
  destruct (1 <=? d) eqn:H1; cbn [andb]; [|done].
  destruct (d <=? 2147483647) eqn:H2; [|done].
  apply Z.leb_le in H1, H2. lia.
Qed.

Lemma acquireWithRetry_free key op d m now (locks : gmap string LockInfo) :
  locks !! key = None →
  acquireWithRetry key op (S m) d now locks
  = (true,
     <[key := {| acquired := now; expiresAt := now + 300000;
                 operation := op |}]> locks,
     now).
Proof. intros E. cbn [acquireWithRetry]. unfold acquire. by rewrite E. Qed.

Lemma acquireWithRetry_last key op d info now (locks : gmap string LockInfo) :
  locks !! key = Some info →
  acquireWithRetry key op 1 d now locks = (false, locks, now).
Proof. intros E. cbn [acquireWithRetry]. unfold acquire. by rewrite E. Qed.

Lemma acquireWithRetry_again key op d info m now
    (locks : gmap string LockInfo) :
  locks !! key = Some info →
  acquireWithRetry key op (S (S m)) d now locks
  = acquireWithRetry key op (S m) d (now + timerDelay d)
      (fireTimers (now + timerDelay d) locks).
Proof.
  intros E. change (acquireWithRetry key op (S (S m)) d now locks)
    with (match acquire key 300000 op now locks with
          | (true, locks') => (true, locks', now)
          | (false, _) =>
              acquireWithRetry key op (S m) d (now + timerDelay d)
                (fireTimers (now + timerDelay d) locks)
          end).
  unfold acquire. by rewrite E.
Qed.

Lemma acquireWithRetry_held key op d info :
  ∀ (m : nat) (now : Z) (locks : gmap string LockInfo),
    locks !! key = Some info →
    let wait := timerDelay d in
    let r := acquireWithRetry key op (S m) d now locks in
    (r.1.1 = true ↔ (1 ≤ m)%nat ∧ expiresAt info ≤ now + Z.of_nat m * wait)
    ∧ (r.1.1 = false →
       r.2 = now + Z.of_nat m * wait ∧ r.1.2 !! key = Some info)
    ∧ (r.1.1 = true →
         r.1.2 !! key = Some {| acquired := r.2; expiresAt := r.2 + 300000;
                                operation := op |})
    ∧ now ≤ r.2 ≤ now + Z.of_nat m * wait.
Proof.
  pose proof (timerDelay_positive d) as Hd.
  intros m. induction m as [|m IH]; intros now locks Hheld; cbv zeta.
  - rewrite (acquireWithRetry_last _ _ _ info) by done. cbn.
    repeat split; try done; try lia; try (intros [? _]; lia).
  - rewrite (acquireWithRetry_again _ _ _ info) by done.
    set (wait := timerDelay d) in *. set (now' := now + wait).
    destruct (fireTimers now' locks !! key) as [info'|] eqn:E.
    + rewrite fireTimers_lookup, Hheld in E.
      case_bool_decide as Hlt; [|discriminate]. injection E as <-.
      specialize (IH now' (fireTimers now' locks)).
      rewrite fireTimers_lookup, Hheld, bool_decide_true in IH by done.
      specialize (IH eq_refl). cbv zeta in IH.
      destruct IH as (IH1 & IH2 & IH3 & IH4).
      split; [split; [intros Hok|intros [Hm Hexp]]
             | split; [intros Hf; split | split; [intros Hok | split]]].
      * apply IH1 in Hok. subst now'. nia.
      * apply IH1. subst now'. split; [|nia].
        destruct m; [|lia]. lia.
      * apply IH2 in Hf. destruct Hf as [-> _]. subst now'. nia.
      * apply IH2 in Hf. by destruct Hf as [_ ->].
      * by apply IH3.
      * subst now'. nia.
      * subst now'. nia.
    + assert (Hexp : expiresAt info ≤ now').
      { rewrite fireTimers_lookup, Hheld in E.
        case_bool_decide; [discriminate|lia]. }
      rewrite acquireWithRetry_free by done. cbn.
      split; [split; [intros _|done]
             | split; [done | split; [intros _ | split]]].
      * subst now'. nia.
      * by rewrite lookup_insert_eq.
      * subst now'. nia.
      * subst now'. nia.
Qed.

(** X3. acquireWithRetry with m+1 attempts waits between two attempts on a
    timer armed with the delay d, which Node runs for d ms when 1 <= d <=
    2^31-1 and for 1 ms otherwise. It takes a free key at once. A key held
    by someone who does not release it is obtained exactly when m >= 1 and
    the holder's timeout falls within the m waits; on failure the call has
    waited exactly m times (no wait after the last attempt) and the holder's
    lock is untouched, on success the new lock is dated at the time of the
    successful attempt and expires 300000 ms later. *)
Theorem acquireWithRetry_waits_for_the_timer :
  ∀ (key op : string) (m : nat) (d now : Z) (locks : gmap string LockInfo),
    let wait := timerDelay d in
    let r := acquireWithRetry key op (S m) d now locks in
    (1 ≤ d ≤ 2147483647 → wait = d)
    ∧ (d < 1 ∨ 2147483647 < d → wait = 1)
    ∧ match locks !! key with
      | None =>
          r = (true,
               <[key := {| acquired := now; expiresAt := now + 300000;
                           operation := op |}]> locks,
               now)
      | Some info =>
          (r.1.1 = true
           ↔ (1 ≤ m)%nat ∧ expiresAt info ≤ now + Z.of_nat m * wait)
          ∧ (r.1.1 = false →
               r.2 = now + Z.of_nat m * wait ∧ r.1.2 !! key = Some info)
          ∧ (r.1.1 = true →
               r.1.2 !! key
               = Some {| acquired := r.2; expiresAt := r.2 + 300000;
                         operation := op |})
          ∧ now ≤ r.2 ≤ now + Z.of_nat m * wait
      end.
Proof.
  intros key op m d now locks wait r.
  split; [apply timerDelay_in_range|].
  split; [apply timerDelay_out_of_range|].
  destruct (locks !! key) as [info|] eqn:E.
  - by apply acquireWithRetry_held.
  - subst r. by apply acquireWithRetry_free.
Qed.


Lemma waitForReleaseGo_free polls key maxWaitMs start now
    (locks : gmap string LockInfo) :
  locks !! key = None →
  waitForReleaseGo polls key maxWaitMs start now locks = (true, locks, now).
Proof.
  intros E. destruct polls; cbn [waitForReleaseGo]; unfold isLocked;
    rewrite E, bool_decide_false; try done; by intros [? ?].
Qed.

Lemma waitForReleaseGo_held key maxWaitMs start info :
  0 ≤ maxWaitMs →
  let last := maxWaitMs / 500 + 1 in
  ∀ (polls : nat) (j : Z) (locks : gmap string LockInfo),
    locks !! key = Some info →
    0 ≤ j ≤ last →
    (Z.to_nat (last - j) < polls)%nat →
    (1 ≤ j → start + 500 * j < expiresAt info) →
    let r := waitForReleaseGo polls key maxWaitMs start (start + 500 * j)
               locks in
    (r.1.1 = true ↔ expiresAt info ≤ start + 500 * last)
    ∧ (r.1.1 = false → r.2 = start + 500 * last ∧ r.1.2 !! key = Some info)
    ∧ (r.1.1 = true → r.1.2 !! key = None ∧ start + 500 * j < r.2)
    ∧ r.2 ≤ start + 500 * last.
Proof.
  intros Hmax last polls.
  assert (Hdiv : 500 * (maxWaitMs / 500) ≤ maxWaitMs < 500 * (maxWaitMs / 500) + 500).
  { pose proof (Z.mul_div_le maxWaitMs 500 ltac:(lia)).
    pose proof (Z.mul_succ_div_gt maxWaitMs 500 ltac:(lia)). lia. }
  induction polls as [|polls IH]; intros j locks Hheld Hj Hfuel Hlive; [lia|].
  cbv zeta.
  change (waitForReleaseGo (S polls) key maxWaitMs start (start + 500 * j) locks)
    with (if isLocked key locks then
            if maxWaitMs <? start + 500 * j - start
            then (false, locks, start + 500 * j)
            else waitForReleaseGo polls key maxWaitMs start
                   (start + 500 * j + 500)
                   (fireTimers (start + 500 * j + 500) locks)
          else (true, locks, start + 500 * j)).
  assert (Hl : isLocked key locks = true) by (apply isLocked_true; eauto).
  rewrite Hl.
  destruct (Z.ltb_spec maxWaitMs (start + 500 * j - start)) as [Hover|Hin].
  - assert (j = last) as -> by (subst last; nia).
    cbn. split; [split; [done|]|split; [done|split; [done|lia]]].
    intros Hexp. assert (1 ≤ last) by (subst last; nia). specialize (Hlive H). lia.
  - assert (Hjlt : j < last) by (subst last; nia).
    replace (start + 500 * j + 500) with (start + 500 * (j + 1)) by lia.
    destruct (fireTimers (start + 500 * (j + 1)) locks !! key) as [info'|] eqn:E.
    + rewrite fireTimers_lookup, Hheld in E.
      case_bool_decide as Hlt; [|discriminate]. injection E as <-.
      specialize (IH (j + 1) (fireTimers (start + 500 * (j + 1)) locks)).
      rewrite fireTimers_lookup, Hheld, bool_decide_true in IH by done.
      specialize (IH eq_refl ltac:(lia) ltac:(lia) ltac:(intros _; lia)).
      cbv zeta in IH. destruct IH as (IH1 & IH2 & IH3 & IH4).
      split; [done|]. split; [done|]. split; [|done].
      intros Hok. destruct (IH3 Hok). split; [done|lia].
    + assert (Hexp : expiresAt info ≤ start + 500 * (j + 1)).
      { rewrite fireTimers_lookup, Hheld in E.
        case_bool_decide; [discriminate|lia]. }
      rewrite waitForReleaseGo_free by done. cbn.
      split; [split; [intros _; nia|done]|split; [done|split; [|nia]]].
      intros _. split; [done|lia].
Qed.

(** X4. waitForRelease(key, maxWaitMs) with maxWaitMs >= 0 returns true at
    once for a free key. For a key whose holder only loses it by timeout it
    polls every 500 ms and returns true exactly when the lock expires within
    500*(floor(maxWaitMs/500)+1) ms, a budget strictly larger than
    maxWaitMs; otherwise it returns false after exactly that time, the lock
    still held. *)
Theorem waitForRelease_spec :
  ∀ (key : string) (maxWaitMs now : Z) (locks : gmap string LockInfo),
    0 ≤ maxWaitMs →
    let budget := 500 * (maxWaitMs / 500 + 1) in
    let r := waitForRelease key maxWaitMs now locks in
    match locks !! key with
    | None => r = (true, locks, now)
    | Some info =>
        maxWaitMs < budget
        ∧ (r.1.1 = true ↔ expiresAt info ≤ now + budget)
        ∧ (r.1.1 = true → now < r.2 ≤ now + budget)
        ∧ (r.1.1 = false → r.2 = now + budget ∧ r.1.2 !! key = Some info)
    end.
Proof.
  intros key maxWaitMs now locks Hmax budget r.
  destruct (locks !! key) as [info|] eqn:E.
  - pose proof (waitForReleaseGo_held key maxWaitMs now info Hmax
                  (Z.to_nat (maxWaitMs / 500) + 2) 0 locks E) as H.
    cbv zeta in H.
    assert (0 ≤ maxWaitMs / 500) by (apply Z.div_pos; lia).
    specialize (H ltac:(lia) ltac:(lia) ltac:(lia)).
    replace (now + 500 * 0) with now in H by lia.
    fold (waitForRelease key maxWaitMs now locks) in H. fold r in H.
    destruct H as (H1 & H2 & H3 & H4). subst budget.
    pose proof (Z.mul_succ_div_gt maxWaitMs 500 ltac:(lia)).
    split; [lia|]. split; [done|]. split; [|done].
    intros Hok. split; [|lia]. destruct (H3 Hok). lia.
  - subst r. unfold waitForRelease. by apply waitForReleaseGo_free.
Qed.

Lemma waitForRelease_spec_witness :
  (waitForRelease (Syncer.lockKeyOf 1) 1000 0 (Laws.heldUntil 1200)).1.1 = true.
Proof.
  pose proof (waitForRelease_spec (Syncer.lockKeyOf 1) 1000 0 (Laws.heldUntil 1200)
                ltac:(lia)) as H.
  cbv zeta in H.
  change (Laws.heldUntil 1200 !! Syncer.lockKeyOf 1)
    with (Some {| acquired := 0; expiresAt := 1200;
                  operation := "backfillWalletHistory" |}) in H.
  cbv iota in H. destruct H as (_ & [_ H] & _). apply H.
  cbn [expiresAt]. change (1000 / 500) with 2. lia.
Defined.

End LockProps.

(* ================================================================== *)
(** * Properties of retrying with backoff *)
(* ================================================================== *)

Module HelpersProps.
Import Js Syncer Helpers Laws.

Lemma retryLoop_S {A} (fn : M A) maxRetries baseDelay turns i lastError w :
  retryLoop fn maxRetries baseDelay (S turns) i lastError w
  = match fn w with
    | (w', Ok a) => (w', Returned a)
    | (w', Throw error) =>
        retryLoop fn maxRetries baseDelay turns (S i) (Some error)
          (if Z.of_nat i <? Z.of_nat maxRetries - 1
           then elapse (baseDelay * 2 ^ Z.of_nat i) w' else w')
    end.
Proof. reflexivity. Qed.






Lemma retryLoop_returned {A} (fn : M A) (maxRetries : nat) (baseDelay : Z) :
  ∀ (turns i : nat) (lastError : option JsError) (w w' : World) (a : A),
    retryLoop fn maxRetries baseDelay turns i lastError w = (w', Returned a) →
    ∃ w0, fn w0 = (w', Ok a).
Proof.
  induction turns as [|turns IH]; intros i lastError w w' a H.
  - discriminate.
  - rewrite retryLoop_S in H. destruct (fn w) as [w1 [a1|e]] eqn:E.
    + injection H as <- <-. by exists w.
    + by apply IH in H.
Qed.

Lemma retryLoop_sleeps {A} (fn : M A) (maxRetries : nat) (baseDelay : Z) :
  quiet fn →
  ∀ (turns i : nat) (lastError : option JsError) (w : World),
    (i + turns = maxRetries)%nat →
    (length (sleeps (retryLoop fn maxRetries baseDelay turns i lastError w).1)
     ≤ length (sleeps w) + (turns - 1))%nat.
Proof.
  intros Hquiet. induction turns as [|turns IH]; intros i lastError w Hi.
  - cbn. lia.
  - rewrite retryLoop_S. pose proof (Hquiet w) as Hq.
    destruct (fn w) as [w1 [a|e]] eqn:E; cbn in Hq.
    + cbn. rewrite Hq. lia.
    + destruct (Z.ltb_spec (Z.of_nat i) (Z.of_nat maxRetries - 1)).
      * etrans; [apply IH; lia|]. cbn [elapse sleeps length]. rewrite Hq. lia.
      * etrans; [apply IH; lia|]. rewrite Hq. lia.
Qed.

(** X6. A value retryWithBackoff returns is the value of a successful call
    of fn, and that call is the last thing that happened; when fn does not
    sleep itself at most maxRetries-1 sleeps are made; with maxRetries = 0
    fn is never called and the still unset lastError is thrown. *)
Theorem retryWithBackoff_returns_the_first_success :
  ∀ (A : Type) (fn : M A) (maxRetries : nat) (baseDelay : Z) (w : World),
    let r := retryWithBackoff fn maxRetries baseDelay w in
    (∀ a, r.2 = Returned a → ∃ w0, fn w0 = (r.1, Ok a))
    ∧ (quiet fn →
       (length (sleeps r.1) ≤ length (sleeps w) + (maxRetries - 1))%nat)
    ∧ (maxRetries = O → r = (w, Raised None)).
Proof.
  intros A fn maxRetries baseDelay w r. subst r. unfold retryWithBackoff.
  split; [|split].
  - intros a Ha.
    destruct (retryLoop fn maxRetries baseDelay maxRetries 0 None w)
      as [w' out] eqn:E.
    cbn in Ha. subst out. by eapply retryLoop_returned.
  - intros Hquiet. by apply retryLoop_sleeps.
  - by intros ->.
Qed.

End HelpersProps.

(* ================================================================== *)
(** * Further properties of the indexer query client *)
(* ================================================================== *)

Module FetcherLaws.
Import Js Fetcher Syncer ResultFacts StringFacts.

(** X7. For a URL that starts with neither http:// nor https://,
    normalizeRestUrl only prepends https:// and does not strip a trailing
    slash; if such a URL ends in a slash, the result still does, and
    normalizing the result again strips it, so the function is not
    idempotent on these URLs. *)
Theorem normalizeRestUrl_keeps_the_slash_of_a_bare_host :
  ∀ url : string,
    startsWith "http://" url = false →
    startsWith "https://" url = false →
    normalizeRestUrl url = "https://" +:+ url
    ∧ (endsWithSlash url = true →
       endsWithSlash (normalizeRestUrl url) = true
       ∧ normalizeRestUrl (normalizeRestUrl url) = "https://" +:+ dropLast url
       ∧ normalizeRestUrl (normalizeRestUrl url) ≠ normalizeRestUrl url).
Proof.
  intros url H1 H2.
  assert (Hn : normalizeRestUrl url = "https://" +:+ url).
  { unfold normalizeRestUrl. by rewrite H1, H2. }
  split; [exact Hn|]. intros Hslash.
  pose proof (endsWithSlash_nonempty _ Hslash) as Hne.
  assert (Hs : endsWithSlash ("https://" +:+ url) = true)
    by (by rewrite endsWithSlash_append).
  assert (Hnn : normalizeRestUrl ("https://" +:+ url)
                = "https://" +:+ dropLast url).
  { unfold normalizeRestUrl at 1. unfold startsWith.
    rewrite (prefix_append "https://" url), andb_false_r, Hs.
    by apply dropLast_append. }
  rewrite Hn. split; [exact Hs|]. split; [exact Hnn|].
  rewrite Hnn. intros Heq. apply (inj (String.append "https://")) in Heq.
  pose proof (dropLast_length url Hne) as Hlen. rewrite Heq in Hlen. lia.
Qed.

Lemma normalizeRestUrl_keeps_the_slash_of_a_bare_host_witness :
  normalizeRestUrl "api.example/" = "https://api.example/"
  ∧ normalizeRestUrl (normalizeRestUrl "api.example/") = "https://api.example".
Proof.
  destruct (normalizeRestUrl_keeps_the_slash_of_a_bare_host "api.example/"
              eq_refl eq_refl) as [H1 H2].
  split; [exact H1|]. destruct (H2 eq_refl) as (_ & H3 & _). exact H3.
Defined.


Lemma assoc_setField_eq k v fs : assoc k (setField k v fs) = v.
Proof.
  induction fs as [|[k' v'] fs IH]; cbn [setField assoc].
  - by rewrite String.eqb_refl.
  - destruct (String.eqb k k') eqn:E; cbn [assoc]; rewrite E; [done|exact IH].
Qed.

Lemma assoc_setField_ne k k0 v fs :
  k0 ≠ k → assoc k0 (setField k v fs) = assoc k0 fs.
Proof.
  intros Hne. induction fs as [|[k' v'] fs IH]; cbn [setField assoc].
  - by apply String.eqb_neq in Hne as ->.
  - destruct (String.eqb k k') eqn:E; cbn [assoc].
    + apply String.eqb_eq in E as <-. by apply String.eqb_neq in Hne as ->.
    + by rewrite IH.
Qed.

Lemma mergeFrom_lookup txs rs :
  ∀ i merged, mergeFrom txs i rs = Ok merged →
    length merged = length rs
    ∧ ∀ j r, rs !! j = Some r →
        ∃ m, merged !! j = Some m ∧ mergeOne txs r (i + j) = Ok m.
Proof.
  induction rs as [|r rs IH]; intros i merged H; cbn [mergeFrom] in H.
  - injection H as <-. split; [done|]. intros j r Hj. by destruct j.
  - bind_inv H. bind_inv H. injection H as <-.
    destruct (IH _ _ Hstep0) as [Hlen Hall]. split; [by cbn; rewrite Hlen|].
    intros [|j] r' Hj; cbn in Hj.
    + injection Hj as <-. exists a. by rewrite Nat.add_0_r.
    + destruct (Hall j r' Hj) as (m & Hm & Hone). exists m. split; [done|].
      by rewrite Nat.add_succ_r.
Qed.

Lemma mergeFrom_objects txs rs :
  (∀ r, r ∈ rs → ∃ fs, r = JObj fs) →
  ∀ i, ∃ merged, mergeFrom txs i rs = Ok merged.
Proof.
  induction rs as [|r rs IH]; intros Hobj i; cbn [mergeFrom]; [by eexists|].
  destruct (Hobj r) as [fs ->]; [apply list_elem_of_here|].
  destruct (IH (fun r Hr => Hobj r (list_elem_of_further _ _ _ Hr)) (S i))
    as [merged ->].
  unfold mergeOne. cbn [getProp mbind result_bind].
  destruct (truthy (assoc "tx" fs)); cbn; by eexists.
Qed.

(** X8. When data.tx_responses is an array of objects, mergeTxResponses
    returns one object per response in the same order; the i-th keeps every
    field of the i-th response other than tx, and its tx is the response's
    own tx if that is truthy, else data.txs[i] if that is truthy, else null.
    *)
Theorem mergeTxResponses_pairs_by_position :
  ∀ (fields : list (string * JsVal)) (responses : list JsVal),
    assoc "tx_responses" fields = JArr responses →
    (∀ r, r ∈ responses → ∃ fs, r = JObj fs) →
    let bodies := if truthy (assoc "txs" fields) then assoc "txs" fields
                  else JArr [] in
    ∃ merged,
      mergeTxResponses (JObj fields) = Ok merged
      ∧ length merged = length responses
      ∧ ∀ (i : nat) (fs : list (string * JsVal)),
          responses !! i = Some (JObj fs) →
          ∃ m, merged !! i = Some m
               ∧ getOpt "tx" m
                 = (if truthy (assoc "tx" fs) then assoc "tx" fs
                    else if truthy (index i bodies) then index i bodies
                         else JNull)
               ∧ ∀ k, k ≠ "tx" → getOpt k m = assoc k fs.
Proof.
  intros fields responses Hresp Hobj bodies.
  unfold mergeTxResponses. cbn [getProp getOpt mbind result_bind].
  rewrite Hresp. cbn [truthy]. fold bodies.
  destruct (mergeFrom_objects bodies responses Hobj 0%nat) as [merged Hm].
  exists merged. split; [exact Hm|].
  destruct (mergeFrom_lookup _ _ _ _ Hm) as [Hlen Hall].
  split; [exact Hlen|]. intros i fs Hi.
  destruct (Hall i _ Hi) as (m & Hmi & Hone). exists m. split; [exact Hmi|].
  unfold mergeOne in Hone. cbn [getProp mbind result_bind Nat.add] in Hone.
  destruct (truthy (assoc "tx" fs)) eqn:Ht.
  - injection Hone as <-. by cbn [getOpt].
  - injection Hone as <-. cbn [getOpt spread]. split.
    + by rewrite assoc_setField_eq.
    + intros k Hk. by rewrite assoc_setField_ne.
Qed.

Lemma mergeTxResponses_pairs_by_position_witness :
  ∃ merged,
    mergeTxResponses
      (JObj [("txs", JArr [JStr "body"]);
             ("tx_responses", JArr [JObj [("txhash", JStr "A")]])])
    = Ok merged
    ∧ length merged = 1%nat.
Proof.
  destruct (mergeTxResponses_pairs_by_position
              [("txs", JArr [JStr "body"]);
               ("tx_responses", JArr [JObj [("txhash", JStr "A")]])]
              [JObj [("txhash", JStr "A")]] eq_refl)
    as (merged & Hm & Hlen & _).
  - intros r Hr. apply list_elem_of_singleton in Hr as ->. eauto.
  - exists merged. split; [exact Hm|exact Hlen].
Defined.

(** X9. One fetch of a page sends at most two requests. An error it raises
    comes from the first (legacy) request alone and never is an HTTP error
    of status 400, 500 or 501, because these statuses start the fallback
    request, whose failure is swallowed; so the page loop's branch for the
    statuses 400/500/501 is never reached by a fetch error. *)
Theorem fetchPage_never_raises_bad_request :
  ∀ (rt : Runtime) (backend : Backend) (wallet : Wallet) (queryEvent : string)
    (st : LoopState) (w : World),
    let run := fetchPage backend wallet queryEvent st w in
    (length (requests run.1) ≤ length (requests w) + 2)%nat
    ∧ (∀ e, run.2 = Throw e →
         statusIn e [400; 500; 501] = false
         ∧ length (requests run.1) = S (length (requests w))).
Proof.
  intros rt backend wallet queryEvent st w run. subst run.
  unfold fetchPage, fetchIndexerMode, Fetcher.attempt.
  set (legacy := {| endpoint := _; params := paramsLegacy _ _ _ |}).
  destruct (match backend (requests w) legacy with
            | Resolved data => pageOf data
            | Rejected e => Throw e
            end) as [p|error] eqn:E; cbn [fst snd requests setRequests length].
  - split; [lia|]. intros e [=].
  - destruct (isAxiosError error
              && bool_decide (default 0 (statusOf error) ∈ [400; 500; 501]))
      eqn:Hfb.
    + set (events := {| endpoint := _; params := paramsEvents _ _ _ |}).
      destruct (match backend (legacy :: requests w) events with
                | Resolved data => pageOf data
                | Rejected e => Throw e
                end) as [p2|e2]; cbn [fst snd requests setRequests length];
        (split; [lia|intros e [=]]).
    + cbn [fst snd requests setRequests length]. split; [lia|].
      intros e [= <-]. split; [|done].
      unfold statusIn. destruct (isAxiosError error); [|done].
      cbn [andb] in *. destruct (statusOf error) as [s|]; [|done].
      change (default 0 (Some s)) with s in Hfb.
      rewrite Hfb. by rewrite andb_false_r.
Qed.

End FetcherLaws.

(* ================================================================== *)
(** * Properties of the message helpers *)
(* ================================================================== *)

Module MessageLaws.
Import Js Syncer ResultFacts SyncerProps Laws.

Lemma extractAllMessages_array ms :
  extractAllMessages (JArr ms)
  = forEachM (pushMessage extractAllMessages) ms [].
Proof.
  unfold extractAllMessages at 1.
  change (depth (JArr ms)) with (S (list_max (map depth ms))).
  cbn [extractAllMessagesGo iterate mbind result_bind].
  apply forEachM_ext. intros x Hx s. apply pushMessage_ext. intros Harr.
  apply extractAllMessages_fuel.
  pose proof (depth_nested x Harr). pose proof (depth_item x ms Hx) as Hd.
  cbn [depth] in Hd. lia.
Qed.

Lemma pushMessage_acc rec msg acc :
  pushMessage rec msg acc = (fun r => acc ++ r)%list <$> pushMessage rec msg [].
Proof.
  unfold pushMessage.
  destruct (getProp "@type" msg) as [ty|e]; [|done]. cbn [mbind result_bind].
  destruct (strictEqStr ty MSG_EXEC && isArray (getOpt "msgs" msg)).
  - destruct (rec (getOpt "msgs" msg)) as [nested|e]; [|done]. reflexivity.
  - reflexivity.
Qed.

Lemma forEachM_pushMessage_acc rec ms :
  ∀ acc, forEachM (pushMessage rec) ms acc
         = (fun r => acc ++ r)%list <$> forEachM (pushMessage rec) ms [].
Proof.
  induction ms as [|m ms IH]; intros acc; cbn [forEachM].
  - cbn. by rewrite app_nil_r.
  - rewrite (pushMessage_acc rec m acc).
    destruct (pushMessage rec m []) as [r|e]; [|done].
    cbn [fmap result_fmap mbind result_bind].
    rewrite (IH (acc ++ r)%list). cbn [app]. rewrite (IH r).
    destruct (forEachM (pushMessage rec) ms []) as [r2|e]; [|done].
    cbn. by rewrite app_assoc.
Qed.

Lemma forEachM_app {A S} (f : A → S → Result S) xs ys s :
  forEachM f (xs ++ ys) s = (s' ← forEachM f xs s; forEachM f ys s').
Proof.
  revert s. induction xs as [|x xs IH]; intros s; cbn [forEachM app]; [done|].
  destruct (f x s) as [s'|e]; [|done]. cbn [mbind result_bind]. apply IH.
Qed.

(** X10. extractAllMessages distributes over the concatenation of message
    arrays (an exception of either part propagates), and a single message
    that is not null or undefined yields itself followed, when it is a
    MsgExec with an array msgs, by the flattening of its inner messages:
    nested messages come out in pre-order. *)
Theorem extractAllMessages_flattens_in_preorder :
  ∀ (msg : JsVal) (before after : list JsVal),
    extractAllMessages (JArr (before ++ after))
    = (r1 ← extractAllMessages (JArr before);
       r2 ← extractAllMessages (JArr after);
       Ok (r1 ++ r2)%list)
    ∧ (isNullish msg = false →
       extractAllMessages (JArr [msg])
       = if isExec msg
         then nested ← extractAllMessages (getOpt "msgs" msg);
              Ok (msg :: nested)
         else Ok [msg]).
Proof.
  intros msg before after. split.
  - rewrite !extractAllMessages_array, forEachM_app.
    destruct (forEachM (pushMessage extractAllMessages) before []) as [r1|e];
      [|done].
    cbn [mbind result_bind]. rewrite forEachM_pushMessage_acc.
    by destruct (forEachM (pushMessage extractAllMessages) after []).
  - intros Hmsg. rewrite extractAllMessages_array. cbn [forEachM].
    unfold pushMessage, isExec.
    destruct msg as [| | | | | |fs]; try discriminate; try reflexivity.
    cbn [getProp getOpt mbind result_bind].
    destruct (strictEqStr (assoc "@type" fs) MSG_EXEC
              && isArray (assoc "msgs" fs)); [|done].
    by destruct (extractAllMessages (assoc "msgs" fs)).
Qed.

Lemma extractAllMessages_plain_list ms :
  (∀ m, m ∈ ms → isNullish m = false ∧ isExec m = false) →
  forEachM (pushMessage extractAllMessages) ms [] = Ok ms.
Proof.
  induction ms as [|m ms IH] using rev_ind; intros Hplain; [done|].
  rewrite forEachM_app, IH.
  2:{ intros m' Hm'. apply Hplain, elem_of_app. by left. }
  cbn [mbind result_bind forEachM].
  destruct (Hplain m) as [Hn He]. { apply elem_of_app. right. apply list_elem_of_here. }
  unfold pushMessage. unfold isExec in He.
  destruct m as [| | | | | |fs]; try discriminate; try reflexivity.
  cbn [getProp getOpt mbind result_bind] in *. by rewrite He.
Qed.

(** X11. On an array none of whose messages is null, undefined or a MsgExec
    with an array msgs, extractAllMessages returns the array unchanged. *)
Theorem extractAllMessages_keeps_plain_messages :
  ∀ ms : list JsVal,
    (∀ m, m ∈ ms → isNullish m = false ∧ isExec m = false) →
    extractAllMessages (JArr ms) = Ok ms.
Proof.
  intros ms Hplain. rewrite extractAllMessages_array.
  by apply extractAllMessages_plain_list.
Qed.

Lemma extractAllMessages_keeps_plain_messages_witness :
  extractAllMessages (JArr [Sample.send "cosmos1a" "cosmos1b" (JArr [])])
  = Ok [Sample.send "cosmos1a" "cosmos1b" (JArr [])].
Proof.
  apply extractAllMessages_keeps_plain_messages.
  intros m Hm. apply list_elem_of_singleton in Hm as ->.
  split; reflexivity.
Defined.


Lemma getProp_getOpt k msg :
  isNullish msg = false → getProp k msg = Ok (getOpt k msg).
Proof. by destruct msg. Qed.

Lemma parsePacket_type `{Runtime} data p :
  parsePacket data = Some p → type p = "IBCRecv".
Proof.
  unfold parsePacket. destruct (decodePacket data) as [decoded|]; [|done].
  destruct (isNullish decoded); [done|]. by intros [= <-].
Qed.

Lemma parseMessage_returns `{Runtime} (msg : JsVal) :
  let ty := getOpt "@type" msg in
  isOk (parseMessage msg)
  = negb (isNullish msg) && (negb (truthy ty) || isText ty)
  ∧ (∀ e, parseMessage msg = Throw e → e = TypeError)
  ∧ (∀ p, parseMessage msg = Ok p → nonEmpty (type p) = true).
Proof.
  intros ty. unfold parseMessage.
  destruct (isNullish msg) eqn:Hn.
  { destruct msg; try discriminate;
      (split; [done|split; [by intros e [= <-]|intros p [=]]]). }
  rewrite (getProp_getOpt _ _ Hn). fold ty. cbn [mbind result_bind negb andb].
  destruct (asString (if truthy ty then ty else JStr EmptyString))
    as [text|e] eqn:Htext.
  - cbn [mbind result_bind].
    set (last := lastSegment text).
    set (name := if nonEmpty last then last else "Unknown").
    assert (Hname : nonEmpty name = true)
      by (subst name; by destruct (nonEmpty last) eqn:E).
    destruct (if includes "RecvPacket" name && truthy (getOpt "packet" msg)
                 && truthy (getOpt "data" (getOpt "packet" msg))
              then parsePacket (getOpt "data" (getOpt "packet" msg))
              else None) as [parsed|] eqn:Hdec.
    + split; [|split; [intros e [=]|]].
      * cbn [isOk]. symmetry. destruct (truthy ty) eqn:Ht; [|done].
        by destruct ty.
      * intros p [= <-].
        destruct (includes "RecvPacket" name && truthy (getOpt "packet" msg)
                  && truthy (getOpt "data" (getOpt "packet" msg)));
          [|discriminate].
        by rewrite (parsePacket_type _ _ Hdec).
    + split; [|split; [intros e [=]|]].
      * cbn [isOk]. symmetry. destruct (truthy ty) eqn:Ht; [|done].
        by destruct ty.
      * by intros p [= <-].
  - cbn [mbind result_bind isOk]. split; [|split; [|intros p [=]]].
    + symmetry. destruct (truthy ty) eqn:Ht; [|discriminate].
      by destruct ty.
    + intros e' [= <-]. destruct (truthy ty); [|discriminate].
      destruct ty; cbn in Htext; congruence.
Qed.

(** X12. A message that is null or undefined, or whose @type is truthy and
    not a string, makes parseMessage raise. On a plain message (no object
    with an own toString property, every number a safe integer) these are
    the only cases: parseMessage returns exactly when the message is not
    null or undefined and its @type is falsy or a string. Whatever the
    message, parseMessage raises nothing but TypeErrors, and the type of a
    result it returns is never the empty string. *)
Theorem parseMessage_raises_only_on_a_bad_type :
  ∀ (rt : Runtime) (msg : JsVal),
    let ty := getOpt "@type" msg in
    (isNullish msg = true ∨ (truthy ty = true ∧ isText ty = false) →
     parseMessage msg = Throw TypeError)
    ∧ (plain msg = true →
       isOk (parseMessage msg)
       = negb (isNullish msg) && (negb (truthy ty) || isText ty))
    ∧ (∀ e, parseMessage msg = Throw e → e = TypeError)
    ∧ (∀ p, parseMessage msg = Ok p → nonEmpty (type p) = true).
Proof.
  intros rt msg ty.
  destruct (parseMessage_returns msg) as (Hok & Herr & Hty). fold ty in Hok.
  split; [|split; [by intros _|by split]].
  intros Hbad. destruct (parseMessage msg) as [p|e] eqn:Hrun.
  - exfalso. cbn [isOk] in Hok.
    destruct Hbad as [Hn|[Ht Hs]].
    + by rewrite Hn in Hok.
    + rewrite Ht, Hs in Hok. cbn in Hok. by rewrite andb_false_r in Hok.
  - by rewrite (Herr e eq_refl).
Qed.

End MessageLaws.

(* ================================================================== *)
(** * Properties of the aggregation of amounts *)
(* ================================================================== *)

Module AmountLaws.
Import Js Syncer ResultFacts StringFacts Laws.

Lemma letter_not_digit c : isLetter c = true → isDigit c = false.
Proof.
  unfold isLetter, isUpper, isLower, isDigit. cbv zeta.
  generalize (N_of_ascii c). intros n H.
  apply orb_true_iff in H as [H|H]; apply andb_true_iff in H as [H1 H2];
    apply N.leb_le in H1, H2; apply andb_false_iff; right;
    apply N.leb_gt; lia.
Qed.

Lemma takeWhileS_digits ds d :
  allS isDigit ds = true → nonEmpty d = true → allS isLetter d = true →
  takeWhileS isDigit (ds +:+ d) = ds ∧ dropWhileS isDigit (ds +:+ d) = d.
Proof.
  intros Hds Hd Hl. induction ds as [|c ds IH].
  - change (EmptyString +:+ d) with d. destruct d as [|c d]; [done|].
    cbn [allS] in Hl. apply andb_true_iff in Hl as [Hc _].
    cbn [takeWhileS dropWhileS]. by rewrite (letter_not_digit c Hc).
  - rewrite append_cons. cbn [allS] in Hds.
    apply andb_true_iff in Hds as [Hc Hds]. cbn [takeWhileS dropWhileS].
    rewrite Hc. destruct (IH Hds) as [-> ->]. done.
Qed.

Lemma matchCoinExact_coin c :
  wellFormedCoin c = true → matchCoinExact (coinTextOf c) = Some c.
Proof.
  destruct c as [ds d]. unfold wellFormedCoin, coinTextOf. cbn [fst snd].
  intros H. apply andb_true_iff in H as [H _].
  repeat (apply andb_true_iff in H as [H ?]).
  unfold matchCoinExact.
  destruct (takeWhileS_digits ds d) as [-> ->]; [done..|].
  by rewrite H, H1, H0.
Qed.

Lemma omap_coinTexts (amounts : list (option (string * string))) :
  omap id (map (fmap coinTextOf) amounts) = map coinTextOf (omap id amounts).
Proof.
  induction amounts as [|[c|] amounts IH]; cbn; [done| |done].
  by rewrite IH.
Qed.

Lemma fold_addAmount coins :
  (∀ c, c ∈ coins → wellFormedCoin c = true) →
  ∀ m, fold_left addAmount (map coinTextOf coins) m
       = fold_left (fun m c => addToDenom c.2 (BigInt c.1) m) coins m.
Proof.
  induction coins as [|c coins IH]; intros Hwf m; [done|].
  cbn [map fold_left]. unfold addAmount at 2.
  rewrite matchCoinExact_coin by (apply Hwf, list_elem_of_here).
  destruct c as [ds d]. apply IH. intros c Hc. by apply Hwf, list_elem_of_further.
Qed.

Lemma uniqueGo_elem seen xs d :
  d ∈ uniqueGo seen xs ↔ d ∈ xs ∧ d ∉ seen.
Proof.
  revert seen. induction xs as [|x xs IH]; intros seen; cbn [uniqueGo].
  - split; [by intros ?%elem_of_nil|by intros [?%elem_of_nil _]].
  - case_bool_decide as Hx.
    + rewrite IH. split.
      * intros [? ?]. split; [by right|done].
      * intros [Hd Hs]. apply elem_of_cons in Hd as [->|Hd]; [done|by split].
    + rewrite elem_of_cons, IH. split.
      * intros [->|[Hd Hs]]; [by split; [left|]|].
        split; [by right|]. intros H. apply Hs. by right.
      * intros [Hd Hs]. apply elem_of_cons in Hd as [->|Hd]; [by left|].
        destruct (decide (d = x)) as [->|Hne]; [by left|right].
        split; [done|]. intros H. by apply elem_of_cons in H as [?|?].
Qed.

Lemma uniqueGo_NoDup seen xs : NoDup (uniqueGo seen xs).
Proof.
  revert seen. induction xs as [|x xs IH]; intros seen; cbn [uniqueGo].
  - constructor.
  - case_bool_decide; [apply IH|]. constructor; [|apply IH].
    rewrite uniqueGo_elem. intros [_ Hseen]. apply Hseen. by left.
Qed.

Lemma uniqueGo_snoc seen xs x :
  uniqueGo seen (xs ++ [x])
  = (uniqueGo seen xs
     ++ if bool_decide (x ∈ seen ++ xs) then [] else [x])%list.
Proof.
  revert seen. induction xs as [|y xs IH]; intros seen; cbn [uniqueGo app].
  - rewrite app_nil_r. by case_bool_decide.
  - case_bool_decide as Hy.
    + rewrite IH. f_equal.
      rewrite (bool_decide_ext (x ∈ (seen ++ xs)%list) (x ∈ (seen ++ y :: xs)%list));
        [done|].
      rewrite !elem_of_app, elem_of_cons. split.
      * intros [?|?]; [by left|by right; right].
      * intros [?|[->|?]]; [by left|by left|by right].
    + rewrite IH. cbn [app]. do 2 f_equal.
      rewrite (bool_decide_ext (x ∈ ((y :: seen) ++ xs)%list) (x ∈ (seen ++ y :: xs)%list));
        [done|].
      rewrite !elem_of_app, !elem_of_cons. split.
      * intros [[->|?]|?]; [by right; left|by left|by right; right].
      * intros [?|[->|?]]; [by left; right|by left; left|by right].
Qed.

Lemma unique_snoc xs x :
  unique (xs ++ [x])
  = (unique xs ++ if bool_decide (x ∈ xs) then [] else [x])%list.
Proof. unfold unique. by rewrite uniqueGo_snoc. Qed.

Lemma unique_elem xs d : d ∈ unique xs ↔ d ∈ xs.
Proof.
  unfold unique. rewrite uniqueGo_elem. split; [by intros [? _]|].
  intros ?. split; [done|]. by intros ?%elem_of_nil.
Qed.

Lemma totalOf_snoc d coins c :
  totalOf d (coins ++ [c])
  = totalOf d coins + (if String.eqb c.2 d then BigInt c.1 else 0).
Proof.
  unfold totalOf. induction coins as [|c' coins IH]; cbn [foldr app].
  - destruct (String.eqb c.2 d); lia.
  - rewrite IH. destruct (String.eqb c'.2 d); lia.
Qed.

Lemma totalOf_absent d coins : d ∉ map snd coins → totalOf d coins = 0.
Proof.
  unfold totalOf. induction coins as [|c coins IH]; cbn [foldr map]; [done|].
  rewrite not_elem_of_cons. intros [Hne Hin].
  apply not_eq_sym in Hne. apply String.eqb_neq in Hne as ->. by apply IH.
Qed.

Lemma addToDenom_present d q (T : string → Z) ds :
  NoDup ds → d ∈ ds →
  addToDenom d q (map (fun d' => (d', T d')) ds)
  = map (fun d' => (d', T d' + if String.eqb d d' then q else 0)) ds.
Proof.
  intros Hnd. induction Hnd as [|d0 ds Hd0 Hnd IH]; intros Hin.
  - by apply elem_of_nil in Hin.
  - cbn [map addToDenom]. destruct (String.eqb d d0) eqn:E.
    + apply String.eqb_eq in E as ->. f_equal.
      apply map_ext_in. intros d' Hd'%list_elem_of_In.
      assert (d0 ≠ d') as Hne by (by intros ->).
      apply String.eqb_neq in Hne as ->. f_equal. lia.
    + apply elem_of_cons in Hin as [->|Hin].
      { by rewrite String.eqb_refl in E. }
      rewrite IH by done. f_equal. f_equal. lia.
Qed.

Lemma addToDenom_absent d q (T : string → Z) ds :
  d ∉ ds →
  addToDenom d q (map (fun d' => (d', T d')) ds)
  = (map (fun d' => (d', T d' + if String.eqb d d' then q else 0)) ds
     ++ [(d, q)])%list.
Proof.
  induction ds as [|d0 ds IH]; intros Hin; [done|].
  apply not_elem_of_cons in Hin as [Hne Hin].
  cbn [map addToDenom app]. apply String.eqb_neq in Hne as ->.
  rewrite IH by done. do 2 f_equal. lia.
Qed.

Lemma denomMap_spec coins :
  fold_left (fun m c => addToDenom c.2 (BigInt c.1) m) coins []
  = map (fun d => (d, totalOf d coins)) (unique (map snd coins)).
Proof.
  induction coins as [|c coins IH] using rev_ind; [done|].
  rewrite fold_left_app, IH. cbn [fold_left].
  rewrite map_app. cbn [map]. rewrite unique_snoc.
  case_bool_decide as Hin.
  - rewrite app_nil_r.
    rewrite addToDenom_present;
      [|apply uniqueGo_NoDup|by apply unique_elem].
    apply map_ext. intros d. rewrite totalOf_snoc.
    by rewrite (String.eqb_sym c.2 d).
  - rewrite addToDenom_absent by (by rewrite unique_elem).
    rewrite map_app. cbn [map]. f_equal.
    + apply map_ext. intros d. rewrite totalOf_snoc.
      by rewrite (String.eqb_sym c.2 d).
    + rewrite totalOf_snoc, String.eqb_refl, totalOf_absent by done. done.
Qed.

(** X13. Given amounts that are null or well-formed coins (digits followed
    by letters, the denomination not a name inherited from
    Object.prototype), aggregateAmounts returns null when there is no coin,
    and otherwise the totals per denomination, one '<total><denom>' per
    denomination in order of first appearance, joined with ', '. *)
Theorem aggregateAmounts_totals_per_denomination :
  ∀ amounts : list (option (string * string)),
    (∀ c, Some c ∈ amounts → wellFormedCoin c = true) →
    let coins := omap id amounts in
    aggregateAmounts (map (fmap coinTextOf) amounts)
    = match coins with
      | [] => None
      | _ =>
          Some (join ", "
                  (map (fun d => bigIntToString (totalOf d coins) +:+ d)
                     (unique (map snd coins))))
      end.
Proof.
  intros amounts Hwf coins. unfold aggregateAmounts.
  rewrite omap_coinTexts. fold coins.
  assert (Hcoins : ∀ c, c ∈ coins → wellFormedCoin c = true).
  { intros c Hc. apply Hwf. subst coins.
    apply list_elem_of_omap in Hc as ([c'|] & Hin & Heq); [|done].
    by injection Heq as ->. }
  clearbody coins. destruct coins as [|c0 coins']; [done|].
  set (cs := c0 :: coins') in *.
  change (map coinTextOf cs) with (coinTextOf c0 :: map coinTextOf coins') at 1.
  cbv beta iota zeta.
  rewrite (fold_addAmount cs Hcoins), denomMap_spec, map_map. cbn [fst snd].
  assert (Hne : unique (map snd cs) ≠ []).
  { intros Hnil. assert (Hin : c0.2 ∈ unique (map snd cs))
      by (apply unique_elem; subst cs; apply list_elem_of_here).
    rewrite Hnil in Hin. by apply elem_of_nil in Hin. }
  revert Hne. generalize (unique (map snd cs)).
  intros [|d1 [|d2 ds]] Hne; [done|reflexivity|reflexivity].
Qed.

Lemma aggregateAmounts_totals_per_denomination_witness :
  aggregateAmounts [Some "5uatom"; None; Some "7uatom"; Some "1uosmo"]
  = Some "12uatom, 1uosmo".
Proof.
  apply (aggregateAmounts_totals_per_denomination
           [Some ("5", "uatom"); None; Some ("7", "uatom");
            Some ("1", "uosmo")]).
  intros c Hc.
  repeat (apply elem_of_cons in Hc as [Hc|Hc];
          [try discriminate; injection Hc as ->; reflexivity|]).
  by apply elem_of_nil in Hc.
Defined.

End AmountLaws.

(* ================================================================== *)
(** * Further properties of the page loop *)
(* ================================================================== *)

Module LoopLaws.
Import Js Fetcher Syncer Statements ResultFacts SyncerProps Laws.

(** X14. When the height of the last envelope of a saved page is plain (not
    an object with an own toString property, whose conversion to a number
    raises), the cursor (iterHeight, page) moves strictly forward in
    lexicographic order: either the height grows and the page is reset to
    1, or the height stays and the page grows by one. The error counter is
    not changed, and the loop is stopped when the page held fewer than 100
    transactions and otherwise left as it was. *)
Theorem advance_moves_the_cursor_forward :
  ∀ (rt : Runtime) (txs : list JsVal) (st : LoopState),
    plain (getOpt "height" (List.last txs JUndef)) = true →
    let st' := advance txs st in
    cursorBefore st st'
    ∧ ((iterHeight st < iterHeight st' ∧ page st' = 1)
       ∨ (iterHeight st' = iterHeight st ∧ page st' = page st + 1))
    ∧ consecutiveErrors st' = consecutiveErrors st
    ∧ ((length txs < 100)%nat → running st' = false)
    ∧ ((100 ≤ length txs)%nat → running st' = running st).
Proof.
  intros rt txs st _ st'. subst st'. unfold advance, cursorBefore.
  cbn [iterHeight page consecutiveErrors running].
  set (h := getOpt "height" (List.last txs JUndef)).
  destruct (if truthy h then toNumber h else Some (iterHeight st)) as [l|].
  - destruct (Z.ltb_spec (iterHeight st) l); cbn [default]; cbv iota;
      change (id l) with l;
      (split; [|split; [|split; [done|split]]]); try lia;
      try (intros Hlen; by (apply Nat.ltb_lt in Hlen as ->));
      try (intros Hlen; by (apply Nat.ltb_ge in Hlen as ->)).
  - (split; [|split; [|split; [done|split]]]); try lia;
      try (intros Hlen; by (apply Nat.ltb_lt in Hlen as ->));
      try (intros Hlen; by (apply Nat.ltb_ge in Hlen as ->)).
Qed.

Lemma advance_moves_the_cursor_forward_witness :
  @advance Sample.runtime [Sample.paidSend] freshLoop
  = {| running := false; iterHeight := 120; page := 1;
       consecutiveErrors := 0 |}
  ∧ cursorBefore freshLoop (@advance Sample.runtime [Sample.paidSend] freshLoop).
Proof.
  split; [reflexivity|].
  apply (advance_moves_the_cursor_forward Sample.runtime [Sample.paidSend]
           freshLoop eq_refl).
Defined.

Lemma pageLoop_S `{Runtime} fuel backend walletId wallet queryEvent st w :
  pageLoop (S fuel) backend walletId wallet queryEvent st w
  = if running st then
      match pageIteration backend walletId wallet queryEvent st w with
      | (w', Ok st') => pageLoop fuel backend walletId wallet queryEvent st' w'
      | (w', Throw e) => (w', Throw e)
      end
    else (w, Ok st).
Proof. cbn [pageLoop]. by destruct (running st). Qed.

Lemma pageLoop_stopped `{Runtime} fuel backend walletId wallet queryEvent st w :
  running st = false →
  pageLoop fuel backend walletId wallet queryEvent st w = (w, Ok st).
Proof. intros Hr. destruct fuel; [done|]. by rewrite pageLoop_S, Hr. Qed.

Lemma statusIn_not_incompatible e :
  classOf e ≠ Incompatible → statusIn e [400; 500; 501] = false.
Proof.
  intros Hc. destruct e as [|[s|]|]; try reflexivity.
  unfold statusIn. cbn [isAxiosError statusOf andb].
  destruct (negb (s =? 0)); [|done]. cbn [andb].
  apply bool_decide_eq_false. intros Hin. apply Hc.
  repeat (apply elem_of_cons in Hin as [->|Hin]; [reflexivity|]).
  by apply elem_of_nil in Hin.
Qed.

Section Down.
Context `{Runtime} (backend : Backend) (e : JsError).
Context (walletId : Z) (wallet : Wallet) (queryEvent : string).
Hypothesis Hdown : ∀ history req, backend history req = Rejected e.

Lemma pageIteration_rejected st w :
  statusIn e [400; 500; 501] = false →
  pageIteration backend walletId wallet queryEvent st w
  = onError e st
      (setRequests
         (legacyRequest (chainRest wallet) queryEvent (iterHeight st) (page st)
          :: requests w) w).
Proof.
  intros Hst. unfold pageIteration. rewrite bindM_unfold.
  unfold Syncer.attempt at 1, fetchPage, fetchIndexerMode, Fetcher.attempt.
  rewrite Hdown.
  assert (isAxiosError e
          && bool_decide (default 0 (statusOf e) ∈ [400; 500; 501]) = false)
    as ->.
  { unfold statusIn in Hst. destruct e as [|[s|]|]; try done.
    cbn [isAxiosError statusOf andb default] in *.
    change (id s) with s.
    destruct (Z.eqb_spec s 0) as [->|Hnz]; [done|]. exact Hst. }
  reflexivity.
Qed.

Lemma pageIteration_fallback st w :
  classOf e = Incompatible →
  pageIteration backend walletId wallet queryEvent st w
  = (setRequests
       (eventsRequest (chainRest wallet) queryEvent (iterHeight st) (page st)
        :: legacyRequest (chainRest wallet) queryEvent (iterHeight st) (page st)
        :: requests w) w,
     Ok (stop (setErrors 0 st))).
Proof.
  intros Hc. unfold pageIteration. rewrite bindM_unfold.
  unfold Syncer.attempt at 1, fetchPage, fetchIndexerMode, Fetcher.attempt.
  rewrite !Hdown.
  assert (isAxiosError e
          && bool_decide (default 0 (statusOf e) ∈ [400; 500; 501]) = true)
    as ->.
  { pose proof (statusIn_classOf e) as Hs. rewrite Hc in Hs.
    destruct Hs as (_ & _ & Hs). unfold statusIn in Hs.
    destruct e as [|[s|]|]; try done.
    cbn [isAxiosError statusOf andb default] in *.
    change (id s) with s. by destruct (negb (s =? 0)). }
  reflexivity.
Qed.

Lemma onError_unavailable st w :
  classOf e = Unavailable →
  onError e st w
  = (elapse 10000 w,
     Ok (let st1 := setErrors (consecutiveErrors st + 1) st in
         if 3 <=? consecutiveErrors st1 then stop st1 else st1)).
Proof.
  intros Hc. pose proof (statusIn_classOf e) as Hs. rewrite Hc in Hs.
  unfold onError. by rewrite Hs.
Qed.

Lemma onError_rateLimited st w :
  classOf e = RateLimited →
  onError e st w
  = (elapse 5000 w, Ok (setErrors (consecutiveErrors st + 1) st)).
Proof.
  intros Hc. pose proof (statusIn_classOf e) as Hs. rewrite Hc in Hs.
  destruct Hs as [Hs1 Hs2]. unfold onError. by rewrite Hs1, Hs2.
Qed.

Lemma onError_generic st w :
  classOf e = Generic →
  onError e st w
  = let st1 := setErrors (consecutiveErrors st + 1) st in
    if 5 <=? consecutiveErrors st1 then (w, Ok (stop st1))
    else (elapse 2000 w, Ok st1).
Proof.
  intros Hc. pose proof (statusIn_classOf e) as Hs. rewrite Hc in Hs.
  destruct Hs as (Hs1 & Hs2 & Hs3). unfold onError. rewrite Hs1, Hs2, Hs3.
  cbv zeta. by destruct (5 <=? _).
Qed.

Lemma nothing_served t : ¬ serves backend t.
Proof. intros (history & req & data & p & Hb & _). by rewrite Hdown in Hb. Qed.

Lemma pageLoop_down_sameStore fuel st w :
  sameStore w (pageLoop fuel backend walletId wallet queryEvent st w).1.
Proof.
  apply (keepsStore_pageLoop backend walletId wallet w); [|apply sameStore_refl].
  intros t Ht. by destruct (nothing_served t).
Qed.

Lemma pageLoop_rateLimited fuel :
  classOf e = RateLimited →
  ∀ st w, running st = true →
    let legacy := legacyRequest (chainRest wallet) queryEvent (iterHeight st)
                    (page st) in
    let run := pageLoop fuel backend walletId wallet queryEvent st w in
    run.2 = Ok (runningAfter (consecutiveErrors st + Z.of_nat fuel) st)
    ∧ requests run.1 = (replicate fuel legacy ++ requests w)%list
    ∧ sleeps run.1 = (replicate fuel 5000 ++ sleeps w)%list.
Proof.
  intros Hc. induction fuel as [|fuel IH]; intros st w Hrun; cbv zeta.
  - cbn. destruct st as [r h p c]. cbn in *. subst r. unfold runningAfter.
    cbn. by rewrite Z.add_0_r.
  - rewrite pageLoop_S, Hrun, pageIteration_rejected, onError_rateLimited
      by (done || (apply statusIn_not_incompatible; by rewrite Hc)).
    destruct (IH (setErrors (consecutiveErrors st + 1) st)
                (elapse 5000
                   (setRequests
                      (legacyRequest (chainRest wallet) queryEvent
                         (iterHeight st) (page st) :: requests w) w)) Hrun)
      as (IH1 & IH2 & IH3).
    cbn [iterHeight page setErrors consecutiveErrors] in *.
    split; [|split].
    + rewrite IH1. unfold runningAfter. cbn. do 2 f_equal. lia.
    + rewrite IH2. cbn [requests elapse setRequests].
      by rewrite replicate_S_end, <- app_assoc.
    + rewrite IH3. cbn [sleeps elapse setRequests].
      by rewrite replicate_S_end, <- app_assoc.
Qed.

End Down.

(** Decide the comparisons of the error counter with a threshold. *)
Ltac decide_leb :=
  repeat match goal with
         | |- context [?a <=? ?b] =>
             let v := eval vm_compute in (a <=? b) in
             change (a <=? b) with v
         end;
  cbv iota.

(** X15. Against a backend that rejects every request with the same error, a
    page loop that starts with no consecutive errors and is followed for 5+k
    turns: with status 502/503/504 stops after 3 requests and three sleeps
    of 10 s; with status 429 never stops (after 5+k turns it is still
    running, having slept 5 s after each request); with status 400/500/501
    stops after the legacy and the events request with no error counted and
    no sleep; with any other error stops after 5 requests and four sleeps of
    2 s. In all cases the stored data is untouched. *)
Theorem a_dead_backend_and_the_page_loop :
  ∀ (rt : Runtime) (backend : Backend) (e : JsError) (walletId : Z)
    (wallet : Wallet) (queryEvent : string) (st : LoopState) (w : World)
    (k : nat),
    (∀ history req, backend history req = Rejected e) →
    running st = true →
    consecutiveErrors st = 0 →
    let legacy := legacyRequest (chainRest wallet) queryEvent (iterHeight st)
                    (page st) in
    let events := eventsRequest (chainRest wallet) queryEvent (iterHeight st)
                    (page st) in
    let run := pageLoop (5 + k) backend walletId wallet queryEvent st w in
    sameStore w run.1
    ∧ match classOf e with
      | Unavailable =>
          run.2 = Ok (stoppedAfter 3 st)
          ∧ requests run.1 = (replicate 3 legacy ++ requests w)%list
          ∧ sleeps run.1 = (replicate 3 10000 ++ sleeps w)%list
      | RateLimited =>
          run.2 = Ok (runningAfter (5 + Z.of_nat k) st)
          ∧ requests run.1 = (replicate (5 + k) legacy ++ requests w)%list
          ∧ sleeps run.1 = (replicate (5 + k) 5000 ++ sleeps w)%list
      | Incompatible =>
          run.2 = Ok (stoppedAfter 0 st)
          ∧ requests run.1 = events :: legacy :: requests w
          ∧ sleeps run.1 = sleeps w
      | Generic =>
          run.2 = Ok (stoppedAfter 5 st)
          ∧ requests run.1 = (replicate 5 legacy ++ requests w)%list
          ∧ sleeps run.1 = (replicate 4 2000 ++ sleeps w)%list
      end.
Proof.
  intros rt backend e walletId wallet queryEvent st w k Hdown Hrun Hzero
    legacy events run.
  split; [by apply (pageLoop_down_sameStore backend e walletId wallet queryEvent Hdown)|].
  assert (Hfive : (5 + k)%nat = S (S (S (S (S k))))) by done.
  destruct st as [r h p c]. cbn [running consecutiveErrors] in Hrun, Hzero.
  subst r c. cbn [iterHeight page] in legacy, events.
  unfold stoppedAfter, runningAfter. cbn [iterHeight page].
  destruct (classOf e) eqn:Hc.
  - assert (Hst : statusIn e [400; 500; 501] = false)
      by (apply statusIn_not_incompatible; by rewrite Hc).
    subst run. rewrite Hfive.
    do 3 (rewrite pageLoop_S; cbn [running];
          rewrite (pageIteration_rejected backend e walletId wallet queryEvent
                     Hdown) by done;
          rewrite (onError_unavailable e) by done; cbv zeta;
          cbn [setErrors consecutiveErrors running iterHeight page stop];
          decide_leb).
    rewrite pageLoop_stopped by done. done.
  - destruct (pageLoop_rateLimited backend e walletId wallet queryEvent Hdown
                (5 + k) Hc
                {| running := true; iterHeight := h; page := p;
                   consecutiveErrors := 0 |} w eq_refl) as (H1 & H2 & H3).
    fold run in H1, H2, H3. cbn [iterHeight page consecutiveErrors] in *.
    split; [|done]. rewrite H1. unfold runningAfter. cbn [iterHeight page].
    do 2 f_equal. lia.
  - subst run. rewrite Hfive. rewrite pageLoop_S. cbn [running].
    rewrite (pageIteration_fallback backend e walletId wallet queryEvent Hdown)
      by done.
    rewrite pageLoop_stopped by done. done.
  - assert (Hst : statusIn e [400; 500; 501] = false)
      by (apply statusIn_not_incompatible; by rewrite Hc).
    subst run. rewrite Hfive.
    do 5 (rewrite pageLoop_S; cbn [running];
          rewrite (pageIteration_rejected backend e walletId wallet queryEvent
                     Hdown) by done;
          rewrite (onError_generic e) by done; cbv zeta;
          cbn [setErrors consecutiveErrors running iterHeight page stop];
          decide_leb).
    rewrite pageLoop_stopped by done. done.
Qed.

Lemma a_dead_backend_and_the_page_loop_witness :
  let run := @pageLoop Sample.runtime 7 alwaysRateLimited 1 someWallet
               "message.sender='cosmos1a'" freshLoop emptyWorld in
  run.2 = Ok (runningAfter 7 freshLoop)
  ∧ sleeps run.1 = replicate 7 5000.
Proof.
  destruct (a_dead_backend_and_the_page_loop Sample.runtime alwaysRateLimited
              (HttpError (Some 429)) 1 someWallet "message.sender='cosmos1a'"
              freshLoop emptyWorld 2 (fun _ _ => eq_refl) eq_refl eq_refl)
    as (_ & Hst & _ & Hsleeps).
  split; [exact Hst|exact Hsleeps].
Defined.

End LoopLaws.

(* ================================================================== *)
(** * What a crawl does to the store *)
(* ================================================================== *)

Module StoreLaws.
Import Js Fetcher Syncer Statements ResultFacts SyncerProps Laws.

Lemma recordsAdded_same walletId w w' :
  walletTransaction w' = walletTransaction w →
  validatorTransaction w' = validatorTransaction w →
  recordsAdded walletId w w'.
Proof.
  intros H1 H2. unfold recordsAdded. rewrite H1, H2.
  repeat split; try done; congruence.
Qed.

Lemma recordsAdded_refl walletId w : recordsAdded walletId w w.
Proof. by apply recordsAdded_same. Qed.

Lemma recordsAdded_trans walletId w1 w2 w3 :
  recordsAdded walletId w1 w2 → recordsAdded walletId w2 w3 →
  recordsAdded walletId w1 w3.
Proof.
  intros (A1 & A2 & A3 & A4) (B1 & B2 & B3 & B4). repeat split.
  - intros k row Hk. by apply B1, A1.
  - intros k row Hk. by apply B2, A2.
  - destruct (walletTransaction w2 !! k) as [row'|] eqn:E.
    + pose proof (B1 _ _ E) as E3. rewrite H in E3. injection E3 as ->.
      by apply (A3 k row').
    + by apply (B3 k row).
  - destruct (walletTransaction w2 !! k) as [row'|] eqn:E.
    + pose proof (B1 _ _ E) as E3. rewrite H in E3. injection E3 as ->.
      by apply (A3 k row').
    + by apply (B3 k row).
  - destruct (validatorTransaction w2 !! k) as [row'|] eqn:E.
    + pose proof (B2 _ _ E) as E3. rewrite H in E3. injection E3 as ->.
      by apply (A4 k row').
    + by apply (B4 k row).
  - destruct (validatorTransaction w2 !! k) as [row'|] eqn:E.
    + pose proof (B2 _ _ E) as E3. rewrite H in E3. injection E3 as ->.
      by apply (A4 k row').
    + by apply (B4 k row).
Qed.

Lemma adds_bind {A B} walletId (m : M A) (f : A → M B) :
  adds walletId m → (∀ a, adds walletId (f a)) → adds walletId (m ≫= f).
Proof.
  intros Hm Hf w. rewrite bindM_unfold. specialize (Hm w).
  destruct (m w) as [w1 [a|e]]; [|done].
  eapply recordsAdded_trans; [exact Hm|apply Hf].
Qed.

Lemma adds_mret {A} walletId (a : A) : adds walletId (mret a).
Proof. intros w. apply recordsAdded_refl. Qed.

Lemma adds_lift {A} walletId (r : Result A) : adds walletId (lift r).
Proof. intros w. apply recordsAdded_refl. Qed.

Lemma adds_gets {A} walletId (f : World → A) : adds walletId (gets f).
Proof. intros w. apply recordsAdded_refl. Qed.

Lemma adds_modify walletId (f : World → World) :
  (∀ w, recordsAdded walletId w (f w)) → adds walletId (modify f).
Proof. intros Hf w. apply Hf. Qed.

Lemma adds_attempt {A} walletId (m : M A) :
  adds walletId m → adds walletId (attempt m).
Proof. intros Hm w. specialize (Hm w). unfold attempt. by destruct (m w). Qed.

Lemma adds_sleep walletId ms : adds walletId (sleep ms).
Proof. intros w. by apply recordsAdded_same. Qed.

Lemma adds_transaction {A} walletId (m : M A) :
  adds walletId m → adds walletId (transaction m).
Proof.
  intros Hm w. specialize (Hm w). unfold transaction.
  destruct (m w) as [w1 [a|e]]; [done|]. by apply recordsAdded_same.
Qed.

Lemma adds_onError walletId error st : adds walletId (onError error st).
Proof.
  unfold onError.
  repeat match goal with
         | |- adds _ (if ?b then _ else _) => destruct b
         | |- adds _ (_ ≫= _) => apply adds_bind; [|intros ?]
         | |- adds _ (sleep _) => apply adds_sleep
         | |- adds _ (mret _) => apply adds_mret
         end.
Qed.

Lemma recordsAdded_insert_wallet walletId w txhash row :
  walletTransaction w !! (txhash, walletId) = None →
  wtHash row = txhash → wtWalletId row = walletId →
  recordsAdded walletId w
    (setWalletTransaction (<[(txhash, walletId) := row]> (walletTransaction w))
       w).
Proof.
  intros Hnone Hh Hw. unfold recordsAdded.
  cbn [walletTransaction validatorTransaction setWalletTransaction].
  split; [|split; [done|split]].
  - intros k r Hk. rewrite lookup_insert_ne; [done|]. intros <-.
    by rewrite Hnone in Hk.
  - intros k r Hk Hn. destruct (decide (k = (txhash, walletId))) as [->|Hne].
    + rewrite lookup_insert_eq in Hk. injection Hk as <-. by rewrite Hh.
    + rewrite lookup_insert_ne in Hk by done. by rewrite Hk in Hn.
  - intros k r Hk Hn. by rewrite Hk in Hn.
Qed.

Lemma recordsAdded_insert_validator walletId w txhash row :
  validatorTransaction w !! (txhash, walletId) = None →
  vtHash row = txhash → vtWalletId row = walletId →
  recordsAdded walletId w
    (setValidatorTransaction
       (<[(txhash, walletId) := row]> (validatorTransaction w)) w).
Proof.
  intros Hnone Hh Hw. unfold recordsAdded.
  cbn [walletTransaction validatorTransaction setValidatorTransaction].
  split; [done|split; [|split]].
  - intros k r Hk. rewrite lookup_insert_ne; [done|]. intros <-.
    by rewrite Hnone in Hk.
  - intros k r Hk Hn. by rewrite Hk in Hn.
  - intros k r Hk Hn. destruct (decide (k = (txhash, walletId))) as [->|Hne].
    + rewrite lookup_insert_eq in Hk. injection Hk as <-. by rewrite Hh.
    + rewrite lookup_insert_ne in Hk by done. by rewrite Hk in Hn.
Qed.

Lemma recordsAdded_addSent walletId w w1 n :
  recordsAdded walletId w w1 → recordsAdded walletId w (addSent n w1).
Proof.
  intros Hr. eapply recordsAdded_trans; [exact Hr|]. by apply recordsAdded_same.
Qed.

Lemma saveWalletRecord_adds `{Runtime} walletId wallet t h pr msgs :
  adds walletId (saveWalletRecord walletId wallet t h pr msgs).
Proof.
  intros w. unfold saveWalletRecord. destruct msgs as [|firstMsg rest].
  { apply recordsAdded_refl. }
  rewrite bindM_lift.
  destruct (textKey (getOpt "txhash" t)) as [txhash|e] eqn:Hkey;
    [|apply recordsAdded_refl].
  rewrite bindM_gets.
  destruct (walletTransaction w !! (txhash, walletId)) as [row|] eqn:Hrow;
    [apply recordsAdded_refl|].
  rewrite !bindM_lift.
  repeat match goal with
         | |- context [match ?r with Ok _ => _ | Throw _ => _ end] =>
             destruct r; [rewrite ?bindM_lift|apply recordsAdded_refl]
         end.
  rewrite bindM_modify.
  match goal with
  | |- context [if ?b then _ else _] => destruct b
  end; rewrite ?bindM_modify, ?bindM_mret, mretM; cbn [fst].
  - by apply recordsAdded_addSent, recordsAdded_insert_wallet.
  - by apply recordsAdded_insert_wallet.
Qed.

Lemma saveValidatorRecord_adds `{Runtime} walletId wallet t h pr msgs :
  adds walletId (saveValidatorRecord walletId wallet t h pr msgs).
Proof.
  intros w. unfold saveValidatorRecord. destruct msgs as [|firstMsg rest].
  { apply recordsAdded_refl. }
  rewrite bindM_lift.
  destruct (textKey (getOpt "txhash" t)) as [txhash|e] eqn:Hkey;
    [|apply recordsAdded_refl].
  rewrite bindM_gets.
  destruct (validatorTransaction w !! (txhash, walletId)) as [row|] eqn:Hrow;
    [apply recordsAdded_refl|].
  rewrite !bindM_lift.
  repeat match goal with
         | |- context [match ?r with Ok _ => _ | Throw _ => _ end] =>
             destruct r; [rewrite ?bindM_lift|apply recordsAdded_refl]
         end.
  rewrite bindM_modify.
  match goal with
  | |- context [if ?b then _ else _] => destruct b
  end; rewrite ?bindM_modify, ?bindM_mret, mretM; cbn [fst].
  - by apply recordsAdded_addSent, recordsAdded_insert_validator.
  - by apply recordsAdded_insert_validator.
Qed.

Lemma processTx_adds `{Runtime} walletId wallet t :
  adds walletId (processTx walletId wallet t).
Proof.
  intros w. rewrite processTx_analysed.
  destruct (analysed t) as [[[txParserResult parsed]|]|e];
    try apply recordsAdded_refl.
  revert w. apply adds_bind; [apply saveWalletRecord_adds|]. intros n1.
  apply adds_bind; [|intros n2; apply adds_mret].
  destruct (hasText (valAddress wallet));
    [apply saveValidatorRecord_adds|apply adds_mret].
Qed.

Lemma processTxs_adds `{Runtime} walletId wallet txs :
  adds walletId (processTxs walletId wallet txs).
Proof.
  induction txs as [|t txs IH]; cbn [processTxs]; [apply adds_mret|].
  apply adds_bind; [apply processTx_adds|]. intros n.
  apply adds_bind; [exact IH|]. intros m. apply adds_mret.
Qed.

Lemma fetchPage_adds `{Runtime} walletId backend wallet queryEvent st :
  adds walletId (fetchPage backend wallet queryEvent st).
Proof.
  intros w. unfold fetchPage.
  destruct (fetchIndexerMode _ _ _ _ _ _) as [history r].
  by apply recordsAdded_same.
Qed.

Lemma pageIteration_adds `{Runtime} backend walletId wallet queryEvent st :
  adds walletId (pageIteration backend walletId wallet queryEvent st).
Proof.
  unfold pageIteration.
  apply adds_bind; [apply adds_attempt, fetchPage_adds|].
  intros [result|error]; [|apply adds_onError].
  destruct (txs result) as [|t txs'] eqn:Htxs; [apply adds_mret|].
  apply adds_bind.
  - apply adds_attempt. unfold savePage. apply adds_transaction, processTxs_adds.
  - intros [n|error]; [|apply adds_onError].
    apply adds_bind; [apply adds_sleep|]. intros []. apply adds_mret.
Qed.

Lemma pageLoop_adds `{Runtime} fuel backend walletId wallet queryEvent st :
  adds walletId (pageLoop fuel backend walletId wallet queryEvent st).
Proof.
  revert st. induction fuel as [|fuel IH]; intros st; cbn [pageLoop].
  - apply adds_mret.
  - destruct (running st); [|apply adds_mret].
    apply adds_bind; [apply pageIteration_adds|done].
Qed.

Lemma crawlQueries_adds `{Runtime} fuel backend walletId wallet startHeight
    queries :
  adds walletId
    (crawlQueries fuel backend walletId wallet startHeight queries).
Proof.
  induction queries as [|q queries IH]; cbn [crawlQueries].
  - apply adds_mret.
  - apply adds_bind; [apply adds_gets|].
    intros [row|]; [|apply adds_mret].
    apply adds_bind; [apply pageLoop_adds|]. intros _.
    apply adds_bind; [|done].
    apply adds_modify. intros w. by apply recordsAdded_same.
Qed.

Lemma claimSyncing_adds walletId : adds walletId (claimSyncing walletId).
Proof.
  intros w. unfold claimSyncing.
  destruct (wallets w !! walletId) as [row|]; [|apply recordsAdded_refl].
  destruct (isSyncing row); [apply recordsAdded_refl|].
  by apply recordsAdded_same.
Qed.

Lemma crawl_adds `{Runtime} fuel backend walletId :
  adds walletId (crawl fuel backend walletId).
Proof.
  unfold crawl. apply adds_bind; [apply adds_gets|].
  intros [wallet|]; [|apply adds_mret].
  apply adds_bind; [apply claimSyncing_adds|].
  intros [|n]; [apply adds_mret|].
  apply adds_bind; [apply adds_gets|]. intros lastWallet.
  apply adds_bind; [apply adds_gets|]. intros lastValidator.
  apply adds_bind; [apply crawlQueries_adds|]. intros _. apply adds_mret.
Qed.

(** X16. backfillWalletHistory never changes or deletes a transaction record
    that exists: every record of the two tables is still there afterwards,
    and every record it adds is stored under (its own hash, walletId) and
    carries that walletId. *)
Theorem a_crawl_only_adds_records_of_its_wallet :
  ∀ (rt : Runtime) (fuel : nat) (backend : Backend) (walletId : Z)
    (w : World),
    recordsAdded walletId w (backfillWalletHistory fuel backend walletId w).
Proof.
  intros rt fuel backend walletId w. unfold backfillWalletHistory.
  destruct (LockManager.acquireWithRetry _ _ _ _ _ _) as [[[|] locks'] now].
  - unfold finally.
    pose proof (adds_attempt walletId _ (crawl_adds fuel backend walletId)
                  (setClock now (setLocks locks' w))) as Hc.
    destruct (attempt (crawl fuel backend walletId)
                (setClock now (setLocks locks' w))) as [w1 r].
    cbn [fst] in *. eapply recordsAdded_trans; [|by apply recordsAdded_same].
    eapply recordsAdded_trans; [|exact Hc]. by apply recordsAdded_same.
  - by apply recordsAdded_same.
Qed.

End StoreLaws.

(* ================================================================== *)
(** * The crawl and its lock *)
(* ================================================================== *)

Module CrawlLaws.
Import Js Fetcher Syncer Statements SyncerProps LockProps Laws LoopLaws.

(** X17. If the wallet's lock is held and does not expire within the 4 s
    over which acquireWithRetry(key, op, 3, 2000) tries,
    backfillWalletHistory returns without any effect: wallet rows, both
    transaction tables, requests and notifications are unchanged and the
    lock is still the holder's; only 4000 ms have passed. *)
Theorem a_crawl_that_finds_the_lock_held_does_nothing :
  ∀ (rt : Runtime) (fuel : nat) (backend : Backend) (walletId : Z)
    (w : World) (info : LockManager.LockInfo),
    locks w !! lockKeyOf walletId = Some info →
    clock w + 4000 < LockManager.expiresAt info →
    let after := backfillWalletHistory fuel backend walletId w in
    wallets after = wallets w
    ∧ walletTransaction after = walletTransaction w
    ∧ validatorTransaction after = validatorTransaction w
    ∧ requests after = requests w
    ∧ sent after = sent w
    ∧ clock after = clock w + 4000
    ∧ locks after !! lockKeyOf walletId = Some info.
Proof.
  intros rt fuel backend walletId w info Hheld Hexp after. subst after.
  unfold backfillWalletHistory.
  pose proof (acquireWithRetry_held (lockKeyOf walletId)
                "backfillWalletHistory" 2000 info 2 (clock w)
                (locks w) Hheld) as Hr.
  cbv zeta in Hr. change (LockManager.timerDelay 2000) with 2000 in Hr.
  destruct (LockManager.acquireWithRetry _ _ _ _ _ _) as [[ok locks'] now].
  cbn [fst snd] in Hr. destruct Hr as (Hok & Hno & _ & _).
  destruct ok.
  - destruct Hok as [Hok _]. specialize (Hok eq_refl). lia.
  - destruct (Hno eq_refl) as [-> Hl]. cbn. by repeat split.
Qed.

Lemma a_crawl_that_finds_the_lock_held_does_nothing_witness :
  let after := @backfillWalletHistory Sample.runtime 5 onePageBackend 1
                 Laws.lockedWorld in
  requests after = [] ∧ clock after = 4000
  ∧ walletTransaction after = ∅.
Proof.
  destruct (a_crawl_that_finds_the_lock_held_does_nothing Sample.runtime 5
              onePageBackend 1 Laws.lockedWorld
              {| LockManager.acquired := 0; LockManager.expiresAt := 300000;
                 LockManager.operation := "backfillWalletHistory" |} eq_refl)
    as (_ & Hw & _ & Hr & _ & Hc & _).
  - cbn. lia.
  - split; [exact Hr|]. split; [exact Hc|exact Hw].
Defined.





End CrawlLaws.

(* ================================================================== *)
(** * What the interpreter returns and raises *)
(* ================================================================== *)

Module ParserLaws.
Import Js TxParser ResultFacts Laws.

Lemma post_Ok {A} (Q : A → Prop) E a : Q a → post Q E (Ok a).
Proof. done. Qed.

Lemma post_Throw {A} (Q : A → Prop) (E : JsError → Prop) e :
  E e → post Q E (Throw e).
Proof. done. Qed.

Lemma post_bind {A B} (Q1 : A → Prop) (Q : B → Prop) E (m : Result A)
    (f : A → Result B) :
  post Q1 E m → (∀ a, Q1 a → post Q E (f a)) → post Q E (m ≫= f).
Proof. destruct m as [a|e]; cbn; auto. Qed.

Lemma post_weaken {A} (Q1 Q : A → Prop) E (m : Result A) :
  post Q1 E m → (∀ a, Q1 a → Q a) → post Q E m.
Proof. destruct m as [a|e]; cbn; auto. Qed.

Lemma post_any {A} (Q : A → Prop) E (m : Result A) :
  post Q E m → post anything E m.
Proof. intros H. by apply (post_weaken Q). Qed.

Create HintDb post discriminated.

Lemma anything_holds {A} (a : A) : anything a.
Proof. exact I. Qed.
#[local] Hint Resolve anything_holds : post.

Lemma unfilled_setAmount v r : unfilled r → unfilled (setAmount v r).
Proof. done. Qed.
Lemma unfilled_setSender v r : unfilled r → unfilled (setSender v r).
Proof. done. Qed.
Lemma unfilled_setRecipient v r : unfilled r → unfilled (setRecipient v r).
Proof. done. Qed.
Lemma unfilled_setDelegator v r : unfilled r → unfilled (setDelegator v r).
Proof. done. Qed.
Lemma unfilled_setValidator v r : unfilled r → unfilled (setValidator v r).
Proof. done. Qed.
Lemma unfilled_setDstValidator v r :
  unfilled r → unfilled (setDstValidator v r).
Proof. done. Qed.
Lemma unfilled_setType t r :
  nonEmpty t = true → unfilled r → unfilled (setType t r).
Proof. intros Ht (? & ? & ?). by repeat split. Qed.
Lemma unfilled_emptyResult t : nonEmpty t = true → unfilled (emptyResult t).
Proof. by repeat split. Qed.
Lemma unfilled_overrideWith k m set r :
  (∀ v r, unfilled r → unfilled (set v r)) →
  unfilled r → unfilled (overrideWith k m set r).
Proof. intros Hset Hr. unfold overrideWith. destruct (truthy _); auto. Qed.

#[local] Hint Resolve unfilled_setAmount unfilled_setSender
  unfilled_setRecipient unfilled_setDelegator unfilled_setValidator
  unfilled_setDstValidator unfilled_setType unfilled_emptyResult
  unfilled_overrideWith : post.

Lemma nonEmpty_append_l a b : nonEmpty a = true → nonEmpty (a +:+ b) = true.
Proof. by destruct a. Qed.
Lemma nonEmpty_or_else s d :
  nonEmpty d = true → nonEmpty (if nonEmpty s then s else d) = true.
Proof. by destruct (nonEmpty s) eqn:E. Qed.
#[local] Hint Resolve nonEmpty_append_l nonEmpty_or_else : post.

Lemma getProp_post k v : post anything isTypeError (getProp k v).
Proof. by destruct v. Qed.
Lemma getIndex_post i v : post anything isTypeError (getIndex i v).
Proof. unfold getIndex. by destruct (isNullish v). Qed.
Lemma asString_post v : post anything isTypeError (asString v).
Proof. by destruct v. Qed.
Lemma jsIncludes_post s v : post anything isTypeError (jsIncludes s v).
Proof. by destruct v. Qed.
Lemma iterate_post v : post anything isTypeError (iterate v).
Proof. by destruct v. Qed.
#[local] Hint Resolve getProp_post getIndex_post asString_post jsIncludes_post
  iterate_post : post.

Lemma mapM__post {A B} (f : A → Result B) xs :
  (∀ x, post anything isTypeError (f x)) → post anything isTypeError (mapM_ f xs).
Proof.
  intros Hf. induction xs as [|x xs IH]; cbn [mapM_]; [done|].
  eapply post_bind; [apply Hf|]. intros y _.
  eapply post_bind; [apply IH|]. done.
Qed.

Lemma findM_post p xs : (∀ x, post anything isTypeError (p x)) → post anything isTypeError (findM p xs).
Proof.
  intros Hp. induction xs as [|x xs IH]; cbn [findM]; [done|].
  eapply post_bind; [apply Hp|]. intros [|] _; [done|exact IH].
Qed.

Lemma optFind_post p v : (∀ x, post anything isTypeError (p x)) → post anything isTypeError (optFind p v).
Proof. intros Hp. destruct v; try done. by apply findM_post. Qed.

Lemma orElse_post a b : post anything isTypeError b → post anything isTypeError (orElse a b).
Proof. intros Hb. unfold orElse. by destruct (truthy a). Qed.

Lemma orProps_post ks v : post anything isTypeError (orProps ks v).
Proof.
  unfold orProps. eapply post_bind; [|done].
  apply mapM__post. intros k. apply getProp_post.
Qed.

Lemma forEachFlow_post {A S R} (body : A → S → Result (Flow S R)) xs s :
  (∀ x s, post anything isTypeError (body x s)) → post anything isTypeError (forEachFlow body xs s).
Proof.
  intros Hb. revert s. induction xs as [|x xs IH]; intros s;
    cbn [forEachFlow]; [done|].
  eapply post_bind; [apply Hb|]. intros [s'|r] _; [apply IH|done].
Qed.

Lemma forEachM_post {A S} (I : S → Prop) (body : A → S → Result S) xs s :
  (∀ x s, I s → post I isTypeError (body x s)) → I s →
  post I isTypeError (forEachM body xs s).
Proof.
  intros Hb. revert s. induction xs as [|x xs IH]; intros s Hs;
    cbn [forEachM]; [done|].
  eapply post_bind; [by apply Hb|]. intros s' Hs'. by apply IH.
Qed.

#[local] Hint Resolve mapM__post findM_post optFind_post orElse_post
  orProps_post forEachFlow_post : post.

(** The calls whose lemma has a premise; extended as the lemmas come. *)
Ltac post_call := fail.

(** One step of a proof of [post]. *)
Ltac post_step :=
  lazymatch goal with
  | |- post _ _ (findM _ _) => apply findM_post; intros ?
  | |- post _ _ (optFind _ _) => apply optFind_post; intros ?
  | |- post _ _ (mapM_ _ _) => apply mapM__post; intros ?
  | |- post _ _ (Ok _) => apply post_Ok
  | |- post _ _ (Throw _) => apply post_Throw; reflexivity
  | |- post _ _ (if ?c then _ else _) => destruct c eqn:?
  | |- post _ _ (match ?x with _ => _ end) => destruct x eqn:?
  | |- post _ _ (orElse _ _) => apply orElse_post
  | |- post _ _ (?m ≫= _) =>
      first
        [ eapply post_bind; [solve [eauto with post]|intros ? ?]
        | lazymatch type of m with
          | Result ParsedTx => apply (post_bind unfilled)
          | _ => apply (post_bind anything)
          end; [|intros ? ?] ]
  | |- post _ _ _ => post_call
  end.

Ltac split_ifs :=
  repeat match goal with
         | |- context [if ?c then _ else _] =>
             lazymatch c with
             | nonEmpty _ => fail
             | _ => destruct c
             end
         end.

Ltac post_auto :=
  cbv zeta; repeat post_step;
  try solve [exact I | eauto 8 with post | split_ifs; eauto 8 with post
            | eauto with post; split_ifs; eauto 8 with post].


Lemma keyIs_post k a : post anything isTypeError (keyIs k a).
Proof. unfold keyIs. post_auto. Qed.
#[local] Hint Resolve keyIs_post : post.

Lemma findAttr_post k ev : post anything isTypeError (findAttr k ev).
Proof. unfold findAttr. post_auto. Qed.
#[local] Hint Resolve findAttr_post : post.

Lemma eventTypeIs_post t ev : post anything isTypeError (eventTypeIs t ev).
Proof. unfold eventTypeIs. post_auto. Qed.
#[local] Hint Resolve eventTypeIs_post : post.

Lemma recipientCandidate_post evType attrKey ev :
  post anything isTypeError (recipientCandidate evType attrKey ev).
Proof. unfold recipientCandidate. post_auto. Qed.
#[local] Hint Resolve recipientCandidate_post : post.

Lemma recipientFromEvent_post ev u : post anything isTypeError (recipientFromEvent ev u).
Proof. unfold recipientFromEvent. post_auto. Qed.
#[local] Hint Resolve recipientFromEvent_post : post.

Lemma extractRecipientFromEvents_post events :
  post anything isTypeError (extractRecipientFromEvents events).
Proof. unfold extractRecipientFromEvents. post_auto. Qed.
#[local] Hint Resolve extractRecipientFromEvents_post : post.


Lemma keyIsRecipient_post a : post anything isTypeError (keyIsRecipient a).
Proof. unfold keyIsRecipient. post_auto. Qed.
#[local] Hint Resolve keyIsRecipient_post : post.

Lemma logCandidate_post isT find ev :
  (∀ e, post anything isTypeError (find e)) →
  post anything isTypeError (logCandidate isT find ev).
Proof. intros Hf. unfold logCandidate. post_auto. Qed.
#[local] Hint Resolve logCandidate_post : post.

Lemma recipientFromLogEvent_post ev u :
  post anything isTypeError (recipientFromLogEvent ev u).
Proof.
  unfold recipientFromLogEvent. post_auto.
  all: apply logCandidate_post; intros e; post_auto.
Qed.
#[local] Hint Resolve recipientFromLogEvent_post : post.

Lemma eventsOfLog_post log : post anything isTypeError (eventsOfLog log).
Proof. unfold eventsOfLog. post_auto. Qed.
#[local] Hint Resolve eventsOfLog_post : post.

Lemma recipientFromLog_post log u :
  post anything isTypeError (recipientFromLog log u).
Proof. unfold recipientFromLog. post_auto. Qed.
#[local] Hint Resolve recipientFromLog_post : post.

Lemma extractRecipientFromLogs_post logs :
  post anything isTypeError (extractRecipientFromLogs logs).
Proof. unfold extractRecipientFromLogs. post_auto. Qed.
#[local] Hint Resolve extractRecipientFromLogs_post : post.

Lemma amountFromLogEvent_post ev st :
  post anything isTypeError (amountFromLogEvent ev st).
Proof. unfold amountFromLogEvent. post_auto. Qed.
#[local] Hint Resolve amountFromLogEvent_post : post.

Lemma amountFromLog_post log st :
  post anything isTypeError (amountFromLog log st).
Proof. unfold amountFromLog. post_auto. Qed.
#[local] Hint Resolve amountFromLog_post : post.

Lemma extractAmountFromLogs_post logs :
  post anything isTypeError (extractAmountFromLogs logs).
Proof. unfold extractAmountFromLogs. post_auto. Qed.
#[local] Hint Resolve extractAmountFromLogs_post : post.

Lemma eventCoin_post ev : post anything isTypeError (eventCoin ev).
Proof. unfold eventCoin. post_auto. Qed.
#[local] Hint Resolve eventCoin_post : post.

Lemma fillFromAttr_post current key ev :
  post anything isTypeError (fillFromAttr current key ev).
Proof. unfold fillFromAttr. post_auto. Qed.
#[local] Hint Resolve fillFromAttr_post : post.

Lemma unfilled_addReward c st :
  unfilled (wresult st) → unfilled (wresult (addReward c st)).
Proof. by destruct c as [[q d]|]. Qed.
Lemma unfilled_addCommission c st :
  unfilled (wresult st) → unfilled (wresult (addCommission c st)).
Proof. by destruct c as [[q d]|]. Qed.
#[local] Hint Resolve unfilled_addReward unfilled_addCommission : post.

Lemma withdrawEvent_post ev st :
  unfilled (wresult st) →
  post (fun st' => unfilled (wresult st')) isTypeError (withdrawEvent ev st).
Proof.
  intros Hst. unfold withdrawEvent.
  eapply post_bind; [apply getProp_post|]. intros ty _.
  apply (post_bind (fun st' => unfilled (wresult st'))).
  - destruct (strictEqStr ty "withdraw_rewards"); [|done].
    post_auto. cbn [wresult setWResult]. eauto 8 with post.
  - intros st1 Hst1. post_auto.
Qed.

Lemma enhanceWithdrawData_post tx r :
  unfilled r → post unfilled isTypeError (enhanceWithdrawData tx r).
Proof.
  intros Hr. unfold enhanceWithdrawData.
  eapply post_bind; [apply getProp_post|]. intros evs _. cbv zeta.
  eapply post_bind; [apply iterate_post|]. intros items _.
  apply (post_bind (fun st' => unfilled (wresult st'))).
  - apply forEachM_post; [|done]. intros x s Hs. by apply withdrawEvent_post.
  - intros st Hst. post_auto.
Qed.
#[local] Hint Resolve enhanceWithdrawData_post : post.
Ltac post_call ::=
  lazymatch goal with
  | |- post _ _ (enhanceWithdrawData _ _) => apply enhanceWithdrawData_post
  end.

Lemma amountPatterns_post msg r :
  unfilled r → post unfilled isTypeError (amountPatterns msg r).
Proof. intros Hr. unfold amountPatterns. post_auto. Qed.
#[local] Hint Resolve amountPatterns_post : post.

Lemma isRecvPacket_post msg r : post anything isTypeError (isRecvPacket msg r).
Proof. unfold isRecvPacket. post_auto. Qed.
#[local] Hint Resolve isRecvPacket_post : post.

Lemma applyPacket_unfilled decoded r r' :
  unfilled r → applyPacket decoded r = Some r' → unfilled r'.
Proof.
  intros Hr. unfold applyPacket. destruct (isNullish decoded); [done|].
  intros [= <-]. apply unfilled_setType; [done|].
  repeat match goal with
         | |- context [if ?c then _ else _] => destruct c
         end; eauto 8 with post.
Qed.

Lemma recvPacket_post `{Runtime} msg r :
  unfilled r →
  post (fun o => ∀ r', o = Some r' → unfilled r') isTypeError
    (recvPacket msg r).
Proof.
  intros Hr. unfold recvPacket.
  eapply post_bind; [apply isRecvPacket_post|]. intros [|] _; [|by apply post_Ok].
  eapply post_bind; [apply getProp_post|]. intros packet _.
  destruct (truthy packet && truthy (getOpt "data" packet));
    [|by apply post_Ok].
  destruct (decodePacket _) as [decoded|]; [|by apply post_Ok].
  apply post_Ok. intros r'. by apply applyPacket_unfilled.
Qed.

Lemma multiSend_post msg r :
  unfilled r → post unfilled isTypeError (multiSend msg r).
Proof. intros Hr. unfold multiSend. post_auto. Qed.
#[local] Hint Resolve multiSend_post : post.

Lemma governance_post `{Runtime} msg r :
  unfilled r → post unfilled isTypeError (governance msg r).
Proof. intros Hr. unfold governance. post_auto. Qed.
#[local] Hint Resolve governance_post : post.

Lemma isMeaningful_post m : post anything isTypeError (isMeaningful m).
Proof. unfold isMeaningful. post_auto. Qed.
#[local] Hint Resolve isMeaningful_post : post.

Lemma innerAmount_post m r :
  unfilled r → post unfilled isTypeError (innerAmount m r).
Proof. intros Hr. unfold innerAmount. post_auto. Qed.
#[local] Hint Resolve innerAmount_post : post.

Lemma authzExec_post msg r :
  unfilled r → post unfilled isTypeError (authzExec msg r).
Proof.
  intros Hr. unfold authzExec. post_auto.
Qed.
#[local] Hint Resolve authzExec_post : post.

Lemma extractByPattern_post `{Runtime} msg r :
  unfilled r → post unfilled isTypeError (extractByPattern msg r).
Proof.
  intros Hr. unfold extractByPattern.
  eapply post_bind; [by apply amountPatterns_post|]. intros r1 Hr1.
  eapply post_bind; [by apply recvPacket_post|]. intros [r2|] Hr2.
  { apply post_Ok. by apply Hr2. }
  post_auto.
Qed.
#[local] Hint Resolve extractByPattern_post : post.
Ltac post_call ::=
  lazymatch goal with
  | |- post _ _ (enhanceWithdrawData _ _) => apply enhanceWithdrawData_post
  | |- post _ _ (extractByPattern _ _) => apply extractByPattern_post
  end.

Lemma logFallbacks_post tx r :
  unfilled r → post unfilled isTypeError (logFallbacks tx r).
Proof.
  intros Hr. unfold logFallbacks. post_auto.
Qed.
#[local] Hint Resolve logFallbacks_post : post.
Ltac post_call ::=
  lazymatch goal with
  | |- post _ _ (enhanceWithdrawData _ _) => apply enhanceWithdrawData_post
  | |- post _ _ (extractByPattern _ _) => apply extractByPattern_post
  | |- post _ _ (logFallbacks _ _) => apply logFallbacks_post
  end.

Lemma shortType_post m : post anything isTypeError (shortType m).
Proof. unfold shortType. post_auto. Qed.
#[local] Hint Resolve shortType_post : post.

Lemma parseBatchTx_post `{Runtime} tx messages :
  post unfilled isTypeError (parseBatchTx tx messages).
Proof. unfold parseBatchTx. post_auto. Qed.

Ltac post_call ::=
  lazymatch goal with
  | |- post _ _ (enhanceWithdrawData _ _) => apply enhanceWithdrawData_post
  | |- post _ _ (extractByPattern _ _) => apply extractByPattern_post
  | |- post _ _ (logFallbacks _ _) => apply logFallbacks_post
  | |- post _ _ (parseBatchTx _ _) => apply parseBatchTx_post
  end.

Lemma parse_post `{Runtime} tx : post unfilled isTypeError (parse tx).
Proof.
  unfold parse. cbv zeta.
  destruct (negb (truthy tx) || negb (truthy (getOpt "tx" tx)));
    [by apply post_Ok, unfilled_emptyResult|].
  destruct (gtOne _); [|post_auto].
  destruct (if truthy _ then _ else _) as [| | | | |ms|]; try by post_auto.
  eapply post_bind; [post_auto|]. intros ibcRecvMsg _.
  apply (post_bind (fun o => ∀ r, o = Some r → unfilled r)).
  - destruct (truthy ibcRecvMsg); [|by apply post_Ok].
    eapply post_bind; [apply extractByPattern_post; eauto with post|].
    intros r Hr. apply post_Ok.
    destruct (truthy (amount r) && truthy (recipient r)); [|done].
    by intros r' [= <-].
  - intros [r|] Hr; [apply post_Ok; by apply Hr|apply parseBatchTx_post].
Qed.

(** X19. TxParser.parse raises nothing but TypeErrors, and every result it
    returns has a non-empty type and still has height 0 and hash '': no
    branch of the parser fills these two fields. *)
Theorem parse_raises_only_type_errors_and_never_fills_height_or_hash :
  ∀ (rt : Runtime) (txResponse : JsVal),
    match parse txResponse with
    | Ok r => height r = 0 ∧ hash r = EmptyString ∧ nonEmpty (type r) = true
    | Throw e => e = TypeError
    end.
Proof. intros rt txResponse. exact (parse_post txResponse). Qed.

End ParserLaws.

(* ================================================================== *)
(** * Errors raised while a page is saved *)
(* ================================================================== *)

Module ErrorLaws.
Import Js Fetcher Syncer Statements ResultFacts SyncerProps Laws
  ParserLaws LoopLaws.

Lemma post_notHttp {A} (Q : A → Prop) (m : Result A) :
  post Q isTypeError m → post anything notHttp m.
Proof. destruct m as [a|e]; cbn; [done|]. by intros ->. Qed.

Lemma pushMessage_post rec msg acc :
  (∀ v, post anything isTypeError (rec v)) →
  post anything isTypeError (pushMessage rec msg acc).
Proof.
  intros Hrec. unfold pushMessage.
  eapply post_bind; [apply getProp_post|]. intros ty _.
  destruct (_ && _); [|done].
  eapply post_bind; [apply Hrec|]. done.
Qed.

Lemma extractAllMessagesGo_post fuel :
  ∀ messages, post anything isTypeError (extractAllMessagesGo fuel messages).
Proof.
  induction fuel as [|fuel IH]; intros messages; cbn [extractAllMessagesGo].
  - eapply post_bind; [apply iterate_post|]. intros items _.
    apply forEachM_post; [|done]. intros x s _.
    by apply pushMessage_post.
  - eapply post_bind; [apply iterate_post|]. intros items _.
    apply forEachM_post; [|done]. intros x s _.
    by apply pushMessage_post.
Qed.

Lemma extractAllMessages_post messages :
  post anything isTypeError (extractAllMessages messages).
Proof. apply extractAllMessagesGo_post. Qed.

Lemma parseMessage_post `{Runtime} msg :
  post anything isTypeError (parseMessage msg).
Proof.
  unfold parseMessage.
  eapply post_bind; [apply getProp_post|]. intros ty _.
  eapply post_bind; [apply asString_post|]. intros text _. cbv zeta.
  match goal with
  | |- post _ _ (match ?d with _ => _ end) => by destruct d
  end.
Qed.

Lemma analysed_post `{Runtime} t : post anything isTypeError (analysed t).
Proof.
  unfold analysed.
  eapply post_bind; [apply getProp_post|]. intros txhash _.
  destruct (_ || _); [done|].
  eapply post_bind; [apply extractAllMessages_post|]. intros allMessages _.
  eapply post_bind; [apply (post_any _ _ _ (parse_post t))|]. intros r _.
  eapply post_bind; [|done].
  apply mapM__post. intros m. apply parseMessage_post.
Qed.

Lemma raisesNoHttp_bind {A B} (m : M A) (f : A → M B) :
  raisesNoHttp m → (∀ a, raisesNoHttp (f a)) → raisesNoHttp (m ≫= f).
Proof.
  intros Hm Hf w e. rewrite bindM_unfold. specialize (Hm w).
  destruct (m w) as [w1 [a|e1]]; cbn [snd] in *.
  - apply Hf.
  - intros [= <-]. by apply Hm.
Qed.

Lemma raisesNoHttp_mret {A} (a : A) : raisesNoHttp (mret a).
Proof. by intros w e. Qed.

Lemma raisesNoHttp_gets {A} (f : World → A) : raisesNoHttp (gets f).
Proof. by intros w e. Qed.

Lemma raisesNoHttp_modify (f : World → World) : raisesNoHttp (modify f).
Proof. by intros w e. Qed.

Lemma raisesNoHttp_lift {A} (r : Result A) :
  post anything notHttp r → raisesNoHttp (lift r).
Proof. intros Hr w e. destruct r as [a|e1]; [done|]. by intros [= <-]. Qed.

Lemma raisesNoHttp_transaction {A} (m : M A) :
  raisesNoHttp m → raisesNoHttp (transaction m).
Proof.
  intros Hm w e. specialize (Hm w). unfold transaction.
  destruct (m w) as [w1 [a|e1]]; [done|]. cbn [snd] in *.
  intros [= <-]. by apply Hm.
Qed.

Lemma textKey_post v : post anything notHttp (textKey v).
Proof. by destruct v. Qed.
Lemma textColumn_post v : post anything notHttp (textColumn v).
Proof. by destruct v. Qed.
Lemma required_post {A} (o : option A) : post anything notHttp (required o).
Proof. by destruct o. Qed.

Ltac no_http :=
  repeat first
    [ apply raisesNoHttp_mret
    | apply raisesNoHttp_gets
    | apply raisesNoHttp_modify
    | apply raisesNoHttp_lift;
      first [apply textKey_post | apply textColumn_post | apply required_post
            | done
            | match goal with
              | |- post _ _ (if ?c then _ else _) =>
                  destruct c; first [apply textColumn_post | done]
              end]
    | apply raisesNoHttp_bind; [|intros ?]
    | match goal with
      | |- raisesNoHttp (match ?x with _ => _ end) => destruct x
      | |- raisesNoHttp (if ?c then _ else _) => destruct c
      end ].

Lemma saveWalletRecord_raisesNoHttp `{Runtime} walletId wallet t h pr msgs :
  raisesNoHttp (saveWalletRecord walletId wallet t h pr msgs).
Proof. unfold saveWalletRecord. cbv zeta. no_http. Qed.

Lemma saveValidatorRecord_raisesNoHttp `{Runtime} walletId wallet t h pr msgs :
  raisesNoHttp (saveValidatorRecord walletId wallet t h pr msgs).
Proof. unfold saveValidatorRecord. cbv zeta. no_http. Qed.

Lemma processTx_raisesNoHttp `{Runtime} walletId wallet t :
  raisesNoHttp (processTx walletId wallet t).
Proof.
  intros w e. rewrite processTx_analysed.
  pose proof (post_notHttp _ _ (analysed_post t)) as Ha.
  destruct (analysed t) as [[[txParserResult parsed]|]|e1]; cbn in Ha.
  - revert w e. apply raisesNoHttp_bind;
      [apply saveWalletRecord_raisesNoHttp|]. intros n1.
    apply raisesNoHttp_bind; [|intros n2; apply raisesNoHttp_mret].
    destruct (hasText (valAddress wallet));
      [apply saveValidatorRecord_raisesNoHttp|apply raisesNoHttp_mret].
  - done.
  - by intros [= <-].
Qed.

Lemma processTxs_raisesNoHttp `{Runtime} walletId wallet txs :
  raisesNoHttp (processTxs walletId wallet txs).
Proof.
  induction txs as [|t txs IH]; cbn [processTxs]; [apply raisesNoHttp_mret|].
  apply raisesNoHttp_bind; [apply processTx_raisesNoHttp|]. intros n.
  apply raisesNoHttp_bind; [exact IH|]. intros m. apply raisesNoHttp_mret.
Qed.

Lemma savePage_raisesNoHttp `{Runtime} walletId wallet txs :
  raisesNoHttp (savePage walletId wallet txs).
Proof. apply raisesNoHttp_transaction, processTxs_raisesNoHttp. Qed.


Lemma outside_bind {A B} (m : M A) (f : A → M B) :
  (∀ w, outside (m w).1 = outside w) →
  (∀ a w, outside (f a w).1 = outside w) →
  ∀ w, outside ((m ≫= f) w).1 = outside w.
Proof.
  intros Hm Hf w. rewrite bindM_unfold. specialize (Hm w).
  destruct (m w) as [w1 [a|e]]; cbn [fst] in *; [|done].
  by rewrite Hf.
Qed.

Ltac outside_auto :=
  repeat first
    [ match goal with
      | |- ∀ w, outside (mret _ w).1 = outside w => by intros ?
      | |- ∀ w, outside (lift _ w).1 = outside w => by intros ?
      | |- ∀ w, outside (gets _ w).1 = outside w => by intros ?
      | |- ∀ w, outside (modify _ w).1 = outside w => by intros ?
      | |- ∀ w, outside ((_ ≫= _) w).1 = outside w =>
          apply outside_bind; [|intros ?]
      | |- ∀ w, outside ((match ?x with _ => _ end) w).1 = outside w =>
          destruct x
      | |- ∀ w, outside ((if ?c then _ else _) w).1 = outside w =>
          destruct c
      end ].

Lemma saveWalletRecord_outside `{Runtime} walletId wallet t h pr msgs :
  ∀ w, outside (saveWalletRecord walletId wallet t h pr msgs w).1 = outside w.
Proof. unfold saveWalletRecord. cbv zeta. outside_auto. Qed.

Lemma saveValidatorRecord_outside `{Runtime} walletId wallet t h pr msgs :
  ∀ w, outside (saveValidatorRecord walletId wallet t h pr msgs w).1
       = outside w.
Proof. unfold saveValidatorRecord. cbv zeta. outside_auto. Qed.

Lemma processTx_outside `{Runtime} walletId wallet t :
  ∀ w, outside (processTx walletId wallet t w).1 = outside w.
Proof.
  intros w. rewrite processTx_analysed.
  destruct (analysed t) as [[[txParserResult parsed]|]|e1]; try done.
  revert w. apply outside_bind; [apply saveWalletRecord_outside|]. intros n1.
  apply outside_bind; [|by intros n2 w].
  destruct (hasText (valAddress wallet));
    [apply saveValidatorRecord_outside|by intros w].
Qed.

Lemma processTxs_outside `{Runtime} walletId wallet txs :
  ∀ w, outside (processTxs walletId wallet txs w).1 = outside w.
Proof.
  induction txs as [|t txs IH]; cbn [processTxs]; [by intros w|].
  apply outside_bind; [apply processTx_outside|]. intros n.
  apply outside_bind; [exact IH|]. by intros m w.
Qed.

Lemma savePage_outside `{Runtime} walletId wallet txs :
  ∀ w, outside (savePage walletId wallet txs w).1 = outside w.
Proof.
  intros w. pose proof (processTxs_outside walletId wallet txs w) as Ho.
  unfold savePage, transaction.
  by destruct (processTxs walletId wallet txs w) as [w1 [a|e]].
Qed.

Lemma savePage_failed_tables `{Runtime} walletId wallet txs w :
  isOk (savePage walletId wallet txs w).2 = false →
  walletTransaction (savePage walletId wallet txs w).1 = walletTransaction w
  ∧ validatorTransaction (savePage walletId wallet txs w).1
    = validatorTransaction w.
Proof.
  unfold savePage, transaction.
  by destruct (processTxs walletId wallet txs w) as [w1 [a|e]].
Qed.

Section Poison.
Context `{Runtime} (backend : Backend) (data : JsVal) (p : Page).
Context (walletId : Z) (wallet : Wallet) (queryEvent : string).
Hypothesis Hserve : ∀ history req, backend history req = Resolved data.
Hypothesis Hpage : pageOf data = Ok p.
Hypothesis Hsome : txs p ≠ [].
Hypothesis Hfail : ∀ w, isOk (savePage walletId wallet (txs p) w).2 = false.




End Poison.



(** X21. Saving a page (the $transaction block) leaves wallet rows, locks,
    clock, requests and sleeps as they are. When it returns, records were
    only added, each under (hash, walletId); when it raises, the error is
    not an axios error, so the catch block treats it as a generic error, and
    both transaction tables are as before. *)
Theorem saving_a_page_raises_no_http_error :
  ∀ (rt : Runtime) (walletId : Z) (wallet : Wallet) (txs : list JsVal)
    (w : World),
    let run := savePage walletId wallet txs w in
    outside run.1 = outside w
    ∧ match run.2 with
      | Ok _ => recordsAdded walletId w run.1
      | Throw e =>
          isAxiosError e = false
          ∧ classOf e = Generic
          ∧ walletTransaction run.1 = walletTransaction w
          ∧ validatorTransaction run.1 = validatorTransaction w
      end.
Proof.
  intros rt walletId wallet txs w run.
  split; [apply savePage_outside|].
  pose proof (savePage_raisesNoHttp walletId wallet txs w) as Hno.
  pose proof (savePage_failed_tables walletId wallet txs w) as Htab.
  pose proof (StoreLaws.adds_transaction walletId _
                (StoreLaws.processTxs_adds walletId wallet txs) w) as Hadd.
  fold (savePage walletId wallet txs) in Hadd. fold run in Hno, Htab, Hadd.
  destruct run as [w1 [n|e]]; cbn [fst snd] in *; [done|].
  specialize (Hno e eq_refl). unfold notHttp in Hno.
  split; [done|]. split; [by destruct e|by apply Htab].
Qed.

End ErrorLaws.

(* ================================================================== *)
(** * Vote options and event resolvers *)
(* ================================================================== *)

Module MoreParserLaws.
Import Js TxParser ResultFacts Laws ParserProps ParserLaws.

(** X22. For each of the five option names EMPTY, YES, ABSTAIN, NO,
    NO_WITH_VETO at index i, parseVoteOption returns the name for the number
    i, for the name itself and for the name prefixed with VOTE_OPTION_. *)
Theorem parseVoteOption_reads_both_encodings :
  ∀ (rt : Runtime) (i : nat) (name : string),
    opts !! i = Some name →
    parseVoteOption (JNum (Z.of_nat i)) = name
    ∧ parseVoteOption (JStr name) = name
    ∧ parseVoteOption (JStr ("VOTE_OPTION_" +:+ name)) = name.
Proof.
  intros rt i name Hi.
  do 5 (destruct i as [|i]; [injection Hi as <-; by vm_compute|]).
  discriminate.
Qed.

Lemma parseVoteOption_reads_both_encodings_witness :
  @parseVoteOption Sample.runtime (JNum 3) = "NO"
  ∧ @parseVoteOption Sample.runtime (JStr "VOTE_OPTION_NO") = "NO".
Proof.
  destruct (parseVoteOption_reads_both_encodings Sample.runtime 3 "NO" eq_refl)
    as (H1 & _ & H3).
  split; [exact H1|exact H3].
Defined.

(** X23. extractRecipientFromEvents returns null or a truthy value that does
    not contain the fee collector's address fragment; it raises nothing but
    TypeErrors. *)
Theorem events_resolver_skips_the_fee_collector :
  ∀ events : JsVal,
    match extractRecipientFromEvents events with
    | Ok v =>
        v = JNull
        ∨ (truthy v = true ∧ jsIncludes FEE_COLLECTOR v = Ok false)
    | Throw e => e = TypeError
    end.
Proof.
  intros events.
  pose proof (extractRecipientFromEvents_post events) as Hpost.
  destruct (extractRecipientFromEvents events) as [v|e] eqn:E.
  - by apply (extractRecipientFromEvents_not_fee events).
  - exact Hpost.
Qed.

End MoreParserLaws.

(* ================================================================== *)
(** * Amounts that are not coins *)
(* ================================================================== *)

Module MoreAmountLaws.
Import Js Syncer ResultFacts Laws.

Lemma omap_filter_coinText amounts :
  omap id (List.filter isCoinText amounts)
  = List.filter (fun s => isCoinText (Some s)) (omap id amounts).
Proof.
  induction amounts as [|[s|] amounts IH]; [done| |].
  - change (omap id (Some s :: amounts)) with (s :: omap id amounts).
    cbn [List.filter]. destruct (isCoinText (Some s)); [|exact IH].
    change (omap id (Some s :: List.filter isCoinText amounts))
      with (s :: omap id (List.filter isCoinText amounts)).
    by rewrite IH.
  - exact IH.
Qed.

Lemma fold_addAmount_filter texts :
  ∀ m, fold_left addAmount texts m
       = fold_left addAmount
           (List.filter (fun s => isCoinText (Some s)) texts) m.
Proof.
  induction texts as [|s texts IH]; intros m; [done|].
  cbn [fold_left List.filter]. unfold isCoinText at 1.
  destruct (matchCoinExact s) as [c|] eqn:E.
  - cbn [fold_left]. apply IH.
  - unfold addAmount at 2. rewrite E. apply IH.
Qed.

(** X24. aggregateAmounts ignores every entry that is null or not of the
    form digits-then-letters: its result is that of the list with these
    entries removed, and it is null when no entry has that form. *)
Theorem aggregateAmounts_ignores_what_is_not_a_coin :
  ∀ amounts : list (option string),
    aggregateAmounts amounts
    = aggregateAmounts (List.filter isCoinText amounts)
    ∧ (List.filter isCoinText amounts = [] → aggregateAmounts amounts = None).
Proof.
  assert (Hmain : ∀ amounts, aggregateAmounts amounts
                  = aggregateAmounts (List.filter isCoinText amounts)).
  { intros amounts. unfold aggregateAmounts.
    rewrite omap_filter_coinText.
    rewrite (fold_addAmount_filter (omap id amounts)).
    destruct (omap id amounts) as [|s texts]; [done|].
    destruct (List.filter _ (s :: texts)); reflexivity. }
  intros amounts. split; [apply Hmain|].
  intros Hnil. by rewrite Hmain, Hnil.
Qed.

End MoreAmountLaws.

(* ================================================================== *)
(** * The count of saved records *)
(* ================================================================== *)

Module CountLaws.
Import Js Fetcher Syncer Statements ResultFacts SyncerProps Laws.

Lemma accounted_refl wallet w : accounted wallet w w 0.
Proof.
  split; [unfold recordCount; lia|]. exists []. by repeat split.
Qed.

Lemma accounted_trans wallet w w1 w2 n1 n2 :
  accounted wallet w w1 n1 → accounted wallet w1 w2 n2 →
  accounted wallet w w2 (n1 + n2).
Proof.
  intros [Hc1 (new1 & Hs1 & Hl1 & Hw1)] [Hc2 (new2 & Hs2 & Hl2 & Hw2)].
  split; [lia|]. exists (new2 ++ new1)%list. split; [|split].
  - by rewrite Hs2, Hs1, app_assoc.
  - rewrite length_app. lia.
  - intros Hno. by rewrite Hw1, Hw2.
Qed.

Lemma counts_mret wallet : counts wallet (mret O).
Proof. intros w. apply accounted_refl. Qed.

Lemma counts_sum wallet (m1 m2 : M nat) :
  counts wallet m1 → counts wallet m2 →
  counts wallet (n1 ← m1; n2 ← m2; mret (n1 + n2)%nat).
Proof.
  intros H1 H2 w. rewrite bindM_unfold. specialize (H1 w).
  destruct (m1 w) as [w1 [n1|e]]; cbn [fst snd] in *; [|exact H1].
  rewrite bindM_unfold. specialize (H2 w1).
  destruct (m2 w1) as [w2 [n2|e]]; cbn [fst snd] in *.
  - rewrite mretM. cbn [fst snd]. by eapply accounted_trans.
  - destruct H1 as [_ (new1 & Hs1 & _ & Hw1)].
    destruct H2 as (new2 & Hs2 & Hw2).
    exists (new2 ++ new1)%list. split.
    + by rewrite Hs2, Hs1, app_assoc.
    + intros Hno. by rewrite Hw1, Hw2.
Qed.

Lemma counts_failed wallet w e :
  match (w, @Throw nat e).2 with
  | Ok n => accounted wallet w (w, @Throw nat e).1 n
  | Throw _ =>
      ∃ new, sent (w, @Throw nat e).1 = (new ++ sent w)%list
             ∧ (hasText (webhookUrl wallet) = false → new = [])
  end.
Proof. by exists []. Qed.

Lemma saveWalletRecord_counts `{Runtime} walletId wallet t h pr msgs :
  counts wallet (saveWalletRecord walletId wallet t h pr msgs).
Proof.
  intros w. unfold saveWalletRecord. destruct msgs as [|firstMsg rest].
  { apply accounted_refl. }
  rewrite bindM_lift.
  destruct (textKey (getOpt "txhash" t)) as [txhash|e] eqn:Hkey;
    [|apply counts_failed].
  rewrite bindM_gets.
  destruct (walletTransaction w !! (txhash, walletId)) as [row|] eqn:Hrow;
    [apply accounted_refl|].
  rewrite !bindM_lift.
  repeat match goal with
         | |- context [match ?r with Ok _ => _ | Throw _ => _ end] =>
             destruct r; [rewrite ?bindM_lift|apply counts_failed]
         end.
  rewrite bindM_modify.
  match goal with
  | |- context [if ?b then _ else _] => destruct b eqn:Hnotify
  end; rewrite ?bindM_modify, ?bindM_mret, mretM; cbn [fst snd].
  - split.
    + unfold recordCount.
      cbn [walletTransaction validatorTransaction addSent
             setWalletTransaction].
      rewrite map_size_insert_None by done. lia.
    + eexists [_]. cbn [sent addSent setWalletTransaction].
      split; [reflexivity|]. split; [done|].
      intros Hno. rewrite Hno in Hnotify.
      by rewrite andb_false_r in Hnotify.
  - split.
    + unfold recordCount.
      cbn [walletTransaction validatorTransaction setWalletTransaction].
      rewrite map_size_insert_None by done. lia.
    + exists []. cbn [sent setWalletTransaction]. split; [done|]. split; [cbn [length]; lia|done].
Qed.

Lemma saveValidatorRecord_counts `{Runtime} walletId wallet t h pr msgs :
  counts wallet (saveValidatorRecord walletId wallet t h pr msgs).
Proof.
  intros w. unfold saveValidatorRecord. destruct msgs as [|firstMsg rest].
  { apply accounted_refl. }
  rewrite bindM_lift.
  destruct (textKey (getOpt "txhash" t)) as [txhash|e] eqn:Hkey;
    [|apply counts_failed].
  rewrite bindM_gets.
  destruct (validatorTransaction w !! (txhash, walletId)) as [row|] eqn:Hrow;
    [apply accounted_refl|].
  rewrite !bindM_lift.
  repeat match goal with
         | |- context [match ?r with Ok _ => _ | Throw _ => _ end] =>
             destruct r; [rewrite ?bindM_lift|apply counts_failed]
         end.
  rewrite bindM_modify.
  match goal with
  | |- context [if ?b then _ else _] => destruct b eqn:Hnotify
  end; rewrite ?bindM_modify, ?bindM_mret, mretM; cbn [fst snd].
  - split.
    + unfold recordCount.
      cbn [walletTransaction validatorTransaction addSent
             setValidatorTransaction].
      rewrite map_size_insert_None by done. lia.
    + eexists [_]. cbn [sent addSent setValidatorTransaction].
      split; [reflexivity|]. split; [done|].
      intros Hno. by rewrite Hno in Hnotify.
  - split.
    + unfold recordCount.
      cbn [walletTransaction validatorTransaction setValidatorTransaction].
      rewrite map_size_insert_None by done. lia.
    + exists []. cbn [sent setValidatorTransaction]. split; [done|]. split; [cbn [length]; lia|done].
Qed.

Lemma processTx_counts `{Runtime} walletId wallet t :
  counts wallet (processTx walletId wallet t).
Proof.
  intros w. rewrite processTx_analysed.
  destruct (analysed t) as [[[txParserResult parsed]|]|e];
    [|apply accounted_refl|apply counts_failed].
  revert w. apply counts_sum; [apply saveWalletRecord_counts|].
  destruct (hasText (valAddress wallet));
    [apply saveValidatorRecord_counts|apply counts_mret].
Qed.

Lemma processTxs_counts `{Runtime} walletId wallet txs :
  counts wallet (processTxs walletId wallet txs).
Proof.
  induction txs as [|t txs IH]; cbn [processTxs]; [apply counts_mret|].
  apply counts_sum; [apply processTx_counts|exact IH].
Qed.

(** X25. The count newTxCount that saving a page reports is the number of
    records added to the two transaction tables together; when saving
    raises, the tables hold as many records as before. Notifications are
    only appended: at most one per counted record, and none for a wallet
    without a webhook URL. *)
Theorem the_count_of_a_saved_page_is_the_number_of_records_added :
  ∀ (rt : Runtime) (walletId : Z) (wallet : Wallet) (txs : list JsVal)
    (w : World),
    let run := savePage walletId wallet txs w in
    (∃ new, sent run.1 = (new ++ sent w)%list
            ∧ (hasText (webhookUrl wallet) = false → new = [])
            ∧ match run.2 with
              | Ok n => (length new ≤ n)%nat
              | Throw _ => True
              end)
    ∧ recordCount run.1
      = (recordCount w + match run.2 with Ok n => n | Throw _ => O end)%nat.
Proof.
  intros rt walletId wallet txs w run. subst run.
  pose proof (processTxs_counts walletId wallet txs w) as Hc.
  unfold savePage, transaction.
  destruct (processTxs walletId wallet txs w) as [w1 [n|e]]; cbn [fst snd] in *.
  - destruct Hc as [Hn (new & Hs & Hl & Hw)]. split; [|done]. by exists new.
  - destruct Hc as (new & Hs & Hw). split.
    + exists new. by cbn.
    + unfold recordCount. cbn. lia.
Qed.

End CountLaws.

(* ================================================================== *)
(** * The record of a batch withdrawal *)
(* ================================================================== *)

Module BatchLaws.
Import Js Fetcher Syncer Statements ResultFacts ParserProps SyncerProps Laws.











End BatchLaws.

(* ================================================================== *)
(** * The error classes of the page loop *)
(* ================================================================== *)

Module PagingLaws.
Import Js Fetcher Syncer Statements ResultFacts SyncerProps Laws LoopLaws
  ErrorLaws.

Lemma classOf_not_http e : isAxiosError e = false → classOf e = Generic.
Proof. by destruct e. Qed.

Lemma fallback_test e :
  isAxiosError e && bool_decide (default 0 (statusOf e) ∈ [400; 500; 501])
  = match classOf e with Incompatible => true | _ => false end.
Proof.
  destruct e as [|[s|]|]; try reflexivity.
  cbn [isAxiosError statusOf andb default classOf]. change (id s) with s.
  destruct (bool_decide (s ∈ [502; 503; 504])) eqn:H1.
  - apply bool_decide_eq_true in H1. apply bool_decide_eq_false.
    intros H2.
    repeat (apply elem_of_cons in H1 as [->|H1];
            [repeat (apply elem_of_cons in H2 as [H2|H2]; [lia|]);
             by apply elem_of_nil in H2|]).
    by apply elem_of_nil in H1.
  - destruct (bool_decide (s = 429)) eqn:H2.
    + apply bool_decide_eq_true in H2 as ->. by vm_compute.
    + by destruct (bool_decide (s ∈ [400; 500; 501])).
Qed.

Lemma mergeFrom_raises txs e :
  ∀ rs i, mergeFrom txs i rs = Throw e → e = TypeError.
Proof.
  induction rs as [|r rs IH]; intros i; [done|].
  cbn [mergeFrom]. unfold mergeOne.
  destruct (getProp "tx" r) as [tx|e1] eqn:Htx; cbn [mbind result_bind].
  - assert (Hrest : ∀ m : JsVal,
              (ms ← mergeFrom txs (S i) rs; Ok (m :: ms)) = Throw e →
              e = TypeError).
    { intros m. destruct (mergeFrom txs (S i) rs) as [ms|e2] eqn:Hms; [done|].
      cbn [mbind result_bind]. intros [= <-]. by eapply IH. }
    destruct (truthy tx); cbn [mbind result_bind]; apply Hrest.
  - intros [= <-]. destruct r; by try injection Htx as <-.
Qed.

Lemma pageOf_raises `{Runtime} data e : pageOf data = Throw e → e = TypeError.
Proof.
  unfold pageOf, mergeTxResponses.
  destruct (getProp "tx_responses" data) as [tr|e1] eqn:Htr;
    cbn [mbind result_bind].
  - destruct (if truthy tr then tr else JArr []) as [| | | | |rs|];
      cbn [mbind result_bind]; try by intros [= <-].
    destruct (mergeFrom _ 0 rs) as [ms|e2] eqn:Hms; [done|].
    cbn [mbind result_bind]. intros [= <-]. by eapply mergeFrom_raises.
  - intros [= <-]. destruct data; by try injection Htr as <-.
Qed.

Lemma afterFetch_run `{Runtime} walletId wallet st p w1 :
  afterFetch walletId wallet st p w1
    (match txs p with
     | [] => mret (stop (setErrors 0 st))
     | _ =>
         saved ← Syncer.attempt (savePage walletId wallet (txs p));
         match saved with
         | Throw error => onError error (setErrors 0 st)
         | Ok newTxCount => sleep 200;; mret (advance (txs p) (setErrors 0 st))
         end
     end w1).
Proof.
  unfold afterFetch. destruct (txs p) as [|t rest] eqn:Htxs; [done|].
  rewrite <- Htxs. rewrite bindM_unfold. unfold Syncer.attempt.
  pose proof (savePage_raisesNoHttp walletId wallet (txs p) w1) as Hno.
  destruct (savePage walletId wallet (txs p) w1) as [w2 [n|error]]; [done|].
  specialize (Hno error eq_refl). split; [exact Hno|].
  cbv beta iota.
  by rewrite (onError_generic error _ _ (classOf_not_http error Hno)).
Qed.

Lemma afterFetchError_run error st w1 :
  classOf error ≠ Incompatible →
  afterFetchError error st w1 (onError error st w1).
Proof.
  intros Hc. unfold afterFetchError. cbv zeta.
  destruct (classOf error) eqn:Hclass; [| |done|].
  - rewrite (onError_unavailable error st w1 Hclass). cbv zeta.
    cbn [consecutiveErrors setErrors].
    by destruct (3 <=? consecutiveErrors st + 1).
  - by rewrite (onError_rateLimited error st w1 Hclass).
  - rewrite (onError_generic error st w1 Hclass). cbv zeta.
    cbn [consecutiveErrors setErrors].
    by destruct (5 <=? consecutiveErrors st + 1).
Qed.

(** C7, amended.  One turn of the page loop, by what the backend answers
    to the page request.  A fetch that returns a page resets the counter
    [consecutiveErrors] to zero ([afterFetch]; the response body is taken
    to be [plain], so that the conversions of its total and of the height
    of its last envelope do not raise).  An error that the fetch
    raises first increments the one counter, whatever its class, and is
    then handled by class ([afterFetchError]): 502/503/504 sleeps 10s and
    aborts the filter when the counter has reached 3; 429 sleeps 5s and
    never aborts by itself; any other error aborts when the counter has
    reached 5 and otherwise sleeps 2s.  A 400/500/501 answer is not such an
    error: the request is made once more in the events dialect, and the
    turn goes on with the page this returns, or, when it fails as well,
    ends the filter with the counter at zero and without sleeping. *)
Theorem paging_errors_share_one_counter :
  ∀ (rt : Runtime) (backend : Backend) (walletId : Z) (wallet : Wallet)
    (queryEvent : string) (st : LoopState) (w : World),
    let legacy := legacyRequest (chainRest wallet) queryEvent (iterHeight st)
                    (page st) in
    let events := eventsRequest (chainRest wallet) queryEvent (iterHeight st)
                    (page st) in
    let w1 := setRequests (legacy :: requests w) w in
    let w2 := setRequests (events :: legacy :: requests w) w in
    let run := pageIteration backend walletId wallet queryEvent st w in
    match backend (requests w) legacy with
    | Resolved data =>
        match pageOf data with
        | Ok p => plain data = true → afterFetch walletId wallet st p w1 run
        | Throw error => afterFetchError error st w1 run
        end
    | Rejected error =>
        match classOf error with
        | Incompatible =>
            match backend (legacy :: requests w) events with
            | Resolved data =>
                match pageOf data with
                | Ok p =>
                    plain data = true → afterFetch walletId wallet st p w2 run
                | Throw _ => run = (w2, Ok (stop (setErrors 0 st)))
                end
            | Rejected _ => run = (w2, Ok (stop (setErrors 0 st)))
            end
        | _ => afterFetchError error st w1 run
        end
    end.
Proof.
  intros rt backend walletId wallet queryEvent st w legacy events w1 w2 run.
  subst run w1 w2 legacy events. unfold legacyRequest, eventsRequest.
  unfold pageIteration. rewrite bindM_unfold.
  unfold Syncer.attempt, fetchPage, fetchIndexerMode, Fetcher.attempt.
  cbv beta.
  destruct (backend (requests w) _) as [data|error] eqn:Hlegacy.
  - destruct (pageOf data) as [p|error] eqn:Hpage.
    + intros _. exact (afterFetch_run walletId wallet st p _).
    + apply pageOf_raises in Hpage as Herr. subst error. cbn [isAxiosError andb].
      by apply afterFetchError_run.
  - rewrite fallback_test.
    destruct (classOf error) eqn:Hclass;
      try (apply afterFetchError_run; by rewrite Hclass).
    destruct (backend (_ :: requests w) _) as [data|e2]; [|done].
    destruct (pageOf data) as [p|e2]; [|done].
    intros _. exact (afterFetch_run walletId wallet st p _).
Qed.

End PagingLaws.
